(** * Thunder: schema federation merger and reactive re-runner

    A shallow embedding of [federation/schema.go] (the merge half) and of
    [reactive/rerunner.go], with the properties of the specification stated
    and proved over it.

    Conventions of the embedding:
    - a Go pointer that may be nil is an [option]; dereferencing nil is the
      outcome [Panic];
    - a Go [(T, error)] return is a [result T]: [Ok], [Err msg] or [Panic];
    - a Go [map[string][]T] is a [gmap string (list T)], reading a missing key
      gives the nil slice ([!!!] with default [[]]);
    - [sort.Strings] is a sort for the byte-wise lexicographic order. *)

From Stdlib Require Import String Ascii List ZArith Lia.
From stdpp Require Import base option list gmap strings sorting.
From Equations Require Import Equations.

Open Scope string_scope.
Open Scope list_scope.

(** ** Outcomes of fallible Go code *)

Inductive result (A : Type) : Type :=
| Ok (x : A)
| Err (msg : string)
| Panic.
Arguments Ok {A} x.
Arguments Err {A} msg.
Arguments Panic {A}.

#[global] Instance result_ret : MRet result := λ A x, Ok x.
#[global] Instance result_bind : MBind result := λ A B k r,
  match r with
  | Ok x => k x
  | Err e => Err e
  | Panic => Panic
  end.

(** [fmt.Errorf("prefix: %v", err)] around a failing call. *)
Definition wrapErr {A} (f : string → string) (r : result A) : result A :=
  match r with
  | Err e => Err (f e)
  | _ => r
  end.

Definition isOk {A} (r : result A) : bool :=
  match r with Ok _ => true | _ => false end.

Definition inspect {A} (a : A) : {b | a = b} := exist _ a eq_refl.

Module Federation.

(** ** Merge modes *)

Definition MergeMode := string.
Definition Union : MergeMode := "union".
Definition Intersection : MergeMode := "intersection".

(** ** Introspection model *)

#[warnings="-register-all"]
Inductive introspectionTypeRef : Type :=
  TypeRef { tr_Kind : string; tr_Name : string; tr_OfType : option introspectionTypeRef }.

Record introspectionInputField : Type :=
  InputField { if_Name : string; if_Type : option introspectionTypeRef }.

Record introspectionField : Type :=
  Field { f_Name : string; f_Type : option introspectionTypeRef;
          f_Args : list introspectionInputField }.

Record introspectionEnumValue : Type :=
  EnumValue { ev_Name : string }.

Record introspectionType : Type :=
  IType { t_Name : string; t_Kind : string;
          t_Fields : list introspectionField;
          t_InputFields : list introspectionInputField;
          t_PossibleTypes : list (option introspectionTypeRef);
          t_EnumValues : list introspectionEnumValue }.

Record introspectionSchema : Type :=
  ISchema { Types : list introspectionType }.

Record introspectionQueryResult : Type :=
  QueryResult { Schema : introspectionSchema }.

Definition isBasicKind (k : string) : bool :=
  existsb (String.eqb k) ["SCALAR"; "ENUM"; "INPUT_OBJECT"; "UNION"; "OBJECT"].

(** The [String] method of the type reference, on a non-nil receiver.  The default
    branch formats [t.OfType] with [%s], which calls [String] again. *)
Fixpoint ref_String (t : introspectionTypeRef) : string :=
  let inner := match tr_OfType t with
               | None => "<nil>"
               | Some u => ref_String u
               end in
  if existsb (String.eqb (tr_Kind t)) ["SCALAR"; "ENUM"; "UNION"; "OBJECT"; "INPUT_OBJECT"]
  then tr_Name t
  else if String.eqb (tr_Kind t) "NON_NULL" then inner +:+ "!"
  else if String.eqb (tr_Kind t) "LIST" then "[" +:+ inner +:+ "]"
  else "<kind=" +:+ tr_Kind t +:+ " name=" +:+ tr_Name t +:+ " ofType" +:+ inner +:+ ">".

Definition TypeRef_String (t : option introspectionTypeRef) : string :=
  match t with
  | None => "<nil>"
  | Some t => ref_String t
  end.

(** [%v] of the structs that appear in error messages, as Go's [fmt] prints
    them: fields in braces, slices in brackets, separated by spaces. *)
Definition fmt_InputField (x : introspectionInputField) : string :=
  "{" +:+ if_Name x +:+ " " +:+ TypeRef_String (if_Type x) +:+ "}".

Definition fmt_slice {A} (f : A → string) (l : list A) : string :=
  "[" +:+ String.concat " " (map f l) +:+ "]".

Definition fmt_Field (x : introspectionField) : string :=
  "{" +:+ f_Name x +:+ " " +:+ TypeRef_String (f_Type x) +:+ " " +:+
  fmt_slice fmt_InputField (f_Args x) +:+ "}".

(** ** Type merger *)

Fixpoint ref_size (t : introspectionTypeRef) : nat :=
  match tr_OfType t with
  | None => 1
  | Some u => S (ref_size u)
  end.

Definition oref_size (t : option introspectionTypeRef) : nat :=
  match t with
  | None => 0
  | Some t => ref_size t
  end.

Definition isNonNull (a : introspectionTypeRef) : bool :=
  String.eqb (tr_Kind a) "NON_NULL".

(** [if a.Kind == "NON_NULL" { a = a.OfType }] *)
Definition strip (a : introspectionTypeRef) : option introspectionTypeRef :=
  if isNonNull a then tr_OfType a else Some a.

Definition NonNullOf (t : introspectionTypeRef) : introspectionTypeRef :=
  TypeRef "NON_NULL" "" (Some t).

Definition ListOf (t : introspectionTypeRef) : introspectionTypeRef :=
  TypeRef "LIST" "" (Some t).

Equations? mergeTypeRefs (a b : option introspectionTypeRef) (isInput : bool)
  : result introspectionTypeRef by wf (oref_size a + oref_size b) lt :=
mergeTypeRefs None _ _ := Panic;
mergeTypeRefs (Some _) None _ := Panic;
mergeTypeRefs (Some a) (Some b) isInput with inspect (isNonNull a || isNonNull b) := {
  | exist _ true _ :=
      match mergeTypeRefs (strip a) (strip b) isInput with
      | Ok merged =>
          let resultNonNil := isInput || (isNonNull a && isNonNull b) in
          if resultNonNil then Ok (NonNullOf merged) else Ok merged
      | Err e => Err e
      | Panic => Panic
      end;
  | exist _ false _ :=
      if negb (String.eqb (tr_Kind a) (tr_Kind b)) then
        Err ("kinds " +:+ tr_Name a +:+ " and " +:+ tr_Kind b +:+ " differ")
      else if isBasicKind (tr_Kind a) then
        if negb (String.eqb (tr_Name a) (tr_Name b)) then Err "types must be identical"
        else Ok (TypeRef (tr_Kind a) (tr_Name a) None)
      else if String.eqb (tr_Kind a) "LIST" then
        match mergeTypeRefs (tr_OfType a) (tr_OfType b) isInput with
        | Ok inner => Ok (ListOf inner)
        | Err e => Err e
        | Panic => Panic
        end
      else Err "unknown type kind" }.
Proof.
  - unfold strip, isNonNull in *.
    destruct a as [ka na [a'|]], b as [kb nb [b'|]]; simpl in *;
      destruct (String.eqb ka _), (String.eqb kb _); simpl in *;
      try discriminate; lia.
  - destruct a as [ka na [a'|]], b as [kb nb [b'|]]; simpl; lia.
Qed.

(** ** Grouping by name, sorting the names, merging name by name

    The five collection mergers of the source share one loop: group both
    inputs by name in a map of slices, sort the map's keys, and walk the
    sorted names.  [key] is [x.Name]; it is [None] when [x] is a nil pointer. *)

Definition string_le (s1 s2 : string) : Prop := String.leb s1 s2 = true.

#[global] Instance string_le_dec s1 s2 : Decision (string_le s1 s2).
Proof. unfold string_le. apply _. Defined.

(** [sort.Strings] *)
Definition sortStrings (l : list string) : list string := merge_sort string_le l.

Section MergeByName.
Context {T : Type}.
Variable key : T → option string.

(** [for _, a := range a { types[a.Name] = append(types[a.Name], a) }] *)
Fixpoint group (l : list T) (types : gmap string (list T))
  : result (gmap string (list T)) :=
  match l with
  | [] => Ok types
  | a :: l =>
      match key a with
      | None => Panic
      | Some n => group l (<[n := (types !!! n) ++ [a]]> types)
      end
  end.

(** [for name := range types { names = append(names, name) }; sort.Strings(names)] *)
Definition sortedNames (types : gmap string (list T)) : list string :=
  sortStrings (map fst (map_to_list types)).

Variable single : string → T → result (list T).
Variable pair : string → T → T → result T.

(** One iteration of [for _, name := range names]: what is appended to
    [merged] for [name]. *)
Definition mergeEntry (types : gmap string (list T)) (name : string)
  : result (list T) :=
  match types !!! name with
  | [] => Panic
  | [p0] => single name p0
  | p0 :: p1 :: _ => m ← pair name p0 p1; Ok [m]
  end.

Fixpoint mergeLoop (types : gmap string (list T)) (names : list string)
    (merged : list T) : result (list T) :=
  match names with
  | [] => Ok merged
  | name :: names =>
      r ← mergeEntry types name;
      mergeLoop types names (merged ++ r)
  end.

Definition mergeByName (a b : list T) : result (list T) :=
  types ← group a ∅;
  types ← group b types;
  mergeLoop types (sortedNames types) [].
End MergeByName.

(** [if mode == Union { merged = append(merged, p[0]) }; continue] *)
Definition keepInUnion {T} (mode : MergeMode) (p0 : T) : list T :=
  if String.eqb mode Union then [p0] else [].

(** ** Schema merger *)

Definition if_key (x : introspectionInputField) : option string := Some (if_Name x).
Definition f_key (x : introspectionField) : option string := Some (f_Name x).
Definition ev_key (x : introspectionEnumValue) : option string := Some (ev_Name x).
Definition t_key (x : introspectionType) : option string := Some (t_Name x).
Definition pt_key (x : option introspectionTypeRef) : option string := tr_Name <$> x.

(** The two branches of the loop body that the collection mergers share:
    a name with one occurrence is kept in Union mode only. *)
Definition keepSingle {T} (mode : MergeMode) (name : string) (p0 : T) : result (list T) :=
  Ok (keepInUnion mode p0).

(** [merged = append(merged, p[0])] for a name with two occurrences. *)
Definition firstOfPair {T} (name : string) (p0 p1 : T) : result T := Ok p0.

Definition inputFieldSingle (mode : MergeMode) (name : string)
    (p0 : introspectionInputField) : result (list introspectionInputField) :=
  match if_Type p0 with
  | None => Panic
  | Some t =>
      if String.eqb (tr_Kind t) "NON_NULL" then
        Err ("new field " +:+ name +:+ " is non-null: " +:+ TypeRef_String (if_Type p0))
      else Ok (keepInUnion mode p0)
  end.

Definition inputFieldPair (name : string) (p0 p1 : introspectionInputField)
  : result introspectionInputField :=
  m ← wrapErr (λ e, "field " +:+ name +:+ " has incompatible types " +:+
                     TypeRef_String (if_Type p0) +:+ " and " +:+
                     TypeRef_String (if_Type p1) +:+ ": " +:+ e)
        (mergeTypeRefs (if_Type p0) (if_Type p1) true);
  Ok (InputField name (Some m)).

Definition mergeInputFields (a b : list introspectionInputField) (mode : MergeMode)
  : result (list introspectionInputField) :=
  mergeByName if_key (inputFieldSingle mode) inputFieldPair a b.

Definition fieldPair (mode : MergeMode) (name : string) (p0 p1 : introspectionField)
  : result introspectionField :=
  typ ← wrapErr (λ e, "field " +:+ name +:+ " has incompatible types " +:+
                       fmt_Field p0 +:+ " and " +:+ fmt_Field p1 +:+ ": " +:+ e)
          (mergeTypeRefs (f_Type p0) (f_Type p1) false);
  args ← wrapErr (λ e, "field " +:+ name +:+ " has incompatible arguments: " +:+ e)
           (mergeInputFields (f_Args p0) (f_Args p1) mode);
  Ok (Field name (Some typ) args).

Definition mergeFields (a b : list introspectionField) (mode : MergeMode)
  : result (list introspectionField) :=
  mergeByName f_key (keepSingle mode) (fieldPair mode) a b.

Definition mergePossibleTypes (a b : list (option introspectionTypeRef)) (mode : MergeMode)
  : result (list (option introspectionTypeRef)) :=
  mergeByName pt_key (keepSingle mode) firstOfPair a b.

Definition mergeEnumValues (a b : list introspectionEnumValue) (mode : MergeMode)
  : result (list introspectionEnumValue) :=
  mergeByName ev_key (keepSingle mode) firstOfPair a b.

Definition mergeTypes (a b : introspectionType) (mode : MergeMode)
  : result introspectionType :=
  if negb (String.eqb (t_Kind a) (t_Kind b)) then
    Err ("conflicting kinds " +:+ t_Kind a +:+ " and " +:+ t_Kind b)
  else
    let merged := IType (t_Name a) (t_Kind a) [] [] [] [] in
    if String.eqb (t_Kind a) "INPUT_OBJECT" then
      inputFields ← wrapErr (λ e, "merging input fields: " +:+ e)
                      (mergeInputFields (t_InputFields a) (t_InputFields b) mode);
      Ok (IType (t_Name a) (t_Kind a) [] inputFields [] [])
    else if String.eqb (t_Kind a) "OBJECT" then
      fields ← wrapErr (λ e, "merging fields: " +:+ e)
                 (mergeFields (t_Fields a) (t_Fields b) mode);
      Ok (IType (t_Name a) (t_Kind a) fields [] [] [])
    else if String.eqb (t_Kind a) "UNION" then
      possibleTypes ← wrapErr (λ e, "merging possible types: " +:+ e)
                        (mergePossibleTypes (t_PossibleTypes a) (t_PossibleTypes b) mode);
      Ok (IType (t_Name a) (t_Kind a) [] [] possibleTypes [])
    else if String.eqb (t_Kind a) "ENUM" then
      enumValues ← wrapErr (λ e, "merging enum values: " +:+ e)
                     (mergeEnumValues (t_EnumValues a) (t_EnumValues b) mode);
      Ok (IType (t_Name a) (t_Kind a) [] [] [] enumValues)
    else if String.eqb (t_Kind a) "SCALAR" then
      Ok merged
    else
      Err ("unknown kind " +:+ t_Kind a).

Definition typePair (mode : MergeMode) (name : string) (p0 p1 : introspectionType)
  : result introspectionType :=
  wrapErr (λ e, "can't merge type " +:+ name +:+ ": " +:+ e) (mergeTypes p0 p1 mode).

Definition mergeSchemas (a b : option introspectionQueryResult) (mode : MergeMode)
  : result introspectionQueryResult :=
  match a, b with
  | Some a, Some b =>
      merged ← mergeByName t_key (keepSingle mode) (typePair mode)
                 (Types (Schema a)) (Types (Schema b));
      Ok (QueryResult (ISchema merged))
  | _, _ => Panic
  end.

(** [for _, schema := range schemas[1:] { merged, err = mergeSchemas(merged, schema, mode) ... }] *)
Fixpoint mergeSchemaSlice_loop (merged : option introspectionQueryResult)
    (rest : list (option introspectionQueryResult)) (mode : MergeMode)
  : result (option introspectionQueryResult) :=
  match rest with
  | [] => Ok merged
  | schema :: rest =>
      m ← mergeSchemas merged schema mode;
      mergeSchemaSlice_loop (Some m) rest mode
  end.

Definition mergeSchemaSlice (schemas : list (option introspectionQueryResult))
    (mode : MergeMode) : result (option introspectionQueryResult) :=
  match schemas with
  | [] => Err "no schemas"
  | first :: rest => mergeSchemaSlice_loop first rest mode
  end.

(** ** The merge loop seen on lists

    What [mergeByName] computes, without the map: the names are the distinct
    names of [a ++ b] in sorted order, and the slice [types[name]] holds the
    elements of [a ++ b] of that name, in order.  [FederationSpec] proves the
    two presentations equal. *)

Section ListView.
Context {T : Type}.
Variable key : T → option string.

Definition occ (n : string) (l : list T) : list T :=
  filter (λ x, key x = Some n) l.

Definition namesOf (l : list T) : list string :=
  sortStrings (remove_dups (omap key l)).

Variable single : string → T → result (list T).
Variable pair : string → T → T → result T.

Definition entryOf (l : list T) (name : string) : result (list T) :=
  match occ name l with
  | [] => Panic
  | [p0] => single name p0
  | p0 :: p1 :: _ => m ← pair name p0 p1; Ok [m]
  end.

Fixpoint mapConcat (f : string → result (list T)) (names : list string)
  : result (list T) :=
  match names with
  | [] => Ok []
  | name :: names =>
      r ← f name;
      rs ← mapConcat f names;
      Ok (r ++ rs)
  end.

Definition mergeByName_list (a b : list T) : result (list T) :=
  if forallb (λ x, bool_decide (is_Some (key x))) (a ++ b)
  then mapConcat (entryOf (a ++ b)) (namesOf (a ++ b))
  else Panic.
(** [types] holds exactly the elements of [l], grouped by name. *)
Definition grouped (l : list T) (types : gmap string (list T)) : Prop :=
  ∀ n, types !! n = match occ n l with [] => None | p => Some p end.

(** The callbacks keep the name: a merged pair carries the name it was
    merged under. *)
Definition pairKeepsName : Prop :=
  ∀ n x y m, key x = Some n → pair n x y = Ok m → key m = Some n.
End ListView.

(** ** Vocabulary of the statements *)

Definition isNonNullRef (a : option introspectionTypeRef) : bool :=
  match a with
  | Some a => isNonNull a
  | None => false
  end.

(** The nesting levels of a merge: below a NON_NULL wrapper of either side,
    and below a LIST of both sides.  A level is the two inputs of the
    recursive call together with the part of the result built from it. *)
Definition mergeLevel : Type :=
  option introspectionTypeRef * option introspectionTypeRef * introspectionTypeRef.

Inductive sublevel : mergeLevel → mergeLevel → Prop :=
| sublevel_nonnull a b r r' :
    isNonNull a || isNonNull b = true →
    tr_OfType r = Some r' →
    sublevel (Some a, Some b, r) (strip a, strip b, r')
| sublevel_list a b r r' :
    isNonNull a || isNonNull b = false →
    tr_Kind a = "LIST" →
    tr_OfType r = Some r' →
    sublevel (Some a, Some b, r) (tr_OfType a, tr_OfType b, r').

Definition mergesTo (isInput : bool) (l : mergeLevel) : Prop :=
  mergeTypeRefs l.1.1 l.1.2 isInput = Ok l.2.

(** [mergeSchemaSlice] as the specification words it: a left fold of
    [mergeSchemas] over the schemas after the first, starting from the first;
    the empty input fails. *)
Definition foldSchemas (mode : MergeMode)
    (acc : result (option introspectionQueryResult))
    (schema : option introspectionQueryResult)
  : result (option introspectionQueryResult) :=
  merged ← acc; m ← mergeSchemas merged schema mode; Ok (Some m).

Definition mergeSchemaSlice_fold (schemas : list (option introspectionQueryResult))
    (mode : MergeMode) : result (option introspectionQueryResult) :=
  match schemas with
  | [] => Err "no schemas"
  | first :: rest => fold_left (foldSchemas mode) rest (Ok first)
  end.



(** The names a type carries in each of its collections. *)
Definition fieldNames (t : introspectionType) : list string := f_Name <$> t_Fields t.
Definition inputFieldNames (t : introspectionType) : list string := if_Name <$> t_InputFields t.
Definition enumValueNames (t : introspectionType) : list string := ev_Name <$> t_EnumValues t.
Definition possibleTypeNames (t : introspectionType) : list string :=
  omap pt_key (t_PossibleTypes t).
Definition argNames (f : introspectionField) : list string := if_Name <$> f_Args f.
Definition typeNames (s : introspectionQueryResult) : list string :=
  t_Name <$> Types (Schema s).

(** No name is repeated within one list: the collections of a type, the
    arguments of a field, the types of a schema. *)
Definition uniqueFieldNames (t : introspectionType) : Prop :=
  NoDup (fieldNames t) ∧
  Forall (λ f, NoDup (argNames f)) (t_Fields t) ∧
  NoDup (inputFieldNames t) ∧
  NoDup (possibleTypeNames t) ∧
  NoDup (enumValueNames t).

Definition uniqueTypeNames (s : introspectionQueryResult) : Prop :=
  NoDup (typeNames s).

Definition uniqueNames (s : introspectionQueryResult) : Prop :=
  uniqueTypeNames s ∧ Forall uniqueFieldNames (Types (Schema s)).

#[global] Instance uniqueFieldNames_dec t : Decision (uniqueFieldNames t).
Proof. unfold uniqueFieldNames. apply _. Defined.

#[global] Instance uniqueTypeNames_dec s : Decision (uniqueTypeNames s).
Proof. unfold uniqueTypeNames. apply _. Defined.

#[global] Instance uniqueNames_dec s : Decision (uniqueNames s).
Proof. unfold uniqueNames. apply _. Defined.

(** Every name that [t] carries, [u] carries in the same collection; for a
    field, the same holds of its argument names. *)
Definition namesWithin (t u : introspectionType) : Prop :=
  (∀ f, f ∈ t_Fields t →
     ∃ g, g ∈ t_Fields u ∧ f_Name g = f_Name f ∧ argNames f ⊆ argNames g) ∧
  inputFieldNames t ⊆ inputFieldNames u ∧
  enumValueNames t ⊆ enumValueNames u ∧
  possibleTypeNames t ⊆ possibleTypeNames u.

(** The names of the collection that the kind of [t] selects are carried by
    [u]. *)
Definition selectedNamesWithin (t u : introspectionType) : Prop :=
  (t_Kind t = "OBJECT" → fieldNames t ⊆ fieldNames u) ∧
  (t_Kind t = "INPUT_OBJECT" → inputFieldNames t ⊆ inputFieldNames u) ∧
  (t_Kind t = "ENUM" → enumValueNames t ⊆ enumValueNames u) ∧
  (t_Kind t = "UNION" → possibleTypeNames t ⊆ possibleTypeNames u).

(** Two merged types have the same shape: name, kind, fields with their
    merged type references and arguments, input fields, enum values, and the
    names of the possible types. *)
Definition sameShape (t u : introspectionType) : Prop :=
  t_Name t = t_Name u ∧ t_Kind t = t_Kind u ∧
  t_Fields t = t_Fields u ∧ t_InputFields t = t_InputFields u ∧
  t_EnumValues t = t_EnumValues u ∧
  possibleTypeNames t = possibleTypeNames u.

(** Builders for concrete schemas. *)
Definition scalar (n : string) := TypeRef "SCALAR" n None.
Definition object (n : string) (fs : list introspectionField) := IType n "OBJECT" fs [] [] [].
Definition schemaOf (ts : list introspectionType) := Some (QueryResult (ISchema ts)).


(** ** Vocabulary for the further properties of the merger *)

(** What is left of a type reference once its NON_NULL wrappers are taken
    off: a named type of a basic kind below some levels of LIST.  A
    reference with a nil inner reference or a kind outside the seven known
    ones has no shape. *)
Inductive refShape : Type :=
| NamedShape (kind name : string)
| ListShape (inner : refShape).

Fixpoint shapeOf (t : introspectionTypeRef) : option refShape :=
  let inner := match tr_OfType t with
               | None => None
               | Some u => shapeOf u
               end in
  if isNonNull t then inner
  else if isBasicKind (tr_Kind t) then Some (NamedShape (tr_Kind t) (tr_Name t))
  else if String.eqb (tr_Kind t) "LIST" then ListShape <$> inner
  else None.

Definition shapeOfRef (t : option introspectionTypeRef) : option refShape :=
  t ≫= shapeOf.

(** The form in which introspection delivers a reference: a wrapper has no
    name and an inner reference, a named type has no inner reference. *)
Fixpoint canonical (t : introspectionTypeRef) : bool :=
  match tr_OfType t with
  | None => isBasicKind (tr_Kind t)
  | Some u =>
      (isNonNull t || String.eqb (tr_Kind t) "LIST") && String.eqb (tr_Name t) "" &&
      canonical u
  end.

(** Two outcomes fail alike: both succeed, or both return the same error,
    or both panic. *)
Definition sameFailure {A B} (r1 : result A) (r2 : result B) : Prop :=
  match r1, r2 with
  | Ok _, Ok _ => True
  | Err e1, Err e2 => e1 = e2
  | Panic, Panic => True
  | _, _ => False
  end.

(** The names of a merged collection, read off the names of the two inputs
    taken together: the distinct names in sorted order, and outside Union
    mode only those that occur at least twice. *)
Definition occurrences (n : string) (names : list string) : nat :=
  List.length (filter (λ m, m = n) names).

Definition mergedNames (mode : MergeMode) (names : list string) : list string :=
  filter (λ n, String.eqb mode Union = true ∨ (2 ≤ occurrences n names)%nat)
         (sortStrings (remove_dups names)).

(** ** The realized schema

    Modelled from the spec: the concrete types of package [graphql], which
    is not among the sources: an object shell with its fields, an
    input-object shell with its input fields, a scalar, a union shell with
    its member objects, an enum with its values and reverse map, and the
    LIST and NON_NULL wrappers.

    [parseSchema] stores one pointer to a shell per type name in [all] and
    never re-assigns an entry, so a pointer to a shell is modelled by the
    key of [all] it is stored under, and writing through the pointer by
    updating that entry.  A [map] that is still nil reads as the empty
    map. *)
Inductive gqlType : Type :=
| NamedType (name : string)
| ListType (inner : gqlType)
| NonNullType (inner : gqlType).

Record gqlField : Type :=
  GField { gf_Args : gmap string gqlType; gf_Type : gqlType }.

Inductive gqlShell : Type :=
| GObject (Name : string) (Fields : gmap string gqlField)
| GInputObject (Name : string) (InputFields : gmap string gqlType)
| GScalar (Type_ : string)
| GUnion (Name : string) (Types_ : gmap string string)
| GEnum (Type_ : string) (Values : list string) (ReverseMap : gmap string string).

Abbreviation typeMap := (gmap string gqlShell).

(** [lookupTypeRef] on a non-nil reference. *)
Fixpoint lookupTypeRef_at (t : introspectionTypeRef) (all : typeMap) : result gqlType :=
  let inner := match tr_OfType t with
               | None => Err "malformed typeref"
               | Some u => lookupTypeRef_at u all
               end in
  if existsb (String.eqb (tr_Kind t)) ["SCALAR"; "OBJECT"; "UNION"; "INPUT_OBJECT"; "ENUM"] then
    match all !! tr_Name t with
    | Some _ => Ok (NamedType (tr_Name t))
    | None => Err ("type " +:+ tr_Name t +:+ " not found among top-level types")
    end
  else if String.eqb (tr_Kind t) "LIST" then
    inner ← inner; Ok (ListType inner)
  else if String.eqb (tr_Kind t) "NON_NULL" then
    inner ← inner; Ok (NonNullType inner)
  else Err ("unknown type kind " +:+ tr_Kind t).

Definition lookupTypeRef (t : option introspectionTypeRef) (all : typeMap) : result gqlType :=
  match t with
  | None => Err "malformed typeref"
  | Some t => lookupTypeRef_at t all
  end.

(** [for _, field := range source { ...; fields[field.Name] = here }] *)
Fixpoint parseInputFields_loop (source : list introspectionInputField) (all : typeMap)
    (fields : gmap string gqlType) : result (gmap string gqlType) :=
  match source with
  | [] => Ok fields
  | field :: source =>
      here ← wrapErr (λ e, "field " +:+ if_Name field +:+ " has bad typ: " +:+ e)
               (lookupTypeRef (if_Type field) all);
      parseInputFields_loop source all (<[if_Name field := here]> fields)
  end.

Definition parseInputFields (source : list introspectionInputField) (all : typeMap)
  : result (gmap string gqlType) :=
  parseInputFields_loop source all ∅.

(** The shell that the first loop of [parseSchema] creates for a type, by
    its kind; [None] in the default case. *)
Definition shellOf (typ : introspectionType) : option gqlShell :=
  if String.eqb (t_Kind typ) "OBJECT" then Some (GObject (t_Name typ) ∅)
  else if String.eqb (t_Kind typ) "INPUT_OBJECT" then Some (GInputObject (t_Name typ) ∅)
  else if String.eqb (t_Kind typ) "SCALAR" then Some (GScalar (t_Name typ))
  else if String.eqb (t_Kind typ) "UNION" then Some (GUnion (t_Name typ) ∅)
  else if String.eqb (t_Kind typ) "ENUM" then Some (GEnum (t_Name typ) [] ∅)
  else None.

(** The first loop of [parseSchema]. *)
Fixpoint declareTypes (types : list introspectionType) (all : typeMap) : result typeMap :=
  match types with
  | [] => Ok all
  | typ :: types =>
      match all !! t_Name typ with
      | Some _ => Err ("duplicate type " +:+ t_Name typ)
      | None =>
          match shellOf typ with
          | Some shell => declareTypes types (<[t_Name typ := shell]> all)
          | None => Err ("unknown type kind " +:+ t_Kind typ)
          end
      end
  end.

(** [for _, field := range typ.Fields { ... fields[field.Name] = &graphql.Field{...} }] *)
Fixpoint wireFields (typName : string) (source : list introspectionField) (all : typeMap)
    (fields : gmap string gqlField) : result (gmap string gqlField) :=
  match source with
  | [] => Ok fields
  | field :: source =>
      fieldTyp ← wrapErr (λ e, "typ " +:+ typName +:+ " field " +:+ f_Name field +:+
                                " has bad typ: " +:+ e)
                   (lookupTypeRef (f_Type field) all);
      parsed ← wrapErr (λ e, "field " +:+ f_Name field +:+ " input: " +:+ e)
                 (parseInputFields (f_Args field) all);
      wireFields typName source all (<[f_Name field := GField parsed fieldTyp]> fields)
  end.

(** [for _, other := range typ.PossibleTypes { ... types[typ.Name] = typ }].
    When the member is not an object, the error message reads the name of
    the nil object pointer that the failed type assertion returned. *)
Fixpoint wirePossibleTypes (typName : string) (source : list (option introspectionTypeRef))
    (all : typeMap) (types : gmap string string) : result (gmap string string) :=
  match source with
  | [] => Ok types
  | None :: _ => Panic
  | Some other :: source =>
      if negb (String.eqb (tr_Kind other) "OBJECT") then
        Err ("typ " +:+ typName +:+ " has possible typ not OBJECT: " +:+ ref_String other)
      else
        match all !! tr_Name other with
        | Some (GObject name _) =>
            wirePossibleTypes typName source all (<[name := tr_Name other]> types)
        | _ => Panic
        end
  end.

(** One iteration of the second loop of [parseSchema]. *)
Definition wireType (typ : introspectionType) (all : typeMap) : result typeMap :=
  if String.eqb (t_Kind typ) "OBJECT" then
    fields ← wireFields (t_Name typ) (t_Fields typ) all ∅;
    match all !! t_Name typ with
    | Some (GObject name _) => Ok (<[t_Name typ := GObject name fields]> all)
    | _ => Panic
    end
  else if String.eqb (t_Kind typ) "INPUT_OBJECT" then
    parsed ← wrapErr (λ e, "typ " +:+ t_Name typ +:+ ": " +:+ e)
               (parseInputFields (t_InputFields typ) all);
    match all !! t_Name typ with
    | Some (GInputObject name _) => Ok (<[t_Name typ := GInputObject name parsed]> all)
    | _ => Panic
    end
  else if String.eqb (t_Kind typ) "UNION" then
    types ← wirePossibleTypes (t_Name typ) (t_PossibleTypes typ) all ∅;
    match all !! t_Name typ with
    | Some (GUnion name _) => Ok (<[t_Name typ := GUnion name types]> all)
    | _ => Panic
    end
  else if String.eqb (t_Kind typ) "ENUM" then
    let values := ev_Name <$> t_EnumValues typ in
    let reverseMap := list_to_map ((λ v, (v, v)) <$> values) in
    match all !! t_Name typ with
    | Some (GEnum name _ _) => Ok (<[t_Name typ := GEnum name values reverseMap]> all)
    | _ => Panic
    end
  else if String.eqb (t_Kind typ) "SCALAR" then Ok all
  else Err ("unknown type kind " +:+ t_Kind typ).

(** The second loop of [parseSchema]. *)
Fixpoint wireTypes (types : list introspectionType) (all : typeMap) : result typeMap :=
  match types with
  | [] => Ok all
  | typ :: types => all ← wireType typ all; wireTypes types all
  end.

Definition parseSchema (schema : option introspectionQueryResult) : result typeMap :=
  match schema with
  | None => Panic
  | Some schema =>
      all ← declareTypes (Types (Schema schema)) ∅;
      wireTypes (Types (Schema schema)) all
  end.

(** ** Vocabulary for the realized schema *)

(** The named type at the bottom of a shape, and of a realized type. *)
Fixpoint baseName (s : refShape) : string :=
  match s with
  | NamedShape _ name => name
  | ListShape inner => baseName inner
  end.

Fixpoint baseOf (t : gqlType) : string :=
  match t with
  | NamedType name => name
  | ListType inner => baseOf inner
  | NonNullType inner => baseOf inner
  end.

(** A realized type with its NON_NULL wrappers taken off. *)
Fixpoint nullable (t : gqlType) : gqlType :=
  match t with
  | NamedType name => NamedType name
  | ListType inner => ListType (nullable inner)
  | NonNullType inner => nullable inner
  end.

(** The realized type of a shape: the LIST levels around the name. *)
Fixpoint typeOfShape (s : refShape) : gqlType :=
  match s with
  | NamedShape _ name => NamedType name
  | ListShape inner => ListType (typeOfShape inner)
  end.

Definition isObject (all : typeMap) (name : string) : Prop :=
  ∃ n fields, all !! name = Some (GObject n fields).

(** Every type that a shell mentions is a top-level type, and the members
    of a union are object shells, stored under their own name. *)
Definition resolves (all : typeMap) (t : gqlType) : Prop := is_Some (all !! baseOf t).

Definition closedShell (all : typeMap) (shell : gqlShell) : Prop :=
  match shell with
  | GObject _ fields =>
      ∀ f fld, fields !! f = Some fld →
        resolves all (gf_Type fld) ∧ ∀ a ty, gf_Args fld !! a = Some ty → resolves all ty
  | GInputObject _ inputFields => ∀ f ty, inputFields !! f = Some ty → resolves all ty
  | GUnion _ types => ∀ k p, types !! k = Some p → ∃ fields, all !! p = Some (GObject k fields)
  | GScalar _ | GEnum _ _ _ => True
  end.

(** The name a shell carries and the kind it was created for. *)
Definition shellName (shell : gqlShell) : string :=
  match shell with
  | GObject n _ | GInputObject n _ | GScalar n | GUnion n _ | GEnum n _ _ => n
  end.

Definition shellKind (shell : gqlShell) : string :=
  match shell with
  | GObject _ _ => "OBJECT"
  | GInputObject _ _ => "INPUT_OBJECT"
  | GScalar _ => "SCALAR"
  | GUnion _ _ => "UNION"
  | GEnum _ _ _ => "ENUM"
  end.

(** The loops of [parseInputFields] and of the OBJECT case share one shape:
    compute a value for each element and store it under the element's name,
    returning the first failure. *)
Section InsertLoop.
Context {T V : Type}.
Variable name : T → string.
Variable value : T → result V.

Fixpoint insertLoop (source : list T) (acc : gmap string V) : result (gmap string V) :=
  match source with
  | [] => Ok acc
  | x :: source => v ← value x; insertLoop source (<[name x := v]> acc)
  end.

(** The elements of [source] stored under [n]. *)
Definition named (n : string) (source : list T) : list T :=
  filter (λ x, name x = n) source.
End InsertLoop.

(** The value stored for an input field and for a field. *)
Definition inputFieldValue (all : typeMap) (field : introspectionInputField) : result gqlType :=
  wrapErr (λ e, "field " +:+ if_Name field +:+ " has bad typ: " +:+ e)
    (lookupTypeRef (if_Type field) all).

Definition fieldValue (typName : string) (all : typeMap) (field : introspectionField)
  : result gqlField :=
  fieldTyp ← wrapErr (λ e, "typ " +:+ typName +:+ " field " +:+ f_Name field +:+
                            " has bad typ: " +:+ e)
               (lookupTypeRef (f_Type field) all);
  parsed ← wrapErr (λ e, "field " +:+ f_Name field +:+ " input: " +:+ e)
             (parseInputFields (f_Args field) all);
  Ok (GField parsed fieldTyp).

(** Two type maps with the same skeleton: the same names, each with a
    shell of the same kind carrying the same name. *)
Definition skeleton (shell : gqlShell) : string * string := (shellKind shell, shellName shell).

Definition sameSkeleton (all all' : typeMap) : Prop :=
  ∀ n, skeleton <$> all !! n = skeleton <$> all' !! n.

Definition knownKind (typ : introspectionType) : Prop := isBasicKind (t_Kind typ) = true.

(** ** Realizable schemas

    What [parseSchema] asks of a schema, said on the schema itself: no type
    name is repeated, every kind is one of the five known ones, every
    reference of a field, an argument or an input field has a shape whose
    named type is a type of the schema, and every member of a union is a
    reference of kind OBJECT to an object type of the schema.  Only the
    collection that the kind of a type selects is looked at. *)
Definition refResolves (names : list string) (t : option introspectionTypeRef) : Prop :=
  ∃ s, shapeOfRef t = Some s ∧ baseName s ∈ names.

Definition fieldResolves (names : list string) (f : introspectionField) : Prop :=
  refResolves names (f_Type f) ∧ Forall (λ i, refResolves names (if_Type i)) (f_Args f).

Definition memberResolves (objects : list string) (o : option introspectionTypeRef) : Prop :=
  ∃ other, o = Some other ∧ tr_Kind other = "OBJECT" ∧ tr_Name other ∈ objects.

Definition objectNames (s : introspectionQueryResult) : list string :=
  t_Name <$> filter (λ t, t_Kind t = "OBJECT") (Types (Schema s)).

Definition typeResolves (names objects : list string) (t : introspectionType) : Prop :=
  (t_Kind t = "OBJECT" → Forall (fieldResolves names) (t_Fields t)) ∧
  (t_Kind t = "INPUT_OBJECT" → Forall (λ i, refResolves names (if_Type i)) (t_InputFields t)) ∧
  (t_Kind t = "UNION" → Forall (memberResolves objects) (t_PossibleTypes t)).

Definition realizable (s : introspectionQueryResult) : Prop :=
  NoDup (typeNames s) ∧ Forall knownKind (Types (Schema s)) ∧
  Forall (typeResolves (typeNames s) (objectNames s)) (Types (Schema s)).

(** ** Conversion of the service schemas

    Modelled from the spec: [graphql.Schema], the two root types of a
    realized schema ([graphql] is not among the sources).

    The OBJECT case of [parseSchema] allocates one [graphql.Field] for each
    entry of a [Fields] map, so a pointer to a field is modelled by the key
    of the object in the type map together with the key of the field in the
    object's [Fields]; [None] is the nil pointer.  The result carries the
    type map that its pointers point into. *)
Record gqlSchema : Type :=
  GSchema { Query : option gqlType; Mutation : option gqlType }.

Definition fieldPtr : Type := option (string * string).

#[global] Instance fieldPtr_eq_dec : EqDecision fieldPtr.
Proof. unfold fieldPtr. apply _. Defined.

#[global] Instance fieldPtr_countable : Countable fieldPtr.
Proof. unfold fieldPtr. apply _. Defined.

(** [serviceSchemas]: service name, then version, to schema. *)
Abbreviation serviceSchemas := (gmap string (gmap string (option introspectionQueryResult))).

Record FieldInfo : Type :=
  MkFieldInfo { Service : string; Services : gmap string bool }.

Record SchemaWithFederationInfo : Type :=
  MkSchemaWithFederationInfo {
    sw_Schema : gqlSchema;
    sw_Fields : gmap fieldPtr FieldInfo;
    sw_types : typeMap }.

(** [for k := range m { names = append(names, k) }; sort.Strings(names)] *)
Definition sortedKeys {V} (m : gmap string V) : list string :=
  sortStrings (map fst (map_to_list m)).

(** The schemas of the versions of one service, in the order of the sorted
    version names. *)
Definition versionSchemas (versions : gmap string (option introspectionQueryResult))
  : list (option introspectionQueryResult) :=
  (λ version, default None (versions !! version)) <$> sortedKeys versions.

(** The first loop of [convertVersionedSchemas]: the Intersection merge of
    the versions of each service, kept by service name and in a slice. *)
Fixpoint mergeServices (schemas : serviceSchemas) (serviceNames : list string)
    (byName : gmap string (option introspectionQueryResult))
    (slice : list (option introspectionQueryResult))
  : result (gmap string (option introspectionQueryResult) *
            list (option introspectionQueryResult)) :=
  match serviceNames with
  | [] => Ok (byName, slice)
  | service :: serviceNames =>
      let versions := default ∅ (schemas !! service) in
      serviceSchema ← mergeSchemaSlice (versionSchemas versions) Intersection;
      mergeServices schemas serviceNames (<[service := serviceSchema]> byName)
        (slice ++ [serviceSchema])
  end.

(** [f := obj.Fields[field.Name]] *)
Definition fieldPtrOf (fields : gmap string gqlField) (typName fieldName : string) : fieldPtr :=
  match fields !! fieldName with
  | Some _ => Some (typName, fieldName)
  | None => None
  end.

(** The body of the innermost loop: create the record of [f] if there is
    none, and add the service to it. *)
Definition addService (service : string) (fieldInfos : gmap fieldPtr FieldInfo) (f : fieldPtr)
  : gmap fieldPtr FieldInfo :=
  let info := match fieldInfos !! f with
              | Some info => info
              | None => MkFieldInfo service ∅
              end in
  <[f := MkFieldInfo (Service info) (<[service := true]> (Services info))]> fieldInfos.

Definition annotateType (service : string) (types : typeMap) (typ : introspectionType)
    (fieldInfos : gmap fieldPtr FieldInfo) : result (gmap fieldPtr FieldInfo) :=
  if String.eqb (t_Kind typ) "OBJECT" then
    match types !! t_Name typ with
    | Some (GObject _ fields) =>
        Ok (foldl (λ infos field,
                     addService service infos (fieldPtrOf fields (t_Name typ) (f_Name field)))
                  fieldInfos (t_Fields typ))
    | _ => Panic
    end
  else Ok fieldInfos.

Fixpoint annotateTypes (service : string) (types : typeMap) (typs : list introspectionType)
    (fieldInfos : gmap fieldPtr FieldInfo) : result (gmap fieldPtr FieldInfo) :=
  match typs with
  | [] => Ok fieldInfos
  | typ :: typs =>
      fieldInfos ← annotateType service types typ fieldInfos;
      annotateTypes service types typs fieldInfos
  end.

(** The last loop of [convertVersionedSchemas]. *)
Fixpoint annotateServices (byName : gmap string (option introspectionQueryResult))
    (types : typeMap) (serviceNames : list string) (fieldInfos : gmap fieldPtr FieldInfo)
  : result (gmap fieldPtr FieldInfo) :=
  match serviceNames with
  | [] => Ok fieldInfos
  | service :: serviceNames =>
      match default None (byName !! service) with
      | None => Panic
      | Some schema =>
          fieldInfos ← annotateTypes service types (Types (Schema schema)) fieldInfos;
          annotateServices byName types serviceNames fieldInfos
      end
  end.

(** [types["Query"]], [types["Mutation"]] *)
Definition rootType (types : typeMap) (name : string) : option gqlType :=
  match types !! name with
  | Some _ => Some (NamedType name)
  | None => None
  end.

Definition convertVersionedSchemas (schemas : serviceSchemas)
  : result SchemaWithFederationInfo :=
  let serviceNames := sortedKeys schemas in
  merged ← mergeServices schemas serviceNames ∅ [];
  let serviceSchemasByName := merged.1 in
  merged ← mergeSchemaSlice merged.2 Union;
  types ← parseSchema merged;
  fieldInfos ← annotateServices serviceSchemasByName types serviceNames ∅;
  Ok (MkSchemaWithFederationInfo
        (GSchema (rootType types "Query") (rootType types "Mutation")) fieldInfos types).

Definition convertSchema (schemas : gmap string (option introspectionQueryResult))
  : result SchemaWithFederationInfo :=
  convertVersionedSchemas ((λ schema, {["" := schema]}) <$> schemas).

(** ** Vocabulary for the conversion *)

(** The schema of one service after the first loop. *)
Definition serviceSchema (schemas : serviceSchemas) (service : string)
  : result (option introspectionQueryResult) :=
  mergeSchemaSlice (versionSchemas (default ∅ (schemas !! service))) Intersection.

(** The schemas of a map in the order of its sorted keys. *)
Definition sortedValues (schemas : gmap string (option introspectionQueryResult))
  : list (option introspectionQueryResult) :=
  (λ service, default None (schemas !! service)) <$> sortedKeys schemas.

(** The field pointers that the last loop visits for one service schema,
    in order. *)
Definition typePtrs (types : typeMap) (typ : introspectionType) : list fieldPtr :=
  if String.eqb (t_Kind typ) "OBJECT" then
    match types !! t_Name typ with
    | Some (GObject _ fields) =>
        (λ field, fieldPtrOf fields (t_Name typ) (f_Name field)) <$> t_Fields typ
    | _ => []
    end
  else [].

Definition schemaPtrs (types : typeMap) (schema : introspectionQueryResult) : list fieldPtr :=
  concat (typePtrs types <$> Types (Schema schema)).

(** The service [service] has the field that [p] points to. *)
Definition owns (schemas : serviceSchemas) (types : typeMap) (p : fieldPtr)
    (service : string) : Prop :=
  match serviceSchema schemas service with
  | Ok (Some schema) => p ∈ schemaPtrs types schema
  | _ => False
  end.

#[global] Instance owns_dec schemas types p service : Decision (owns schemas types p service).
Proof. unfold owns. destruct (serviceSchema schemas service) as [[schema|]| |]; apply _. Defined.

(** The field pointers visited for the service [service], given the
    schemas kept by service name. *)
Definition servicePtrs (byName : gmap string (option introspectionQueryResult))
    (types : typeMap) (service : string) : list fieldPtr :=
  match default None (byName !! service) with
  | Some schema => schemaPtrs types schema
  | None => []
  end.

(** The last loop without its failures: for each service in order, add the
    service to the record of each of its field pointers. *)
Definition annotateAll (ptrsOf : string → list fieldPtr) (names : list string)
    (infos : gmap fieldPtr FieldInfo) : gmap fieldPtr FieldInfo :=
  foldl (λ infos service, foldl (addService service) infos (ptrsOf service)) infos names.

(** Every field of every OBJECT type of [s] is a field of an OBJECT type of
    the same name in [r]. *)
Definition covers (r s : introspectionQueryResult) : Prop :=
  ∀ t, t ∈ Types (Schema s) → t_Kind t = "OBJECT" →
    ∃ t', t' ∈ Types (Schema r) ∧ t_Name t' = t_Name t ∧ t_Kind t' = "OBJECT" ∧
      f_Name <$> t_Fields t ⊆ f_Name <$> t_Fields t'.

End Federation.

Module Reactive.

(** ** Data of the reactive engine

    Nodes live in a heap and are named by their address.  A goroutine
    started with [go] is a pending task; the scheduler picks tasks in any
    order.  The timer and cancellation wait at the head of [Rerunner.run] is
    the scheduler's choice of when to run the task and of which [select]
    case fires. *)

Definition nodeId := nat.

(** The [interface{}] keys and values of the cache; [None] is nil. *)
Definition Key := string.
Definition Value := option Z.

(** [time.Duration] and [time.Time], in nanoseconds. *)
Definition Duration := Z.
Definition Time := Z.
Definition Minute : Duration := 60000000000%Z.

(** Signed 64-bit wrap-around of [time.Duration] arithmetic. *)
Definition wrap64 (z : Z) : Z := ((z + 2 ^ 63) mod 2 ^ 64 - 2 ^ 63)%Z.

Inductive error : Type :=
| RetrySentinelError
| OtherError (msg : string).

#[global] Instance error_eq_dec : EqDecision error.
Proof. solve_decision. Defined.

(** The functions registered as handlers: the method value [r.run], and
    closures of user code. *)
Inductive handler : Type :=
| RerunnerRun
| UserFunc (id : nat).

#[global] Instance handler_eq_dec : EqDecision handler.
Proof. solve_decision. Defined.

Inductive task : Type :=
| GoCall (h : handler)
| GoRelease (n : nodeId)
| GoInvalidate (n : nodeId)
| GoStrobe (n : nodeId).

#[global] Instance task_eq_dec : EqDecision task.
Proof. solve_decision. Defined.

(** Modelled from the spec: the dependency node ([node.go] is not among the
    sources).  A node has outgoing edges to its dependents, an invalidated
    flag, a released flag, release handlers and invalidation handlers. *)
Record node : Type := Node {
  out : list nodeId;
  invalidated : bool;
  released : bool;
  releaseHandlers : list handler;
  invalidateHandlers : list handler }.

Definition emptyNode : node := Node [] false false [] [].

(** [lock]: the reference count and whether the mutex is held. *)
Record lock : Type := MkLock { ref : Z; held : bool }.

Record computation : Type := Computation { c_node : nodeId; c_value : Value }.

Record cache : Type := MkCache {
  locker : gmap Key lock;
  computations : gmap Key computation }.

(** The fields of [Rerunner] that [run] and [Stop] read and write;
    [cancelled] is the state of [r.ctx]. *)
Record Rerunner : Type := MkRerunner {
  cancelled : bool;
  minRerunInterval : Duration;
  retryDelay : Duration;
  r_computation : option computation;
  stop : bool;
  lastRun : Time }.

(** What a [context.Context] carries for this package: whether the cache is
    attached ([cacheKey]) and the current computation ([computationKey]). *)
Record context : Type := Ctx { ctx_cache : bool; ctx_computation : option nodeId }.

(** The whole state: the heap of nodes, the pending goroutines, the
    executor with its cache, one cell of user memory, and, as ghost state,
    the errors returned by the calls of [r.f] so far, newest first ([None]
    for a success). *)
Record State : Type := MkState {
  nodes : gmap nodeId node;
  nextNode : nodeId;
  tasks : list task;
  theCache : cache;
  rr : Rerunner;
  user : Z;
  trace : list (option error) }.

Definition setNodes (m : gmap nodeId node) (s : State) : State :=
  MkState m (nextNode s) (tasks s) (theCache s) (rr s) (user s) (trace s).
Definition setNextNode (n : nodeId) (s : State) : State :=
  MkState (nodes s) n (tasks s) (theCache s) (rr s) (user s) (trace s).
Definition setTasks (ts : list task) (s : State) : State :=
  MkState (nodes s) (nextNode s) ts (theCache s) (rr s) (user s) (trace s).
Definition setCache (c : cache) (s : State) : State :=
  MkState (nodes s) (nextNode s) (tasks s) c (rr s) (user s) (trace s).
Definition setRR (r : Rerunner) (s : State) : State :=
  MkState (nodes s) (nextNode s) (tasks s) (theCache s) r (user s) (trace s).
Definition setUser (u : Z) (s : State) : State :=
  MkState (nodes s) (nextNode s) (tasks s) (theCache s) (rr s) u (trace s).
Definition setTrace (t : list (option error)) (s : State) : State :=
  MkState (nodes s) (nextNode s) (tasks s) (theCache s) (rr s) (user s) t.

(** ** The monad of the package's code

    State passing; [None] is a call that does not return: it blocks forever
    on a mutex or panics. *)
Definition M (A : Type) : Type := State → option (A * State).

Definition ret {A} (a : A) : M A := λ s, Some (a, s).
Definition bind {A B} (m : M A) (k : A → M B) : M B :=
  λ s, match m s with
       | Some (a, s') => k a s'
       | None => None
       end.
Definition stuck {A} : M A := λ _, None.
Definition gets {A} (proj : State → A) : M A := λ s, Some (proj s, s).
Definition modify (upd : State → State) : M unit := λ s, Some (tt, upd s).

Declare Scope go_scope.
Delimit Scope go_scope with go.
Notation "x <- m ;; k" := (bind m (λ x, k))
  (at level 100, m at next level, right associativity) : go_scope.
Notation "m ;; k" := (bind m (λ _, k))
  (at level 100, right associativity) : go_scope.
Open Scope go_scope.

(** [go t] *)
Definition spawn (t : task) : M unit := modify (λ s, setTasks (tasks s ++ [t]) s).
Definition spawnAll (ts : list task) : M unit := modify (λ s, setTasks (tasks s ++ ts) s).

(** ** Nodes *)

Definition getNode (n : nodeId) : M node := λ s,
  match nodes s !! n with
  | Some nd => Some (nd, s)
  | None => None
  end.

Definition setNode (n : nodeId) (nd : node) : M unit :=
  modify (λ s, setNodes (<[n := nd]> (nodes s)) s).

(** [&node{...}]: a fresh address. *)
Definition newNode (nd : node) : M nodeId := λ s,
  let n := nextNode s in
  Some (n, setNextNode (S n) (setNodes (<[n := nd]> (nodes s)) s)).

(** Modelled from the spec: [addOut] records [target] as a dependent; if
    the node is already invalidated, [target] is invalidated promptly; if it
    is already released, the release of [target] is scheduled; an edge that
    exists is not added again. *)
Definition addOut (n target : nodeId) : M unit :=
  nd <- getNode n;;
  (if invalidated nd then spawn (GoInvalidate target) else ret tt);;
  (if released nd then spawn (GoRelease target) else ret tt);;
  if bool_decide (target ∈ out nd) then ret tt
  else setNode n (Node (out nd ++ [target]) (invalidated nd) (released nd)
                       (releaseHandlers nd) (invalidateHandlers nd)).

(** Modelled from the spec: [invalidate] sets the flag, runs the pending
    invalidation handlers once, each on a fresh task, and forwards the
    invalidation to every dependent; a second call does nothing. *)
Definition invalidate (n : nodeId) : M unit :=
  nd <- getNode n;;
  if invalidated nd then ret tt
  else
    setNode n (Node (out nd) true (released nd) (releaseHandlers nd) []);;
    spawnAll (GoCall <$> invalidateHandlers nd);;
    spawnAll (GoInvalidate <$> out nd).

(** Modelled from the spec: [strobe] forwards the invalidation to the
    current dependents and leaves the node's own flag alone. *)
Definition strobe (n : nodeId) : M unit :=
  nd <- getNode n;;
  spawnAll (GoInvalidate <$> out nd).

(** Modelled from the spec: [release] marks the node released, runs the
    release handlers if the node is invalidated, and forwards the release to
    the dependents; a second call does nothing. *)
Definition release (n : nodeId) : M unit :=
  nd <- getNode n;;
  if released nd then ret tt
  else if invalidated nd then
    setNode n (Node (out nd) true true [] (invalidateHandlers nd));;
    spawnAll (GoCall <$> releaseHandlers nd);;
    spawnAll (GoRelease <$> out nd)
  else
    setNode n (Node (out nd) false true (releaseHandlers nd) (invalidateHandlers nd));;
    spawnAll (GoRelease <$> out nd).

(** Modelled from the spec: [handleInvalidate] registers a one-shot
    handler, or runs it at once on a fresh task when the node is already
    invalidated. *)
Definition handleInvalidate (n : nodeId) (h : handler) : M unit :=
  nd <- getNode n;;
  if invalidated nd then spawn (GoCall h)
  else setNode n (Node (out nd) (invalidated nd) (released nd) (releaseHandlers nd)
                       (invalidateHandlers nd ++ [h])).

(** Modelled from the spec: [handleRelease], likewise for release. *)
Definition handleRelease (n : nodeId) (h : handler) : M unit :=
  nd <- getNode n;;
  if released nd && invalidated nd then spawn (GoCall h)
  else setNode n (Node (out nd) (invalidated nd) (released nd) (releaseHandlers nd ++ [h])
                       (invalidateHandlers nd)).

(** Modelled from the spec: [Invalidated] reads the flag. *)
Definition Invalidated (n : nodeId) : M bool :=
  nd <- getNode n;; ret (invalidated nd).

(** ** The keyed lock table *)

Definition getLocker : M (gmap Key lock) := gets (λ s, locker (theCache s)).
Definition setLocker (l : gmap Key lock) : M unit :=
  modify (λ s, setCache (MkCache l (computations (theCache s))) s).

(** [locker.Lock]: allocate the entry if needed, count the reference, take
    the mutex.  Taking a held mutex does not return. *)
Definition locker_Lock (k : Key) : M unit :=
  l <- getLocker;;
  let m := default (MkLock 0%Z false) (l !! k) in
  if held m then stuck
  else setLocker (<[k := MkLock (ref m + 1)%Z true]> l).

(** [locker.Unlock]: release the mutex, drop the reference, delete the entry
    when the count reaches zero.  A missing entry is a nil dereference, an
    unheld mutex a fatal error. *)
Definition locker_Unlock (k : Key) : M unit :=
  l <- getLocker;;
  match l !! k with
  | None => stuck
  | Some m =>
      if negb (held m) then stuck
      else if (ref m - 1 =? 0)%Z then setLocker (delete k l)
      else setLocker (<[k := MkLock (ref m - 1)%Z false]> l)
  end.

(** ** The computation cache *)

Definition getComputations : M (gmap Key computation) :=
  gets (λ s, computations (theCache s)).
Definition setComputations (c : gmap Key computation) : M unit :=
  modify (λ s, setCache (MkCache (locker (theCache s)) c) s).

Definition cache_get (key : Key) : M (option computation) :=
  c <- getComputations;; ret (c !! key).

Definition cache_set (key : Key) (computation : computation) : M unit :=
  c <- getComputations;;
  match c !! key with
  | None => setComputations (<[key := computation]> c)
  | Some _ => ret tt
  end.

Definition nodeInvalidated (s : State) (n : nodeId) : bool :=
  match nodes s !! n with
  | Some nd => invalidated nd
  | None => false
  end.

Definition cleanInvalidated : M unit :=
  modify (λ s, setCache
    (MkCache (locker (theCache s))
       (filter (λ kc, nodeInvalidated s (c_node kc.2) = false) (computations (theCache s)))) s).

(** ** Resources and the context helpers *)

Definition Resource := nodeId.

Definition NewResource : M Resource := newNode emptyNode.
Definition Resource_Invalidate (r : Resource) : M unit := spawn (GoInvalidate r).
Definition Resource_Strobe (r : Resource) : M unit := spawn (GoStrobe r).
Definition Resource_Cleanup (r : Resource) (f : handler) : M unit := handleRelease r f.

Definition HasRerunner (ctx : context) : bool :=
  match ctx_computation ctx with
  | Some _ => true
  | None => false
  end.

Definition AddDependency (ctx : context) (r : Resource) : M unit :=
  match ctx_computation ctx with
  | None =>
      n <- newNode (Node [] false true [] []);;
      addOut r n
  | Some computation => addOut r computation
  end.

(** ** Running computations *)

Definition ComputeFunc : Type := context → M (Value * option error).

Definition run (ctx : context) (f : ComputeFunc) : M (option computation * option error) :=
  c <- newNode emptyNode;;
  let childCtx := Ctx (ctx_cache ctx) (Some c) in
  result <- f childCtx;;
  let '(value, err) := result in
  match err with
  | Some err =>
      spawn (GoRelease c);;
      ret (None, Some err)
  | None => ret (Some (Computation c value), None)
  end.

(** The part of [Cache] between [Lock] and the deferred [Unlock]. *)
Definition Cache_locked (ctx : context) (computation : nodeId) (key : Key) (f : ComputeFunc)
  : M (Value * option error) :=
  child <- cache_get key;;
  match child with
  | Some child =>
      addOut (c_node child) computation;;
      ret (c_value child, None)
  | None =>
      result <- run ctx f;;
      let '(child, err) := result in
      match err, child with
      | Some err, _ => ret (None, Some err)
      | None, Some child =>
          cache_set key child;;
          addOut (c_node child) computation;;
          ret (c_value child, None)
      | None, None => stuck
      end
  end.

Definition Cache (ctx : context) (key : Key) (f : ComputeFunc) : M (Value * option error) :=
  match ctx_computation ctx with
  | None => f ctx
  | Some computation =>
      if negb (ctx_cache ctx) then stuck
      else
        locker_Lock key;;
        r <- Cache_locked ctx computation key f;;
        locker_Unlock key;;
        ret r
  end.

(** ** The executor *)

Definition getRR : M Rerunner := gets rr.
Definition setRetryDelay (d : Duration) : M unit :=
  modify (λ s, let r := rr s in
    setRR (MkRerunner (cancelled r) (minRerunInterval r) d (r_computation r) (stop r) (lastRun r)) s).
Definition setComputation (c : option computation) : M unit :=
  modify (λ s, let r := rr s in
    setRR (MkRerunner (cancelled r) (minRerunInterval r) (retryDelay r) c (stop r) (lastRun r)) s).
Definition setLastRun (t : Time) : M unit :=
  modify (λ s, let r := rr s in
    setRR (MkRerunner (cancelled r) (minRerunInterval r) (retryDelay r) (r_computation r) (stop r) t) s).
Definition setStop (b : bool) : M unit :=
  modify (λ s, let r := rr s in
    setRR (MkRerunner (cancelled r) (minRerunInterval r) (retryDelay r) (r_computation r) b (lastRun r)) s).
Definition setCancelled (b : bool) : M unit :=
  modify (λ s, let r := rr s in
    setRR (MkRerunner b (minRerunInterval r) (retryDelay r) (r_computation r) (stop r) (lastRun r)) s).

(** Ghost: record what the call of [r.f] returned. *)
Definition logRun (err : option error) : M unit :=
  modify (λ s, setTrace (err :: trace s) s).

(** [NewRerunner]: the fresh executor with its first run scheduled. *)
Definition NewRerunner (minRerunInterval : Duration) : State :=
  MkState ∅ 0 [GoCall RerunnerRun] (MkCache ∅ ∅)
    (MkRerunner false minRerunInterval minRerunInterval None false 0%Z) 0%Z [].

(** Which case of the [select] at the head of [Rerunner.run] fires. *)
Inductive wake : Type :=
| CtxDone
| TimerFired.

(** [Rerunner.run], from the [select] on; [now] is the [time.Now()] read
    after the computation returns. *)
Definition Rerunner_run (f : ComputeFunc) (w : wake) (now : Time) : M unit :=
  match w with
  | CtxDone => ret tt
  | TimerFired =>
      r <- getRR;;
      if stop r then ret tt
      else
        cleanInvalidated;;
        let ctx := Ctx true None in
        result <- run ctx f;;
        let '(computation, err) := result in
        logRun err;;
        setLastRun now;;
        match err with
        | Some err =>
            if bool_decide (err = RetrySentinelError) then
              r <- getRR;;
              let doubled := wrap64 (retryDelay r * 2)%Z in
              setRetryDelay (if (Minute <? doubled)%Z then Minute else doubled);;
              spawn (GoCall RerunnerRun)
            else ret tt
        | None =>
            r <- getRR;;
            match r_computation r with
            | Some old => spawn (GoRelease (c_node old));; setComputation None
            | None => ret tt
            end;;
            setComputation computation;;
            r <- getRR;;
            setRetryDelay (minRerunInterval r);;
            match computation with
            | Some c => handleInvalidate (c_node c) RerunnerRun
            | None => stuck
            end
        end
  end.

(** [Stop], in its two parts: [r.cancelCtx()], then the locked section.
    [r.mu] is not modelled: a run is one step of the system, so the locked
    section never finds the mutex held.  In the source [Stop] waits at
    [r.mu.Lock()] for as long as a run is in progress; what is proved about
    [Stop] concerns the states in which it has returned. *)
Definition Stop_cancel : M unit := setCancelled true.

Definition Stop_locked : M unit :=
  setStop true;;
  r <- getRR;;
  match r_computation r with
  | Some c => spawn (GoRelease (c_node c));; setComputation None
  | None => ret tt
  end.

Definition Stop : M unit := Stop_cancel;; Stop_locked.

(** ** The scheduler *)

Definition execTask (f : ComputeFunc) (w : wake) (now : Time) (t : task) : M unit :=
  match t with
  | GoCall RerunnerRun => Rerunner_run f w now
  | GoCall (UserFunc _) => ret tt
  | GoRelease n => release n
  | GoInvalidate n => invalidate n
  | GoStrobe n => strobe n
  end.

(** The pending starts of [r.run]: goroutines not yet run, and handlers not
    yet fired. *)
Definition countRun (hs : list handler) : nat :=
  List.length (filter (λ h, h = RerunnerRun) hs).

Definition nodeTokens (nd : node) : nat :=
  countRun (releaseHandlers nd) + countRun (invalidateHandlers nd).

Definition taskTokens (ts : list task) : nat :=
  List.length (filter (λ t, t = GoCall RerunnerRun) ts).

Definition heapTokens (m : gmap nodeId node) : nat :=
  map_fold (λ _ nd acc, nodeTokens nd + acc)%nat 0%nat m.

Definition rerunTokens (s : State) : nat :=
  (taskTokens (tasks s) + heapTokens (nodes s))%nat.

Arguments countRun : simpl never.
Arguments taskTokens : simpl never.
Arguments heapTokens : simpl never.

(** User code cannot name [r.run], the executor's fields or the ghost
    trace: whatever it does, it starts no run and leaves those alone. *)
Definition userCode {A} (g : M A) : Prop :=
  ∀ s a s', g s = Some (a, s') →
    (rerunTokens s' ≤ rerunTokens s)%nat ∧ rr s' = rr s ∧ trace s' = trace s.

Definition userFunc (f : ComputeFunc) : Prop := ∀ ctx, userCode (f ctx).

(** One step of the system: a pending goroutine runs (a user handler runs
    as user code), user code runs on its own goroutine, or [Stop] is
    called. *)
Inductive step (f : ComputeFunc) : State → State → Prop :=
| step_task s pre t post w now s' :
    tasks s = pre ++ t :: post →
    (w = CtxDone → cancelled (rr s) = true) →
    execTask f w now t (setTasks (pre ++ post) s) = Some (tt, s') →
    step f s s'
| step_user s (g : M unit) s' :
    userCode g → g s = Some (tt, s') → step f s s'
| step_Stop_cancel s s' :
    Stop_cancel s = Some (tt, s') → step f s s'
| step_Stop_locked s s' :
    Stop_locked s = Some (tt, s') → step f s s'.

Definition reachable (f : ComputeFunc) (minRerunInterval : Duration) (s : State) : Prop :=
  rtc (step f) (NewRerunner minRerunInterval) s.

(** [g] starts at most [d] runs and leaves the executor's fields and the
    ghost trace alone. *)
Definition quiet {A} (d : nat) (g : M A) : Prop :=
  ∀ s a s', g s = Some (a, s') →
    (rerunTokens s' ≤ rerunTokens s + d)%nat ∧ rr s' = rr s ∧ trace s' = trace s.

(** What one call of [Rerunner.run] does, by the way it ends. *)
Inductive runEnd : Type :=
| Skipped
| Succeeded
| Retried
| Failed (msg : string).

Definition runEndOf (err : option error) : runEnd :=
  match err with
  | None => Succeeded
  | Some RetrySentinelError => Retried
  | Some (OtherError msg) => Failed msg
  end.

Definition cappedDouble (d : Duration) : Duration :=
  let doubled := wrap64 (d * 2)%Z in
  if (Minute <? doubled)%Z then Minute else doubled.


(** ** Vocabulary for the cache *)

(** The node [n] has an edge to [target]. *)
Definition hasEdge (s : State) (n target : nodeId) : Prop :=
  ∃ nd, nodes s !! n = Some nd ∧ target ∈ out nd.




(** A sub-computation that fails. *)
Definition failing : ComputeFunc := λ ctx, ret (None, Some (OtherError "no data")).

(** ** Concrete executions *)

(** Run the pending goroutine at position [i]; the state is unchanged when
    there is none or when it does not return. *)
Definition runTask (f : ComputeFunc) (i : nat) (w : wake) (now : Time) (s : State) : State :=
  match tasks s !! i with
  | Some t =>
      match execTask f w now t (setTasks (take i (tasks s) ++ drop (S i) (tasks s)) s) with
      | Some (_, s') => s'
      | None => s
      end
  | None => s
  end.

(** Run user code on its own goroutine. *)
Definition runUser {A} (g : M A) (s : State) : State :=
  match g s with
  | Some (_, s') => s'
  | None => s
  end.

(** A computation that depends on the resource [r] and succeeds on its first
    call, and fails for good on the later ones; it notes in user memory that
    it has run. *)
Definition dependThenFail (r : Resource) : ComputeFunc := λ ctx,
  u <- gets user;;
  if (u =? 0)%Z then
    modify (setUser 1%Z);;
    AddDependency ctx r;;
    ret (Some 1%Z, None)
  else ret (None, Some (OtherError "boom")).

(** A computation that always asks to be retried. *)
Definition alwaysRetry : ComputeFunc := λ ctx, ret (None, Some RetrySentinelError).

(** The scenario: a resource is created, the executor runs the computation
    once with success, the resource is invalidated, the invalidation reaches
    the computation and starts the second run, which fails. *)
Definition scenario_ready : State :=
  let f := dependThenFail 0 in
  let s1 := runUser NewResource (NewRerunner 10%Z) in
  let s2 := runTask f 0 TimerFired 10%Z s1 in
  let s3 := runUser (Resource_Invalidate 0) s2 in
  let s4 := runTask f 0 TimerFired 20%Z s3 in
  runTask f 0 TimerFired 20%Z s4.

Definition scenario_failed : State :=
  runTask (dependThenFail 0) 0 TimerFired 30%Z scenario_ready.

Definition scenario_quiescent : State :=
  runTask (dependThenFail 0) 0 TimerFired 40%Z scenario_failed.


(** ** Vocabulary for the further properties *)

(** The executor has been stopped and holds no computation. *)
Definition stopped (s : State) : Prop :=
  stop (rr s) = true ∧ r_computation (rr s) = None.


(** A sub-computation that returns a value. *)
Definition constant (v : Value) : ComputeFunc := λ ctx, ret (v, None).

End Reactive.

Module FederationSpec.
Import Federation.

(** ** The scenarios of the specification, run on the embedding *)

Example union_merge_scenario :
  mergeSchemas
    (schemaOf [object "Query" [Field "a" (Some (NonNullOf (scalar "Int"))) []]])
    (schemaOf [object "Query" [Field "b" (Some (scalar "String")) []]]) Union
  = Ok (QueryResult (ISchema
      [object "Query" [Field "a" (Some (NonNullOf (scalar "Int"))) [];
                       Field "b" (Some (scalar "String")) []]])).
Proof. vm_compute. reflexivity. Qed.

Example intersection_merge_scenario :
  mergeSchemas
    (schemaOf [object "Query" [Field "a" (Some (NonNullOf (scalar "Int"))) []]])
    (schemaOf [object "Query" [Field "b" (Some (scalar "String")) []]]) Intersection
  = Ok (QueryResult (ISchema [object "Query" []])).
Proof. vm_compute. reflexivity. Qed.

Example input_tightening_scenario :
  mergeFields
    [Field "f" (Some (scalar "Int")) [InputField "x" (Some (scalar "Int"))]]
    [Field "f" (Some (scalar "Int")) [InputField "x" (Some (NonNullOf (scalar "Int")))]] Union
  = Ok [Field "f" (Some (scalar "Int")) [InputField "x" (Some (NonNullOf (scalar "Int")))]].
Proof. vm_compute. reflexivity. Qed.

Example output_relaxing_scenario :
  mergeFields
    [Field "f" (Some (NonNullOf (scalar "Int"))) []]
    [Field "f" (Some (scalar "Int")) []] Union
  = Ok [Field "f" (Some (scalar "Int")) []].
Proof. vm_compute. reflexivity. Qed.

Example incompatible_kinds_scenario :
  mergeSchemas (schemaOf [IType "X" "SCALAR" [] [] [] []])
               (schemaOf [IType "X" "OBJECT" [] [] [] []]) Union
  = Err "can't merge type X: conflicting kinds SCALAR and OBJECT".
Proof. vm_compute. reflexivity. Qed.

Example sorted_output_scenario :
  mergeEnumValues [EnumValue "b"; EnumValue "a"] [EnumValue "c"; EnumValue "B"] Union
  = Ok [EnumValue "B"; EnumValue "a"; EnumValue "b"; EnumValue "c"].
Proof. vm_compute. reflexivity. Qed.

(** ** Properties of the type merger *)

(** The source's body of [mergeTypeRefs], for two non-nil references. *)
Lemma mergeTypeRefs_body a b isInput :
  mergeTypeRefs (Some a) (Some b) isInput =
  if isNonNull a || isNonNull b then
    merged ← mergeTypeRefs (strip a) (strip b) isInput;
    if isInput || (isNonNull a && isNonNull b) then Ok (NonNullOf merged) else Ok merged
  else if negb (String.eqb (tr_Kind a) (tr_Kind b)) then
    Err ("kinds " +:+ tr_Name a +:+ " and " +:+ tr_Kind b +:+ " differ")
  else if isBasicKind (tr_Kind a) then
    if negb (String.eqb (tr_Name a) (tr_Name b)) then Err "types must be identical"
    else Ok (TypeRef (tr_Kind a) (tr_Name a) None)
  else if String.eqb (tr_Kind a) "LIST" then
    inner ← mergeTypeRefs (tr_OfType a) (tr_OfType b) isInput;
    Ok (ListOf inner)
  else Err "unknown type kind".
Proof.
  simp mergeTypeRefs.
  destruct (inspect (isNonNull a || isNonNull b)) as [[] E]; simpl; rewrite E; reflexivity.
Qed.

Lemma mergeTypeRefs_nil_l b isInput : mergeTypeRefs None b isInput = Panic.
Proof. by simp mergeTypeRefs. Qed.

Lemma mergeTypeRefs_nil_r a isInput : mergeTypeRefs a None isInput = Panic.
Proof. destruct a; by simp mergeTypeRefs. Qed.

Lemma mergeTypeRefs_Ok_Some a b isInput r :
  mergeTypeRefs a b isInput = Ok r → ∃ a' b', a = Some a' ∧ b = Some b'.
Proof.
  destruct a as [a'|]; [|by rewrite mergeTypeRefs_nil_l].
  destruct b as [b'|]; [|by rewrite mergeTypeRefs_nil_r].
  eauto.
Qed.

(** Induction following the recursive calls of [mergeTypeRefs]. *)
Lemma ref_pair_ind (P : option introspectionTypeRef → option introspectionTypeRef → Prop) :
  (∀ a b, (∀ a' b', oref_size a' + oref_size b' < oref_size a + oref_size b → P a' b') → P a b) →
  ∀ a b, P a b.
Proof.
  intros IH a b.
  remember (oref_size a + oref_size b) as n eqn:Hn.
  revert a b Hn. induction (lt_wf n) as [n _ IHn]. intros a b ->.
  apply IH. intros a' b' Hlt. by eapply IHn.
Qed.

Lemma strip_size_lt a b :
  isNonNull a || isNonNull b = true →
  oref_size (strip a) + oref_size (strip b) < ref_size a + ref_size b.
Proof.
  unfold strip. destruct a as [ka na [a'|]], b as [kb nb [b'|]];
    unfold isNonNull; simpl;
    destruct (String.eqb ka _), (String.eqb kb _); simpl; try discriminate; lia.
Qed.

Lemma ofType_size_lt a b :
  oref_size (tr_OfType a) + oref_size (tr_OfType b) < ref_size a + ref_size b.
Proof. destruct a as [ka na [a'|]], b as [kb nb [b'|]]; simpl; lia. Qed.

Lemma isBasicKind_not_NON_NULL k : isBasicKind k = true → String.eqb k "NON_NULL" = false.
Proof.
  unfold isBasicKind. simpl. intros H.
  destruct (String.eqb_spec k "NON_NULL") as [->|]; [done|done].
Qed.

(** What a successful merge returns, one level deep. *)
Lemma mergeTypeRefs_Ok_inv a b isInput r :
  mergeTypeRefs (Some a) (Some b) isInput = Ok r →
  (isNonNull a || isNonNull b = true ∧
   ∃ merged, mergeTypeRefs (strip a) (strip b) isInput = Ok merged ∧
     r = if isInput || (isNonNull a && isNonNull b) then NonNullOf merged else merged) ∨
  (isNonNull a || isNonNull b = false ∧ isBasicKind (tr_Kind a) = true ∧
   tr_Kind a = tr_Kind b ∧ tr_Name a = tr_Name b ∧
   r = TypeRef (tr_Kind a) (tr_Name a) None) ∨
  (isNonNull a || isNonNull b = false ∧ tr_Kind a = "LIST" ∧ tr_Kind b = "LIST" ∧
   ∃ inner, mergeTypeRefs (tr_OfType a) (tr_OfType b) isInput = Ok inner ∧ r = ListOf inner).
Proof.
  rewrite mergeTypeRefs_body.
  destruct (isNonNull a || isNonNull b) eqn:E.
  - destruct (mergeTypeRefs (strip a) (strip b) isInput) as [merged| |]; simpl; try done.
    intros H. left. split; [done|]. exists merged. split; [done|].
    by destruct (isInput || isNonNull a && isNonNull b); inversion H.
  - destruct (String.eqb_spec (tr_Kind a) (tr_Kind b)) as [Hk|Hk]; simpl; [|done].
    destruct (isBasicKind (tr_Kind a)) eqn:Hb.
    + destruct (String.eqb_spec (tr_Name a) (tr_Name b)) as [Hn|Hn]; simpl; [|done].
      intros [= <-]. right. left. done.
    + destruct (String.eqb_spec (tr_Kind a) "LIST") as [Hl|Hl]; [|done].
      destruct (mergeTypeRefs (tr_OfType a) (tr_OfType b) isInput) as [inner| |];
        simpl; try done.
      intros [= <-]. right. right. repeat split; try congruence. by exists inner.
Qed.

(** Output position: the result is NON_NULL only when both sides are. *)
Lemma mergeTypeRefs_output_nonnull a b r :
  mergeTypeRefs a b false = Ok r →
  isNonNull r = isNonNullRef a && isNonNullRef b.
Proof.
  revert r. pattern a, b. apply ref_pair_ind. clear a b.
  intros a b IH r Hm.
  destruct (mergeTypeRefs_Ok_Some _ _ _ _ Hm) as (a' & b' & -> & ->). simpl.
  destruct (mergeTypeRefs_Ok_inv _ _ _ _ Hm)
    as [(E & merged & Hrec & ->)|[(E & Hb & Hk & Hn & ->)|(E & Hl & Hl' & inner & Hrec & ->)]].
  - simpl. destruct (isNonNull a' && isNonNull b') eqn:Eab; [done|].
    rewrite (IH _ _ (strip_size_lt _ _ E) _ Hrec).
    unfold strip. destruct (isNonNull a') eqn:Ea, (isNonNull b') eqn:Eb;
      simpl in *; try done.
    + rewrite Eb. apply andb_false_r.
    + by rewrite Ea.
  - apply orb_false_elim in E as [-> ->]. simpl.
    by apply isBasicKind_not_NON_NULL.
  - by apply orb_false_elim in E as [-> ->].
Qed.

(** Input position: the result is NON_NULL as soon as one side is. *)
Lemma mergeTypeRefs_input_nonnull a b r :
  mergeTypeRefs a b true = Ok r →
  isNonNull r = isNonNullRef a || isNonNullRef b.
Proof.
  intros Hm.
  destruct (mergeTypeRefs_Ok_Some _ _ _ _ Hm) as (a' & b' & -> & ->). simpl.
  destruct (mergeTypeRefs_Ok_inv _ _ _ _ Hm)
    as [(E & merged & Hrec & ->)|[(E & Hb & Hk & Hn & ->)|(E & Hl & Hl' & inner & Hrec & ->)]].
  - by rewrite E.
  - rewrite E. by apply isBasicKind_not_NON_NULL.
  - by rewrite E.
Qed.

Lemma sublevel_input_mergesTo l l' :
  sublevel l l' → mergesTo true l → mergesTo true l'.
Proof.
  unfold mergesTo. destruct 1 as [a b r r' E Hr|a b r r' E Hl Hr]; simpl; intros Hm.
  - destruct (mergeTypeRefs_Ok_inv _ _ _ _ Hm)
      as [(_ & merged & Hrec & ->)|[(E' & _)|(E' & _)]]; try congruence.
    simpl in Hr. congruence.
  - destruct (mergeTypeRefs_Ok_inv _ _ _ _ Hm)
      as [(E' & _)|[(_ & Hb & _)|(_ & _ & _ & inner & Hrec & ->)]]; try congruence.
    + rewrite Hl in Hb. done.
    + simpl in Hr. congruence.
Qed.

Lemma rtc_sublevel_input_mergesTo l l' :
  rtc sublevel l l' → mergesTo true l → mergesTo true l'.
Proof. induction 1; eauto using sublevel_input_mergesTo. Qed.

(** C2. For type references on which [mergeTypeRefs] succeeds: in input
    position the result is NON_NULL iff [a] or [b] is, and the same holds at
    every nesting level of the merge (each level is itself a successful
    merge of the inner references); in output position the result is
    NON_NULL iff both [a] and [b] are. *)
Theorem mergeTypeRefs_nullability a b r :
  (mergeTypeRefs a b true = Ok r →
   ∀ a' b' r', rtc sublevel (a, b, r) (a', b', r') →
     mergeTypeRefs a' b' true = Ok r' ∧
     (isNonNull r' = true ↔ isNonNullRef a' = true ∨ isNonNullRef b' = true)) ∧
  (mergeTypeRefs a b false = Ok r →
   (isNonNull r = true ↔ isNonNullRef a = true ∧ isNonNullRef b = true)).
Proof.
  split.
  - intros Hm a' b' r' Hsub.
    pose proof (rtc_sublevel_input_mergesTo _ _ Hsub Hm) as Hm'.
    unfold mergesTo in Hm'. simpl in Hm'. split; [done|].
    rewrite (mergeTypeRefs_input_nonnull _ _ _ Hm'). apply orb_true_iff.
  - intros Hm. rewrite (mergeTypeRefs_output_nonnull _ _ _ Hm). apply andb_true_iff.
Qed.

Lemma mergeTypeRefs_nullability_witness :
  let inner := Some (ListOf (NonNullOf (scalar "Int"))) in
  let a := Some (NonNullOf (ListOf (NonNullOf (scalar "Int")))) in
  let b := Some (NonNullOf (ListOf (scalar "Int"))) in
  (mergeTypeRefs (Some (NonNullOf (scalar "Int"))) (Some (scalar "Int")) true
     = Ok (NonNullOf (scalar "Int")) ∧
   (isNonNull (NonNullOf (scalar "Int")) = true ↔
    isNonNullRef (Some (NonNullOf (scalar "Int"))) = true ∨
    isNonNullRef (Some (scalar "Int")) = true)) ∧
  (isNonNull (NonNullOf (ListOf (scalar "Int"))) = true ↔
   isNonNullRef a = true ∧ isNonNullRef b = true).
Proof.
  intros inner a b. split.
  - apply (proj1 (mergeTypeRefs_nullability a b (NonNullOf (ListOf (NonNullOf (scalar "Int")))))).
    + vm_compute. reflexivity.
    + eapply rtc_l; [by apply sublevel_nonnull|].
      eapply rtc_l; [by apply sublevel_list|].
      apply rtc_refl.
  - apply (proj2 (mergeTypeRefs_nullability a b (NonNullOf (ListOf (scalar "Int"))))).
    vm_compute. reflexivity.
Defined.

(** ** The order of [sort.Strings] *)

Lemma string_compare_refl s : String.compare s s = Eq.
Proof.
  induction s as [|c s IH]; simpl; [done|].
  unfold Ascii.compare. by rewrite N.compare_refl.
Qed.

Lemma string_compare_lt_trans s1 s2 s3 :
  String.compare s1 s2 = Lt → String.compare s2 s3 = Lt → String.compare s1 s3 = Lt.
Proof.
  revert s2 s3. induction s1 as [|c1 s1 IH]; intros [|c2 s2] [|c3 s3]; simpl; try done.
  unfold Ascii.compare.
  destruct (N.compare_spec (N_of_ascii c1) (N_of_ascii c2)) as [E12|L12|G12]; try done;
  destruct (N.compare_spec (N_of_ascii c2) (N_of_ascii c3)) as [E23|L23|G23]; try done;
  intros H12 H23.
  - rewrite E12, E23, N.compare_refl. eauto.
  - rewrite E12. apply N.compare_lt_iff in L23. by rewrite L23.
  - rewrite <- E23. apply N.compare_lt_iff in L12. by rewrite L12.
  - assert ((N_of_ascii c1 ?= N_of_ascii c3)%N = Lt) as ->; [|done].
    apply N.compare_lt_iff. lia.
Qed.

#[local] Instance string_le_total : Total string_le.
Proof. intros s1 s2. apply String.leb_total. Qed.

#[local] Instance string_le_antisymm : AntiSymm (=) string_le.
Proof. intros s1 s2. apply String.leb_antisym. Qed.

#[local] Instance string_le_trans : Transitive string_le.
Proof.
  intros s1 s2 s3. unfold string_le, String.leb.
  destruct (String.compare s1 s2) eqn:E12; try done;
  destruct (String.compare s2 s3) eqn:E23; try done; intros _ _.
  - apply String.compare_eq_iff in E12 as ->. by rewrite E23.
  - apply String.compare_eq_iff in E12 as ->. by rewrite E23.
  - apply String.compare_eq_iff in E23 as <-. by rewrite E12.
  - by rewrite (string_compare_lt_trans _ _ _ E12 E23).
Qed.

Lemma sortStrings_Permutation l : sortStrings l ≡ₚ l.
Proof. apply merge_sort_Permutation. Qed.

Lemma sortStrings_Sorted l : StronglySorted string_le (sortStrings l).
Proof. apply StronglySorted_merge_sort; apply _. Qed.

Lemma sortStrings_elem l n : n ∈ sortStrings l ↔ n ∈ l.
Proof. by rewrite sortStrings_Permutation. Qed.

Lemma sortStrings_NoDup l : NoDup l → NoDup (sortStrings l).
Proof. by rewrite sortStrings_Permutation. Qed.

(** The sorted names do not depend on the order in which the map's keys
    were collected: Go's map iteration order is irrelevant. *)
Lemma sortStrings_order_irrelevant l1 l2 :
  l1 ≡ₚ l2 → sortStrings l1 = sortStrings l2.
Proof.
  intros Hp. apply (StronglySorted_unique string_le); try apply sortStrings_Sorted.
  by rewrite !sortStrings_Permutation.
Qed.

(** ** The merge loop: from the map to lists *)

Section MergeByNameFacts.
Context {T : Type}.
Variable key : T → option string.

Implicit Types (l a b : list T) (types : gmap string (list T)) (n name : string).

Lemma grouped_nil : grouped key [] ∅.
Proof. intros n. by rewrite lookup_empty. Qed.

Lemma grouped_lookup_total l types n : grouped key l types → types !!! n = occ key n l.
Proof.
  intros H. rewrite lookup_total_alt, (H n). by destruct (occ key n l).
Qed.

Lemma occ_snoc n l x :
  occ key n (l ++ [x]) = occ key n l ++ (if decide (key x = Some n) then [x] else []).
Proof.
  unfold occ. by rewrite filter_app.
Qed.

Lemma grouped_snoc l types x n :
  key x = Some n → grouped key l types →
  grouped key (l ++ [x]) (<[n := (types !!! n) ++ [x]]> types).
Proof.
  intros Hk Hg m. rewrite occ_snoc.
  destruct (decide (n = m)) as [->|Hne].
  - rewrite lookup_insert_eq, (grouped_lookup_total _ _ _ Hg).
    rewrite decide_True by done. by destruct (occ key m l).
  - rewrite lookup_insert_ne by done. rewrite (Hg m).
    rewrite decide_False by congruence. by rewrite app_nil_r.
Qed.

Lemma group_Ok l0 l types types' :
  grouped key l0 types → group key l types = Ok types' →
  grouped key (l0 ++ l) types' ∧ Forall (λ x, is_Some (key x)) l.
Proof.
  revert l0 types. induction l as [|x l IH]; intros l0 types Hg; simpl.
  - intros [= <-]. by rewrite app_nil_r.
  - destruct (key x) as [n|] eqn:Hk; [|done]. intros Hgr.
    destruct (IH (l0 ++ [x]) _ (grouped_snoc _ _ _ _ Hk Hg) Hgr) as [H1 H2].
    rewrite <- app_assoc in H1. split; [done|]. constructor; [by rewrite Hk|done].
Qed.

Lemma group_total l types :
  Forall (λ x, is_Some (key x)) l → ∃ types', group key l types = Ok types'.
Proof.
  revert types. induction l as [|x l IH]; intros types Hall; simpl; [by eexists|].
  inversion Hall as [|?? [n Hn] Hall']; subst. rewrite Hn. by apply IH.
Qed.

Lemma group_not_Err l types e : group key l types ≠ Err e.
Proof.
  revert types. induction l as [|x l IH]; intros types; simpl; [done|].
  destruct (key x); [apply IH|done].
Qed.

Lemma group_Panic l types :
  ¬ Forall (λ x, is_Some (key x)) l → group key l types = Panic.
Proof.
  intros Hn. destruct (group key l types) as [types'|e|] eqn:E; [|by apply group_not_Err in E|done].
  destruct Hn. revert types E. induction l as [|x l IH]; intros types; simpl; [done|].
  destruct (key x) eqn:Hk; [|done]. intros E. constructor; [by rewrite Hk|eauto].
Qed.

Lemma occ_nil_iff n l : occ key n l = [] ↔ n ∉ omap key l.
Proof.
  unfold occ. rewrite list_elem_of_omap. split.
  - intros Hf (x & Hx & Hk).
    assert (x ∈ filter (λ x, key x = Some n) l) as Hin by (by apply list_elem_of_filter).
    rewrite Hf in Hin. by apply not_elem_of_nil in Hin.
  - intros Hn. destruct (filter _ l) as [|x l'] eqn:E; [done|].
    assert (x ∈ filter (λ x, key x = Some n) l) as Hin by (rewrite E; left).
    apply list_elem_of_filter in Hin as [? ?]. destruct Hn; eauto.
Qed.

Lemma occ_app n a b : occ key n (a ++ b) = occ key n a ++ occ key n b.
Proof. apply filter_app. Qed.

Lemma occ_elem n l x : x ∈ occ key n l ↔ x ∈ l ∧ key x = Some n.
Proof. unfold occ. rewrite list_elem_of_filter. tauto. Qed.

Lemma occ_cons_key n l x p : occ key n l = x :: p → key x = Some n ∧ x ∈ l.
Proof.
  intros E. assert (x ∈ occ key n l) as Hin by (rewrite E; left).
  apply occ_elem in Hin. tauto.
Qed.

(** With distinct names, a name selects at most one element. *)
Lemma occ_unique n l : NoDup (omap key l) → (List.length (occ key n l) ≤ 1)%nat.
Proof.
  induction l as [|x l IH]; simpl; [lia|].
  unfold occ. rewrite filter_cons. fold (occ key n l).
  destruct (key x) as [k|] eqn:Hk.
  - rewrite NoDup_cons. intros [Hnin Hnd].
    destruct (decide (Some k = Some n)) as [[= ->]|Hne]; [|by apply IH].
    apply occ_nil_iff in Hnin. rewrite Hnin. simpl. lia.
  - intros Hnd. destruct (decide (None = Some n)); [done|by apply IH].
Qed.

Lemma sortedNames_grouped l types : grouped key l types → sortedNames types = namesOf key l.
Proof.
  intros Hg. unfold sortedNames, namesOf. apply sortStrings_order_irrelevant.
  apply NoDup_Permutation.
  - apply NoDup_fst_map_to_list.
  - apply NoDup_remove_dups.
  - intros n. rewrite elem_of_remove_dups, list_elem_of_fmap. split.
    + intros ([n' p] & -> & Hin). apply elem_of_map_to_list in Hin. simpl.
      rewrite (Hg n') in Hin. destruct (decide (n' ∈ omap key l)) as [|Hn]; [done|].
      apply occ_nil_iff in Hn. by rewrite Hn in Hin.
    + intros Hin. destruct (occ key n l) as [|x p] eqn:E.
      { apply occ_nil_iff in E. done. }
      exists (n, x :: p). split; [done|]. apply elem_of_map_to_list. by rewrite (Hg n), E.
Qed.

Lemma namesOf_elem l n : n ∈ namesOf key l ↔ ∃ x, x ∈ l ∧ key x = Some n.
Proof.
  unfold namesOf. by rewrite sortStrings_elem, elem_of_remove_dups, list_elem_of_omap.
Qed.

Lemma namesOf_NoDup l : NoDup (namesOf key l).
Proof. apply sortStrings_NoDup, NoDup_remove_dups. Qed.

Lemma namesOf_Sorted l : StronglySorted string_le (namesOf key l).
Proof. apply sortStrings_Sorted. Qed.

Lemma namesOf_Permutation l1 l2 : l1 ≡ₚ l2 → namesOf key l1 = namesOf key l2.
Proof.
  intros Hp. apply (StronglySorted_unique string_le); try apply namesOf_Sorted.
  apply NoDup_Permutation; try apply namesOf_NoDup.
  intros n. rewrite !namesOf_elem. by setoid_rewrite Hp.
Qed.

Variable single : string → T → result (list T).
Variable pair : string → T → T → result T.

Lemma mergeEntry_grouped l types n :
  grouped key l types → mergeEntry single pair types n = entryOf key single pair l n.
Proof.
  intros Hg. unfold mergeEntry, entryOf. by rewrite (grouped_lookup_total _ _ _ Hg).
Qed.

Lemma mergeLoop_mapConcat types names merged :
  mergeLoop single pair types names merged =
  rs ← mapConcat (mergeEntry single pair types) names; Ok (merged ++ rs).
Proof.
  revert merged. induction names as [|n names IH]; intros merged; simpl.
  - by rewrite app_nil_r.
  - destruct (mergeEntry single pair types n) as [r| |]; simpl; try done.
    rewrite IH. destruct (mapConcat _ names) as [rs| |]; simpl; try done.
    by rewrite app_assoc.
Qed.

Lemma mapConcat_ext (f g : string → result (list T)) names :
  (∀ n, n ∈ names → f n = g n) → mapConcat f names = mapConcat g names.
Proof.
  induction names as [|n names IH]; intros H; simpl; [done|].
  rewrite (H n) by left. rewrite IH; [done|]. intros m Hm. apply H. by right.
Qed.

Lemma forallb_bool_decide (P : T → Prop) `{∀ x, Decision (P x)} l :
  forallb (λ x, bool_decide (P x)) l = true ↔ Forall P l.
Proof.
  induction l as [|x l IH]; simpl; [done|].
  rewrite andb_true_iff, IH, bool_decide_eq_true, Forall_cons. done.
Qed.

(** The loop over the map computes what the list view says. *)
Theorem mergeByName_list_eq a b :
  mergeByName key single pair a b = mergeByName_list key single pair a b.
Proof.
  unfold mergeByName, mergeByName_list.
  destruct (forallb _ (a ++ b)) eqn:Hall.
  - apply forallb_bool_decide in Hall as HF.
    apply Forall_app in HF as [Ha Hb].
    destruct (group_total a ∅ Ha) as [ta Hta]. rewrite Hta. simpl.
    destruct (group_total b ta Hb) as [tb Htb]. rewrite Htb. simpl.
    destruct (group_Ok [] a ∅ ta grouped_nil Hta) as [Hga _]. simpl in Hga.
    destruct (group_Ok a b ta tb Hga Htb) as [Hgb _].
    rewrite mergeLoop_mapConcat, (sortedNames_grouped _ _ Hgb).
    rewrite (mapConcat_ext _ (entryOf key single pair (a ++ b))).
    + by destruct (mapConcat _ _).
    + intros n _. by apply mergeEntry_grouped.
  - assert (¬ Forall (λ x, is_Some (key x)) (a ++ b)) as HF.
    { intros HF.
      apply (proj2 (forallb_bool_decide (λ x, is_Some (key x)) (a ++ b))) in HF.
      simpl in HF. congruence. }
    rewrite Forall_app in HF.
    destruct (decide (Forall (λ x, is_Some (key x)) a)) as [Ha|Ha].
    + destruct (group_total a ∅ Ha) as [ta Hta]. rewrite Hta. simpl.
      rewrite group_Panic; [done|]. tauto.
    + by rewrite group_Panic.
Qed.
End MergeByNameFacts.

(** ** The merge loop on lists: what a successful merge contains *)

Section MergeListFacts.
Context {T : Type}.
Variable key : T → option string.
Variable single : string → T → result (list T).
Variable pair : string → T → T → result T.

Implicit Types (l a b r : list T) (n name : string).

Lemma mapConcat_Ok (f : string → result (list T)) names r :
  mapConcat f names = Ok r →
  ∃ rs, Forall2 (λ n x, f n = Ok x) names rs ∧ r = concat rs.
Proof.
  revert r. induction names as [|n names IH]; intros r; simpl.
  - intros [= <-]. by exists [].
  - destruct (f n) as [x| |] eqn:Hf; simpl; try done.
    destruct (mapConcat f names) as [rs'| |]; simpl; try done.
    intros [= <-]. destruct (IH _ eq_refl) as (rs & HF & ->).
    exists (x :: rs). split; [by constructor|done].
Qed.

Lemma mapConcat_Ok_elem (f : string → result (list T)) names r m :
  mapConcat f names = Ok r →
  m ∈ r ↔ ∃ n x, n ∈ names ∧ f n = Ok x ∧ m ∈ x.
Proof.
  intros H. apply mapConcat_Ok in H as (rs & HF & ->).
  induction HF as [|n x names rs Hn HF IH]; simpl.
  - split; [by intros ?%not_elem_of_nil|]. intros (n & x & Hn%not_elem_of_nil & _). done.
  - rewrite elem_of_app, IH. split.
    + intros [Hm|(n' & x' & Hn' & Hf & Hm)].
      * exists n, x. split; [left|done].
      * exists n', x'. split; [by right|done].
    + intros (n' & x' & Hn' & Hf & Hm). apply elem_of_cons in Hn' as [->|Hn'].
      * left. congruence.
      * right. eauto.
Qed.

(** The loop stops at the first name whose entry fails, with that failure. *)
Lemma mapConcat_first_failure (f : string → result (list T)) names :
  (∃ r, mapConcat f names = Ok r) ∨
  (∃ pre n post, names = pre ++ n :: post ∧
     Forall (λ k, isOk (f k) = true) pre ∧ isOk (f n) = false ∧
     mapConcat f names = f n).
Proof.
  induction names as [|n names IH]; simpl; [left; by eexists|].
  destruct (f n) as [x| |] eqn:Hf; simpl.
  - destruct IH as [[r ->]|(pre & k & post & -> & Hpre & Hk & ->)]; simpl.
    + left. by eexists.
    + right. exists (n :: pre), k, post. repeat split; try done.
      * constructor; [by rewrite Hf|done].
      * by destruct (f k).
  - right. exists [], n, names. by rewrite Hf.
  - right. exists [], n, names. by rewrite Hf.
Qed.

(** Two loops over the same names whose entries are related give related
    results. *)
Lemma mapConcat_rel (R : T → T → Prop) (f g : string → result (list T)) names r :
  (∀ n x, n ∈ names → f n = Ok x → ∃ y, g n = Ok y ∧ Forall2 R x y) →
  mapConcat f names = Ok r →
  ∃ r', mapConcat g names = Ok r' ∧ Forall2 R r r'.
Proof.
  revert r. induction names as [|n names IH]; intros r Hfg; simpl.
  - intros [= <-]. by exists [].
  - destruct (f n) as [x| |] eqn:Hf; simpl; try done.
    destruct (mapConcat f names) as [rs| |]; simpl; try done.
    intros [= <-].
    destruct (Hfg n x ltac:(left) Hf) as (y & -> & Hxy).
    destruct (IH rs) as (rs' & -> & Hrs); [|done|].
    { intros k z Hk. apply Hfg. by right. }
    simpl. eexists. split; [done|]. by apply Forall2_app.
Qed.

Lemma mergeByName_Ok a b r :
  mergeByName key single pair a b = Ok r →
  Forall (λ x, is_Some (key x)) (a ++ b) ∧
  mapConcat (entryOf key single pair (a ++ b)) (namesOf key (a ++ b)) = Ok r.
Proof.
  rewrite mergeByName_list_eq. unfold mergeByName_list.
  destruct (forallb _ _) eqn:E; [|done].
  apply forallb_bool_decide in E. done.
Qed.

(** Every element of a successful merge was produced for some name, either
    from its only occurrence or from its first two. *)
Lemma mergeByName_Ok_elem a b r m :
  mergeByName key single pair a b = Ok r → m ∈ r →
  ∃ n, (∃ p0 x, occ key n (a ++ b) = [p0] ∧ single n p0 = Ok x ∧ m ∈ x) ∨
       (∃ p0 p1 rest, occ key n (a ++ b) = p0 :: p1 :: rest ∧ pair n p0 p1 = Ok m).
Proof.
  intros [_ H]%mergeByName_Ok Hm.
  apply (mapConcat_Ok_elem _ _ _ m) in H. apply H in Hm as (n & x & _ & He & Hm).
  exists n. unfold entryOf in He.
  destruct (occ key n (a ++ b)) as [|p0 [|p1 rest]] eqn:E; [done| |].
  - left. eauto.
  - right. destruct (pair n p0 p1) as [m'| |] eqn:Hp; simpl in He; try done.
    injection He as <-. apply list_elem_of_singleton in Hm as ->. eauto.
Qed.

(** Every name of the inputs was visited, and its entry succeeded. *)
Lemma mergeByName_Ok_name a b r n :
  mergeByName key single pair a b = Ok r → occ key n (a ++ b) ≠ [] →
  (∃ p0 x, occ key n (a ++ b) = [p0] ∧ single n p0 = Ok x ∧ ∀ m, m ∈ x → m ∈ r) ∨
  (∃ p0 p1 rest m, occ key n (a ++ b) = p0 :: p1 :: rest ∧ pair n p0 p1 = Ok m ∧ m ∈ r).
Proof.
  intros [_ H]%mergeByName_Ok Hn.
  assert (n ∈ namesOf key (a ++ b)) as Hin.
  { apply namesOf_elem. destruct (occ key n (a ++ b)) as [|x p] eqn:E; [done|].
    apply occ_cons_key in E as [? ?]. eauto. }
  destruct (mapConcat_Ok _ _ _ H) as (rs & HF & ->).
  assert (∃ x, entryOf key single pair (a ++ b) n = Ok x) as [x Hx].
  { clear -HF Hin. induction HF as [|k x names rs Hk HF IH].
    - by apply not_elem_of_nil in Hin.
    - apply elem_of_cons in Hin as [->|Hin]; eauto. }
  assert (∀ m, m ∈ x → m ∈ concat rs) as Hsub.
  { intros m Hm. apply (mapConcat_Ok_elem _ _ _ m H). eauto. }
  unfold entryOf in Hx.
  destruct (occ key n (a ++ b)) as [|p0 [|p1 rest]] eqn:E; [done| |].
  - left. eauto.
  - right. destruct (pair n p0 p1) as [m| |] eqn:Hp; simpl in Hx; try done.
    injection Hx as <-. exists p0, p1, rest, m. repeat split; try done.
    apply Hsub. left.
Qed.

(** A failing merge reports the failure of one entry. *)
Lemma mergeByName_Err a b e :
  mergeByName key single pair a b = Err e →
  ∃ n, (∃ p0, single n p0 = Err e) ∨ (∃ p0 p1, pair n p0 p1 = Err e).
Proof.
  rewrite mergeByName_list_eq. unfold mergeByName_list.
  destruct (forallb _ _); [|done].
  destruct (mapConcat_first_failure (entryOf key single pair (a ++ b)) (namesOf key (a ++ b)))
    as [[r ->]|(pre & n & post & _ & _ & _ & ->)]; [done|].
  unfold entryOf. destruct (occ key n (a ++ b)) as [|p0 [|p1 rest]]; [done| |].
  - eauto.
  - destruct (pair n p0 p1) eqn:Hp; simpl; try done. intros [= <-]. eauto.
Qed.
End MergeListFacts.

(** ** Input fields: a required input on one side only *)

Lemma wrapErr_Ok {A} (f : string → string) (r : result A) x :
  wrapErr f r = Ok x ↔ r = Ok x.
Proof. by destruct r. Qed.

Lemma wrapErr_Err {A} (f : string → string) (r : result A) e :
  wrapErr f r = Err e → ∃ e', r = Err e' ∧ e = f e'.
Proof. destruct r; try done. intros [= <-]. eauto. Qed.

Lemma wrapErr_isOk {A} (f : string → string) (r : result A) :
  isOk (wrapErr f r) = isOk r.
Proof. by destruct r. Qed.








(** ** Merging a slice of schemas *)

Lemma mergeSchemas_Err_prefix a b mode e :
  mergeSchemas a b mode = Err e → ∃ n e', e = "can't merge type " +:+ n +:+ ": " +:+ e'.
Proof.
  unfold mergeSchemas. destruct a as [a|], b as [b|]; try done.
  destruct (mergeByName _ _ _ _ _) as [r|e0|] eqn:E; simpl; try done.
  intros [= <-]. apply mergeByName_Err in E as [n [[p0 Hs]|(p0 & p1 & Hp)]]; [done|].
  apply wrapErr_Err in Hp as (e' & _ & ->). eauto.
Qed.

Lemma mergeSchemas_not_no_schemas a b mode : mergeSchemas a b mode ≠ Err "no schemas".
Proof. intros (n & e' & H)%mergeSchemas_Err_prefix. discriminate H. Qed.

Lemma mergeSchemaSlice_loop_fold merged rest mode :
  mergeSchemaSlice_loop merged rest mode = fold_left (foldSchemas mode) rest (Ok merged).
Proof.
  revert merged. induction rest as [|schema rest IH]; intros merged; simpl; [done|].
  destruct (mergeSchemas merged schema mode) as [m|e|] eqn:E; simpl.
  - apply IH.
  - clear. induction rest; simpl; auto.
  - clear. induction rest; simpl; auto.
Qed.

Lemma mergeSchemaSlice_loop_not_no_schemas merged rest mode :
  mergeSchemaSlice_loop merged rest mode ≠ Err "no schemas".
Proof.
  revert merged. induction rest as [|schema rest IH]; intros merged; simpl; [done|].
  destruct (mergeSchemas merged schema mode) as [m|e|] eqn:E; simpl; [apply IH| |done].
  intros [= ->]. by apply mergeSchemas_not_no_schemas in E.
Qed.

Lemma mergeSchemaSlice_loop_app merged pre post mode :
  mergeSchemaSlice_loop merged (pre ++ post) mode =
  m ← mergeSchemaSlice_loop merged pre mode; mergeSchemaSlice_loop m post mode.
Proof.
  revert merged. induction pre as [|s pre IH]; intros merged; simpl; [done|].
  destruct (mergeSchemas merged s mode); simpl; auto.
Qed.

(** C7. [mergeSchemaSlice] fails with [no schemas] exactly on the empty
    slice; otherwise it is the left fold of [mergeSchemas] from the first
    schema, and the first failing merge is what it returns. *)
Theorem mergeSchemaSlice_left_fold schemas mode :
  (mergeSchemaSlice schemas mode = Err "no schemas" ↔ schemas = []) ∧
  mergeSchemaSlice schemas mode = mergeSchemaSlice_fold schemas mode ∧
  (∀ first pre schema post m e,
     schemas = first :: pre ++ schema :: post →
     mergeSchemaSlice (first :: pre) mode = Ok m →
     mergeSchemas m schema mode = Err e →
     mergeSchemaSlice schemas mode = Err e).
Proof.
  split; [|split].
  - destruct schemas as [|first rest]; simpl; [done|]. split; [|done].
    intros H. by apply mergeSchemaSlice_loop_not_no_schemas in H.
  - destruct schemas as [|first rest]; simpl; [done|]. apply mergeSchemaSlice_loop_fold.
  - intros first pre schema post m e -> Hpre Hm. simpl in *.
    rewrite mergeSchemaSlice_loop_app, Hpre. simpl. by rewrite Hm.
Qed.

Lemma mergeSchemaSlice_left_fold_witness :
  mergeSchemaSlice [schemaOf [IType "X" "SCALAR" [] [] [] []];
                    schemaOf [IType "Y" "SCALAR" [] [] [] []];
                    schemaOf [IType "X" "OBJECT" [] [] [] []];
                    None] Union
  = Err "can't merge type X: conflicting kinds SCALAR and OBJECT".
Proof.
  eapply (proj2 (proj2 (mergeSchemaSlice_left_fold _ Union))
            _ [schemaOf [IType "Y" "SCALAR" [] [] [] []]] _ [None]).
  - reflexivity.
  - vm_compute. reflexivity.
  - vm_compute. reflexivity.
Defined.

(** C9. A one-element slice is returned as it is, in every mode: the loop
    body never runs, so nothing is merged, checked or sorted. *)
Theorem mergeSchemaSlice_singleton s mode : mergeSchemaSlice [s] mode = Ok s.
Proof. reflexivity. Qed.

(** A schema with a repeated type name of conflicting kinds is rejected by
    every two-schema merge that has it on the left, and returned unchanged
    when it is alone in the slice. *)
Example singleton_keeps_duplicate_types :
  let s := schemaOf [IType "T" "SCALAR" [] [] [] []; IType "T" "OBJECT" [] [] [] []] in
  mergeSchemas s (schemaOf []) Union = Err "can't merge type T: conflicting kinds SCALAR and OBJECT" ∧
  mergeSchemas s (schemaOf []) Intersection = Err "can't merge type T: conflicting kinds SCALAR and OBJECT" ∧
  mergeSchemaSlice [s] Union = Ok s ∧ mergeSchemaSlice [s] Intersection = Ok s.
Proof. vm_compute. done. Qed.

(** A schema whose input object has a NON_NULL field that the other side
    lacks is rejected by the two-schema merge, and returned unchanged when it
    is alone in the slice, names unsorted. *)
Example singleton_keeps_lone_nonnull_input :
  let s := schemaOf [IType "T" "INPUT_OBJECT" []
                       [InputField "z" (Some (NonNullOf (scalar "Int")));
                        InputField "a" (Some (scalar "Int"))] [] []] in
  let other := schemaOf [IType "T" "INPUT_OBJECT" [] [InputField "a" (Some (scalar "Int"))] [] []] in
  mergeSchemas s other Intersection =
    Err "can't merge type T: merging input fields: new field z is non-null: Int!" ∧
  mergeSchemaSlice [s] Intersection = Ok s.
Proof. vm_compute. done. Qed.

(** ** Which names a merge keeps *)

Section MergeNames.
Context {T : Type}.
Variable key : T → option string.
Variable single : string → T → result (list T).
Variable pair : string → T → T → result T.

Implicit Types (l a b r : list T) (n name : string).

Lemma occ_two_sides a b n p0 p1 rest :
  NoDup (omap key a) → NoDup (omap key b) →
  occ key n (a ++ b) = p0 :: p1 :: rest →
  occ key n a = [p0] ∧ occ key n b = [p1] ∧ rest = [].
Proof.
  intros Ha%(occ_unique key n) Hb%(occ_unique key n). rewrite occ_app.
  destruct (occ key n a) as [|x [|??]], (occ key n b) as [|y [|??]];
    simpl in *; try lia; try done.
  by intros [= -> -> <-].
Qed.

Lemma occ_one_side a b n p0 :
  occ key n (a ++ b) = [p0] →
  (occ key n a = [p0] ∧ occ key n b = []) ∨ (occ key n a = [] ∧ occ key n b = [p0]).
Proof.
  rewrite occ_app.
  destruct (occ key n a) as [|x [|??]], (occ key n b) as [|y [|??]]; simpl; try done.
  - intros [= ->]. by right.
  - intros [= ->]. by left.
Qed.

(** Intersection: what is kept was merged from one element of each side. *)
Lemma mergeByName_intersection a b r m :
  (∀ n x l, single n x = Ok l → l = []) →
  NoDup (omap key a) → NoDup (omap key b) →
  mergeByName key single pair a b = Ok r → m ∈ r →
  ∃ n x y, x ∈ a ∧ y ∈ b ∧ key x = Some n ∧ key y = Some n ∧ pair n x y = Ok m.
Proof.
  intros Hs Ha Hb Hm Hin.
  destruct (mergeByName_Ok_elem _ _ _ _ _ _ _ Hm Hin)
    as [n [(p0 & x & _ & Hx & Hmx)|(p0 & p1 & rest & Hocc & Hp)]].
  - apply Hs in Hx as ->. by apply not_elem_of_nil in Hmx.
  - destruct (occ_two_sides _ _ _ _ _ _ Ha Hb Hocc) as (Hoa & Hob & _).
    apply occ_cons_key in Hoa as [? ?]. apply occ_cons_key in Hob as [? ?].
    exists n, p0, p1. done.
Qed.

(** Union: every element of the inputs is kept as it is, when it is alone
    under its name, or merged with the other occurrence. *)
Lemma mergeByName_union a b r x :
  (∀ n y l, single n y = Ok l → l = [y]) →
  mergeByName key single pair a b = Ok r → x ∈ a ++ b →
  ∃ n, key x = Some n ∧
    ((occ key n (a ++ b) = [x] ∧ x ∈ r) ∨
     (∃ p0 p1 rest m, occ key n (a ++ b) = p0 :: p1 :: rest ∧
        pair n p0 p1 = Ok m ∧ m ∈ r)).
Proof.
  intros Hs Hm Hx.
  destruct (mergeByName_Ok _ _ _ _ _ _ Hm) as [Hkeys _].
  rewrite Forall_forall in Hkeys. destruct (Hkeys x Hx) as [n Hn].
  exists n. split; [done|].
  assert (x ∈ occ key n (a ++ b)) as Hocc by (by apply occ_elem).
  destruct (mergeByName_Ok_name _ _ _ _ _ _ n Hm)
    as [(p0 & l & Hp & Hl & Hsub)|(p0 & p1 & rest & m & Hp & Hpm & Hin)].
  - intros E. rewrite E in Hocc. by apply not_elem_of_nil in Hocc.
  - left. rewrite Hp in Hocc. apply list_elem_of_singleton in Hocc as ->.
    split; [done|]. apply Hsub. apply Hs in Hl as ->. left.
  - right. by exists p0, p1, rest, m.
Qed.
Lemma mergeByName_intersection_names a b r :
  (∀ n x l, single n x = Ok l → l = []) → pairKeepsName key pair →
  NoDup (omap key a) → NoDup (omap key b) →
  mergeByName key single pair a b = Ok r →
  omap key r ⊆ omap key a ∧ omap key r ⊆ omap key b.
Proof.
  intros Hs Hp Ha Hb Hm.
  assert (∀ k, k ∈ omap key r → k ∈ omap key a ∧ k ∈ omap key b) as H.
  { intros k (m & Hin & Hk)%list_elem_of_omap.
    destruct (mergeByName_intersection _ _ _ _ Hs Ha Hb Hm Hin)
      as (n & x & y & Hx & Hy & Hkx & Hky & Hpair).
    rewrite (Hp _ _ _ _ Hkx Hpair) in Hk. injection Hk as <-.
    split; apply list_elem_of_omap; eauto. }
  split; intros k Hk; by apply H.
Qed.

Lemma mergeByName_union_names a b r :
  (∀ n y l, single n y = Ok l → l = [y]) → pairKeepsName key pair →
  mergeByName key single pair a b = Ok r →
  omap key a ⊆ omap key r ∧ omap key b ⊆ omap key r.
Proof.
  intros Hs Hp Hm.
  assert (∀ k, k ∈ omap key (a ++ b) → k ∈ omap key r) as H.
  { intros k (x & Hin & Hk)%list_elem_of_omap.
    destruct (mergeByName_union _ _ _ _ Hs Hm Hin)
      as (n & Hn & [[_ Hr]|(p0 & p1 & rest & m & Hocc & Hpair & Hr)]).
    - apply list_elem_of_omap. eauto.
    - apply occ_cons_key in Hocc as [Hk0 _].
      apply list_elem_of_omap. exists m. split; [done|].
      rewrite (Hp _ _ _ _ Hk0 Hpair). congruence. }
  split; intros k Hk; apply H; rewrite omap_app, elem_of_app; auto.
Qed.
End MergeNames.

Lemma omap_Some_fmap {A B} (f : A → B) (l : list A) : omap (λ x, Some (f x)) l = f <$> l.
Proof. induction l as [|x l IH]; simpl; [done|]. by f_equal. Qed.

Lemma omap_if_key (l : list introspectionInputField) : omap if_key l = if_Name <$> l.
Proof. apply omap_Some_fmap. Qed.

Lemma omap_f_key (l : list introspectionField) : omap f_key l = f_Name <$> l.
Proof. apply omap_Some_fmap. Qed.

Lemma omap_ev_key (l : list introspectionEnumValue) : omap ev_key l = ev_Name <$> l.
Proof. apply omap_Some_fmap. Qed.

Lemma omap_t_key (l : list introspectionType) : omap t_key l = t_Name <$> l.
Proof. apply omap_Some_fmap. Qed.

Lemma keepInUnion_Union {T} (p0 : T) : keepInUnion Union p0 = [p0].
Proof. reflexivity. Qed.

Lemma keepInUnion_Intersection {T} (p0 : T) : keepInUnion Intersection p0 = [].
Proof. reflexivity. Qed.

Lemma inputFieldSingle_Ok mode n x l :
  inputFieldSingle mode n x = Ok l → l = keepInUnion mode x.
Proof.
  unfold inputFieldSingle. destruct (if_Type x) as [t|]; [|done].
  destruct (String.eqb _ _); [done|]. by intros [= <-].
Qed.

Lemma inputFieldPair_Ok n p0 p1 m :
  inputFieldPair n p0 p1 = Ok m →
  ∃ t, mergeTypeRefs (if_Type p0) (if_Type p1) true = Ok t ∧ m = InputField n (Some t).
Proof.
  unfold inputFieldPair. destruct (wrapErr _ _) as [t| |] eqn:E; simpl; try done.
  intros [= <-]. apply wrapErr_Ok in E. eauto.
Qed.

Lemma fieldPair_Ok mode n p0 p1 m :
  fieldPair mode n p0 p1 = Ok m →
  ∃ typ args, mergeTypeRefs (f_Type p0) (f_Type p1) false = Ok typ ∧
    mergeInputFields (f_Args p0) (f_Args p1) mode = Ok args ∧
    m = Field n (Some typ) args.
Proof.
  unfold fieldPair. destruct (wrapErr _ (mergeTypeRefs _ _ _)) as [typ| |] eqn:E1; simpl; try done.
  destruct (wrapErr _ (mergeInputFields _ _ _)) as [args| |] eqn:E2; simpl; try done.
  intros [= <-]. apply wrapErr_Ok in E1, E2. eauto.
Qed.

(** What a successful [mergeTypes] returns: name and kind of [a], and the
    merge of the one collection that the kind selects. *)
Lemma mergeTypes_Ok a b mode t :
  mergeTypes a b mode = Ok t →
  t_Kind a = t_Kind b ∧
  ((t_Kind a = "INPUT_OBJECT" ∧ ∃ l, mergeInputFields (t_InputFields a) (t_InputFields b) mode = Ok l ∧
      t = IType (t_Name a) (t_Kind a) [] l [] []) ∨
   (t_Kind a = "OBJECT" ∧ ∃ l, mergeFields (t_Fields a) (t_Fields b) mode = Ok l ∧
      t = IType (t_Name a) (t_Kind a) l [] [] []) ∨
   (t_Kind a = "UNION" ∧ ∃ l, mergePossibleTypes (t_PossibleTypes a) (t_PossibleTypes b) mode = Ok l ∧
      t = IType (t_Name a) (t_Kind a) [] [] l []) ∨
   (t_Kind a = "ENUM" ∧ ∃ l, mergeEnumValues (t_EnumValues a) (t_EnumValues b) mode = Ok l ∧
      t = IType (t_Name a) (t_Kind a) [] [] [] l) ∨
   (t_Kind a = "SCALAR" ∧ t = IType (t_Name a) (t_Kind a) [] [] [] [])).
Proof.
  unfold mergeTypes.
  destruct (String.eqb_spec (t_Kind a) (t_Kind b)) as [Hk|Hk]; simpl; [|done].
  intros H. split; [done|]. revert H.
  destruct (String.eqb_spec (t_Kind a) "INPUT_OBJECT") as [K|_].
  { destruct (wrapErr _ _) as [l| |] eqn:E; simpl; try done. intros [= <-].
    apply wrapErr_Ok in E. left. eauto. }
  destruct (String.eqb_spec (t_Kind a) "OBJECT") as [K|_].
  { destruct (wrapErr _ _) as [l| |] eqn:E; simpl; try done. intros [= <-].
    apply wrapErr_Ok in E. right. left. eauto. }
  destruct (String.eqb_spec (t_Kind a) "UNION") as [K|_].
  { destruct (wrapErr _ _) as [l| |] eqn:E; simpl; try done. intros [= <-].
    apply wrapErr_Ok in E. right. right. left. eauto. }
  destruct (String.eqb_spec (t_Kind a) "ENUM") as [K|_].
  { destruct (wrapErr _ _) as [l| |] eqn:E; simpl; try done. intros [= <-].
    apply wrapErr_Ok in E. do 3 right. left. eauto. }
  destruct (String.eqb_spec (t_Kind a) "SCALAR") as [K|_]; [|done].
  intros [= <-]. do 4 right. done.
Qed.

Lemma mergeSchemas_Ok a b mode r :
  mergeSchemas a b mode = Ok r →
  ∃ a' b', a = Some a' ∧ b = Some b' ∧
    mergeByName t_key (keepSingle mode) (typePair mode)
      (Types (Schema a')) (Types (Schema b')) = Ok (Types (Schema r)).
Proof.
  unfold mergeSchemas. destruct a as [a'|], b as [b'|]; try done.
  destruct (mergeByName _ _ _ _ _) as [l| |] eqn:E; simpl; try done.
  intros [= <-]. by exists a', b'.
Qed.

Lemma keepSingle_Intersection {T} n (x : T) l : keepSingle Intersection n x = Ok l → l = [].
Proof. by intros [= <-]. Qed.

Lemma keepSingle_Union {T} n (x : T) l : keepSingle Union n x = Ok l → l = [x].
Proof. by intros [= <-]. Qed.

Lemma inputFieldSingle_Intersection n x l : inputFieldSingle Intersection n x = Ok l → l = [].
Proof. by intros ->%inputFieldSingle_Ok. Qed.

Lemma inputFieldSingle_Union n x l : inputFieldSingle Union n x = Ok l → l = [x].
Proof. by intros ->%inputFieldSingle_Ok. Qed.

Lemma inputFieldPair_keepsName : pairKeepsName if_key inputFieldPair.
Proof. intros n x y m _ (t & _ & ->)%inputFieldPair_Ok. done. Qed.

Lemma fieldPair_keepsName mode : pairKeepsName f_key (fieldPair mode).
Proof. intros n x y m _ (typ & args & _ & _ & ->)%fieldPair_Ok. done. Qed.

Lemma firstOfPair_keepsName {T} (key : T → option string) : pairKeepsName key firstOfPair.
Proof. by intros n x y m Hk [= <-]. Qed.

Lemma typePair_Ok mode n x y t : typePair mode n x y = Ok t ↔ mergeTypes x y mode = Ok t.
Proof. apply wrapErr_Ok. Qed.

Lemma typePair_keepsName mode : pairKeepsName t_key (typePair mode).
Proof.
  intros n x y m Hk [_ H]%typePair_Ok%mergeTypes_Ok. unfold t_key in *.
  destruct H as [(_ & l & _ & ->)|[(_ & l & _ & ->)|[(_ & l & _ & ->)|[(_ & l & _ & ->)|(_ & ->)]]]];
    done.
Qed.

(** *** Intersection keeps only names of both sides *)

Lemma mergeInputFields_intersection a b r :
  NoDup (if_Name <$> a) → NoDup (if_Name <$> b) →
  mergeInputFields a b Intersection = Ok r →
  if_Name <$> r ⊆ if_Name <$> a ∧ if_Name <$> r ⊆ if_Name <$> b.
Proof.
  intros Ha Hb Hm. rewrite <- !(omap_Some_fmap if_Name).
  eapply (mergeByName_intersection_names if_key); try done;
    first [apply inputFieldSingle_Intersection | apply inputFieldPair_keepsName
          | unfold if_key; by rewrite omap_Some_fmap].
Qed.

Lemma mergeEnumValues_intersection a b r :
  NoDup (ev_Name <$> a) → NoDup (ev_Name <$> b) →
  mergeEnumValues a b Intersection = Ok r →
  ev_Name <$> r ⊆ ev_Name <$> a ∧ ev_Name <$> r ⊆ ev_Name <$> b.
Proof.
  intros Ha Hb Hm. rewrite <- !(omap_Some_fmap ev_Name).
  eapply (mergeByName_intersection_names ev_key); try done;
    first [apply keepSingle_Intersection | apply firstOfPair_keepsName
          | unfold ev_key; by rewrite omap_Some_fmap].
Qed.

Lemma mergePossibleTypes_intersection a b r :
  NoDup (omap pt_key a) → NoDup (omap pt_key b) →
  mergePossibleTypes a b Intersection = Ok r →
  omap pt_key r ⊆ omap pt_key a ∧ omap pt_key r ⊆ omap pt_key b.
Proof.
  intros Ha Hb Hm.
  eapply (mergeByName_intersection_names pt_key); try done;
    first [apply keepSingle_Intersection | apply firstOfPair_keepsName].
Qed.

Lemma mergeFields_intersection a b r f :
  NoDup (f_Name <$> a) → NoDup (f_Name <$> b) →
  Forall (λ f, NoDup (argNames f)) a → Forall (λ f, NoDup (argNames f)) b →
  mergeFields a b Intersection = Ok r → f ∈ r →
  (∃ g, g ∈ a ∧ f_Name g = f_Name f ∧ argNames f ⊆ argNames g) ∧
  (∃ g, g ∈ b ∧ f_Name g = f_Name f ∧ argNames f ⊆ argNames g).
Proof.
  intros Ha Hb Haa Hab Hm Hf.
  destruct (mergeByName_intersection f_key (keepSingle Intersection)
              (fieldPair Intersection) a b r f) as
    (n & x & y & Hx & Hy & Hkx & Hky & Hpair); try done;
    try first [apply keepSingle_Intersection | unfold f_key; by rewrite omap_Some_fmap].
  - apply fieldPair_Ok in Hpair as (typ & args & _ & Hargs & ->).
    rewrite Forall_forall in Haa, Hab.
    destruct (mergeInputFields_intersection _ _ _ (Haa x Hx) (Hab y Hy) Hargs) as [H1 H2].
    injection Hkx as Hkx. injection Hky as Hky.
    split; [exists x|exists y]; done.
Qed.

(** C3, as the code has it.  When no name is repeated within one list of
    either schema, every type of an Intersection merge carries the name of a
    type of [a] and of a type of [b], and each of its field, argument,
    input-field, enum-value and possible-type names occurs in both of
    them. *)
Theorem mergeSchemas_intersection_subset a b r :
  uniqueNames a → uniqueNames b →
  mergeSchemas (Some a) (Some b) Intersection = Ok r →
  ∀ t, t ∈ Types (Schema r) →
    ∃ ta tb, ta ∈ Types (Schema a) ∧ tb ∈ Types (Schema b) ∧
      t_Name ta = t_Name t ∧ t_Name tb = t_Name t ∧
      namesWithin t ta ∧ namesWithin t tb.
Proof.
  intros [Hna Hfa] [Hnb Hfb] (a' & b' & [= <-] & [= <-] & Hm)%mergeSchemas_Ok t Ht.
  destruct (mergeByName_intersection t_key (keepSingle Intersection)
              (typePair Intersection) (Types (Schema a)) (Types (Schema b))
              (Types (Schema r)) t) as
    (n & x & y & Hx & Hy & Hkx & Hky & Hpair); try done;
    try first [apply keepSingle_Intersection | unfold t_key; by rewrite omap_Some_fmap].
  injection Hkx as Hkx. injection Hky as Hky.
  rewrite Forall_forall in Hfa, Hfb.
  destruct (Hfa x Hx) as (Hx1 & Hx2 & Hx3 & Hx4 & Hx5).
  destruct (Hfb y Hy) as (Hy1 & Hy2 & Hy3 & Hy4 & Hy5).
  apply typePair_Ok, mergeTypes_Ok in Hpair as [_ Hcases].
  exists x, y. unfold namesWithin, inputFieldNames, enumValueNames, possibleTypeNames.
  destruct Hcases as [(_ & l & Hl & ->)|[(_ & l & Hl & ->)|[(_ & l & Hl & ->)|[(_ & l & Hl & ->)|(_ & ->)]]]];
    simpl; (do 4 (split; [done || congruence|])).
  - destruct (mergeInputFields_intersection _ _ _ Hx3 Hy3 Hl).
    split; (split; [by intros ? ?%not_elem_of_nil|]); repeat split; try done;
      by intros ? ?%not_elem_of_nil.
  - split; (split; [|repeat split; by intros ? ?%not_elem_of_nil]); intros f Hf;
      by destruct (mergeFields_intersection _ _ _ f Hx1 Hy1 Hx2 Hy2 Hl Hf).
  - destruct (mergePossibleTypes_intersection _ _ _ Hx4 Hy4 Hl).
    split; (split; [by intros ? ?%not_elem_of_nil|]); repeat split; try done;
      by intros ? ?%not_elem_of_nil.
  - destruct (mergeEnumValues_intersection _ _ _ Hx5 Hy5 Hl).
    split; (split; [by intros ? ?%not_elem_of_nil|]); repeat split; try done;
      by intros ? ?%not_elem_of_nil.
  - split; (split; [by intros ? ?%not_elem_of_nil|]); repeat split;
      by intros ? ?%not_elem_of_nil.
Qed.

(** C3 as stated fails: a type name repeated within [a] is merged with
    itself and kept, although [b] has no type of that name. *)
Lemma mergeSchemas_intersection_subset_counterexample :
  ∃ r, mergeSchemas (schemaOf [object "T" []; object "T" []]) (schemaOf []) Intersection = Ok r ∧
       "T" ∈ typeNames r ∧ "T" ∉ typeNames (QueryResult (ISchema [])).
Proof.
  eexists. split; [vm_compute; reflexivity|]. split.
  - left.
  - apply not_elem_of_nil.
Qed.

Lemma mergeSchemas_intersection_subset_witness :
  let a := QueryResult (ISchema
    [object "Query" [Field "a" (Some (NonNullOf (scalar "Int"))) [];
                     Field "c" (Some (scalar "Int"))
                       [InputField "x" (Some (scalar "Int")); InputField "y" (Some (scalar "Int"))]];
     IType "Color" "ENUM" [] [] [] [EnumValue "RED"; EnumValue "BLUE"]]) in
  let b := QueryResult (ISchema
    [IType "Color" "ENUM" [] [] [] [EnumValue "BLUE"; EnumValue "GREEN"];
     object "Query" [Field "b" (Some (scalar "String")) [];
                     Field "c" (Some (scalar "Int")) [InputField "x" (Some (scalar "Int"))]]]) in
  let r := QueryResult (ISchema
    [IType "Color" "ENUM" [] [] [] [EnumValue "BLUE"];
     object "Query" [Field "c" (Some (scalar "Int")) [InputField "x" (Some (scalar "Int"))]]]) in
  mergeSchemas (Some a) (Some b) Intersection = Ok r ∧
  ∀ t, t ∈ Types (Schema r) →
    ∃ ta tb, ta ∈ Types (Schema a) ∧ tb ∈ Types (Schema b) ∧
      t_Name ta = t_Name t ∧ t_Name tb = t_Name t ∧
      namesWithin t ta ∧ namesWithin t tb.
Proof.
  intros a b r. split; [vm_compute; reflexivity|].
  apply (mergeSchemas_intersection_subset a b r).
  - apply (bool_decide_unpack _). vm_compute. exact I.
  - apply (bool_decide_unpack _). vm_compute. exact I.
  - vm_compute. reflexivity.
Defined.

(** *** Union keeps the names of either side *)

Lemma mergeInputFields_union a b r :
  mergeInputFields a b Union = Ok r →
  if_Name <$> a ⊆ if_Name <$> r ∧ if_Name <$> b ⊆ if_Name <$> r.
Proof.
  intros Hm. rewrite <- !(omap_Some_fmap if_Name).
  eapply (mergeByName_union_names if_key); try done;
    first [apply inputFieldSingle_Union | apply inputFieldPair_keepsName].
Qed.

Lemma mergeFields_union a b r :
  mergeFields a b Union = Ok r →
  f_Name <$> a ⊆ f_Name <$> r ∧ f_Name <$> b ⊆ f_Name <$> r.
Proof.
  intros Hm. rewrite <- !(omap_Some_fmap f_Name).
  eapply (mergeByName_union_names f_key); try done;
    first [apply keepSingle_Union | apply fieldPair_keepsName].
Qed.

Lemma mergeEnumValues_union a b r :
  mergeEnumValues a b Union = Ok r →
  ev_Name <$> a ⊆ ev_Name <$> r ∧ ev_Name <$> b ⊆ ev_Name <$> r.
Proof.
  intros Hm. rewrite <- !(omap_Some_fmap ev_Name).
  eapply (mergeByName_union_names ev_key); try done;
    first [apply keepSingle_Union | apply firstOfPair_keepsName].
Qed.

Lemma mergePossibleTypes_union a b r :
  mergePossibleTypes a b Union = Ok r →
  omap pt_key a ⊆ omap pt_key r ∧ omap pt_key b ⊆ omap pt_key r.
Proof.
  intros Hm.
  eapply (mergeByName_union_names pt_key); try done;
    first [apply keepSingle_Union | apply firstOfPair_keepsName].
Qed.

(** A Union merge of two types keeps the names of the collection that
    their kind selects, of both. *)
Lemma mergeTypes_union_selected p0 p1 m :
  mergeTypes p0 p1 Union = Ok m →
  t_Name m = t_Name p0 ∧ t_Kind m = t_Kind p0 ∧ t_Kind m = t_Kind p1 ∧
  selectedNamesWithin p0 m ∧ selectedNamesWithin p1 m.
Proof.
  intros [Hk Hcases]%mergeTypes_Ok.
  unfold selectedNamesWithin, fieldNames, inputFieldNames, enumValueNames, possibleTypeNames.
  rewrite <- Hk.
  destruct Hcases as [(K & l & Hl & ->)|[(K & l & Hl & ->)|[(K & l & Hl & ->)|[(K & l & Hl & ->)|(K & ->)]]]];
    simpl; (do 3 (split; [done|])); rewrite K.
  - destruct (mergeInputFields_union _ _ _ Hl). by repeat split.
  - destruct (mergeFields_union _ _ _ Hl). by repeat split.
  - destruct (mergePossibleTypes_union _ _ _ Hl). by repeat split.
  - destruct (mergeEnumValues_union _ _ _ Hl). by repeat split.
  - by repeat split.
Qed.

(** C6, as the code has it.  Every type name of [a] or [b] is a type name of
    a Union merge.  When no type name is repeated within [a] or within [b],
    every type of either side has a merged type of the same name and kind
    that is either that type unchanged (the name is on one side only) or
    carries every name of the collection that the kind selects. *)
Theorem mergeSchemas_union_superset a b r :
  mergeSchemas (Some a) (Some b) Union = Ok r →
  (typeNames a ⊆ typeNames r ∧ typeNames b ⊆ typeNames r) ∧
  (uniqueTypeNames a → uniqueTypeNames b →
   ∀ ta, ta ∈ Types (Schema a) ++ Types (Schema b) →
     ∃ t, t ∈ Types (Schema r) ∧ t_Name t = t_Name ta ∧ t_Kind t = t_Kind ta ∧
          (t = ta ∨ selectedNamesWithin ta t)).
Proof.
  intros (a' & b' & [= <-] & [= <-] & Hm)%mergeSchemas_Ok. split.
  - unfold typeNames. rewrite <- !(omap_Some_fmap t_Name).
    eapply (mergeByName_union_names t_key); try done;
      first [apply keepSingle_Union | apply typePair_keepsName].
  - intros Hna Hnb ta Hta.
    destruct (mergeByName_union t_key (keepSingle Union) (typePair Union) _ _ _ ta
                (@keepSingle_Union _) Hm Hta)
      as (n & Hn & [[_ Hr]|(p0 & p1 & rest & m & Hocc & Hpair & Hr)]).
    + exists ta. repeat split; try done. by left.
    + assert (ta ∈ p0 :: p1 :: rest) as Hin by (rewrite <- Hocc; by apply occ_elem).
      pose proof (occ_cons_key _ _ _ _ _ Hocc) as [Hkey0 _].
      apply (occ_two_sides t_key) in Hocc as (_ & _ & ->);
        [|unfold t_key; by rewrite omap_Some_fmap..].
      apply typePair_Ok, mergeTypes_union_selected in Hpair as (Hname & Hk0 & Hk1 & Hs0 & Hs1).
      injection Hn as Hn. injection Hkey0 as Hkey0.
      exists m. split; [done|].
      apply elem_of_cons in Hin as [->|Hin].
      * repeat split; try done. by right.
      * apply list_elem_of_singleton in Hin as ->.
        repeat split; try congruence. by right.
Qed.


(** C6 as stated fails: of three types of one name in [a], the merge uses
    the first two and ignores the third, so the field [h] is lost. *)
Lemma mergeSchemas_union_superset_counterexample :
  let third := object "T" [Field "h" (Some (scalar "Int")) []] in
  let a := schemaOf [object "T" [Field "f" (Some (scalar "Int")) []];
                     object "T" [Field "g" (Some (scalar "Int")) []];
                     third] in
  ∃ r t, mergeSchemas a (schemaOf []) Union = Ok r ∧
    Types (Schema r) = [t] ∧ t_Name t = t_Name third ∧
    "h" ∈ fieldNames third ∧ "h" ∉ fieldNames t.
Proof.
  do 2 eexists. split; [vm_compute; reflexivity|]. split; [reflexivity|].
  split; [reflexivity|]. split; [left|].
  apply (bool_decide_unpack _). vm_compute. exact I.
Qed.

(** The collections that the kind does not select are not merged: enum
    values recorded on an OBJECT are dropped when the type is on both sides. *)
Example union_drops_unselected_collections :
  mergeSchemas (schemaOf [IType "T" "OBJECT" [] [] [] [EnumValue "X"]])
               (schemaOf [IType "T" "OBJECT" [] [] [] []]) Union
  = Ok (QueryResult (ISchema [IType "T" "OBJECT" [] [] [] []])).
Proof. vm_compute. reflexivity. Qed.

Lemma mergeSchemas_union_superset_witness :
  let a := QueryResult (ISchema
    [object "Query" [Field "a" (Some (NonNullOf (scalar "Int"))) []];
     IType "Color" "ENUM" [] [] [] [EnumValue "RED"]]) in
  let b := QueryResult (ISchema
    [object "Query" [Field "b" (Some (scalar "String")) []]]) in
  let r := QueryResult (ISchema
    [IType "Color" "ENUM" [] [] [] [EnumValue "RED"];
     object "Query" [Field "a" (Some (NonNullOf (scalar "Int"))) [];
                     Field "b" (Some (scalar "String")) []]]) in
  (typeNames a ⊆ typeNames r ∧ typeNames b ⊆ typeNames r) ∧
  ∀ ta, ta ∈ Types (Schema a) ++ Types (Schema b) →
    ∃ t, t ∈ Types (Schema r) ∧ t_Name t = t_Name ta ∧ t_Kind t = t_Kind ta ∧
         (t = ta ∨ selectedNamesWithin ta t).
Proof.
  intros a b r.
  assert (mergeSchemas (Some a) (Some b) Union = Ok r) as Hm by (vm_compute; reflexivity).
  destruct (mergeSchemas_union_superset a b r Hm) as [Hnames Htypes].
  split; [exact Hnames|].
  apply Htypes; apply (bool_decide_unpack _); vm_compute; exact I.
Defined.

(** ** Swapping the two sides of a merge *)

Lemma mergeTypeRefs_comm a b isInput r :
  mergeTypeRefs a b isInput = Ok r → mergeTypeRefs b a isInput = Ok r.
Proof.
  revert r. pattern a, b. apply ref_pair_ind. clear a b.
  intros a b IH r Hm.
  destruct (mergeTypeRefs_Ok_Some _ _ _ _ Hm) as (a' & b' & -> & ->).
  rewrite mergeTypeRefs_body.
  destruct (mergeTypeRefs_Ok_inv _ _ _ _ Hm)
    as [(E & merged & Hrec & ->)|[(E & Hb & Hk & Hn & ->)|(E & Hl & Hl' & inner & Hrec & ->)]].
  - rewrite orb_comm, E. rewrite (IH _ _ (strip_size_lt _ _ E) _ Hrec). simpl.
    rewrite (andb_comm (isNonNull b')).
    by destruct (isInput || isNonNull a' && isNonNull b').
  - rewrite orb_comm, E, <- Hk, <- Hn, !String.eqb_refl, Hb. done.
  - rewrite orb_comm, E, Hl, Hl'. simpl.
    by rewrite (IH _ _ (ofType_size_lt _ _) _ Hrec).
Qed.

Section MergeComm.
Context {T : Type}.
Variable key : T → option string.
Variable single : string → T → result (list T).
Variable pair : string → T → T → result T.
Variable R : T → T → Prop.
Variable W : T → Prop.

Hypothesis R_refl : ∀ x, R x x.
Hypothesis pair_swap : ∀ n x y m,
  W x → W y → key x = Some n → key y = Some n →
  pair n x y = Ok m → ∃ m', pair n y x = Ok m' ∧ R m m'.

Lemma Forall2_diag (l : list T) : Forall2 R l l.
Proof. induction l; constructor; auto. Qed.

Lemma entryOf_swap a b n x :
  NoDup (omap key a) → NoDup (omap key b) → Forall W a → Forall W b →
  entryOf key single pair (a ++ b) n = Ok x →
  ∃ y, entryOf key single pair (b ++ a) n = Ok y ∧ Forall2 R x y.
Proof.
  intros Ha%(occ_unique key n) Hb%(occ_unique key n) HWa HWb.
  unfold entryOf. rewrite !occ_app.
  destruct (occ key n a) as [|xa [|??]] eqn:Ea, (occ key n b) as [|yb [|??]] eqn:Eb;
    simpl in *; try lia; try done.
  - intros Hs. exists x. split; [done|apply Forall2_diag].
  - intros Hs. exists x. split; [done|apply Forall2_diag].
  - apply occ_cons_key in Ea as [Hka Hina]. apply occ_cons_key in Eb as [Hkb Hinb].
    rewrite Forall_forall in HWa, HWb.
    destruct (pair n xa yb) as [m| |] eqn:Hp; simpl; try done. intros [= <-].
    destruct (pair_swap _ _ _ _ (HWa _ Hina) (HWb _ Hinb) Hka Hkb Hp) as (m' & -> & HR).
    simpl. eexists. split; [done|]. by constructor.
Qed.

Lemma mergeByName_comm a b r :
  NoDup (omap key a) → NoDup (omap key b) → Forall W a → Forall W b →
  mergeByName key single pair a b = Ok r →
  ∃ r', mergeByName key single pair b a = Ok r' ∧ Forall2 R r r'.
Proof.
  intros Ha Hb HWa HWb [Hkeys Hm]%mergeByName_Ok.
  rewrite mergeByName_list_eq. unfold mergeByName_list.
  rewrite (proj2 (forallb_bool_decide _ (b ++ a))).
  2:{ apply Forall_app in Hkeys as [? ?]. by apply Forall_app. }
  rewrite (namesOf_Permutation key (b ++ a) (a ++ b)) by apply Permutation_app_comm.
  eapply mapConcat_rel; [|exact Hm].
  intros n x _ Hx. by apply entryOf_swap.
Qed.
End MergeComm.

Lemma Forall2_eq_eq {A} (l k : list A) : Forall2 eq l k → l = k.
Proof. induction 1; congruence. Qed.

Lemma inputFieldPair_swap n x y m :
  inputFieldPair n x y = Ok m → inputFieldPair n y x = Ok m.
Proof.
  intros (t & Ht & ->)%inputFieldPair_Ok. unfold inputFieldPair.
  by rewrite (mergeTypeRefs_comm _ _ _ _ Ht).
Qed.

Lemma mergeInputFields_comm a b mode r :
  NoDup (if_Name <$> a) → NoDup (if_Name <$> b) →
  mergeInputFields a b mode = Ok r → mergeInputFields b a mode = Ok r.
Proof.
  intros Ha Hb Hm.
  destruct (mergeByName_comm if_key (inputFieldSingle mode) inputFieldPair eq (λ _, True))
    with (a := a) (b := b) (r := r) as (r' & Hr' & Heq);
    [done| |by rewrite omap_if_key|by rewrite omap_if_key
    |by apply Forall_forall|by apply Forall_forall|done|].
  - intros n x y m _ _ _ _ Hp. exists m. split; [by apply inputFieldPair_swap|done].
  - apply Forall2_eq_eq in Heq as ->. done.
Qed.

Lemma fieldPair_swap mode n x y m :
  NoDup (argNames x) → NoDup (argNames y) →
  fieldPair mode n x y = Ok m → fieldPair mode n y x = Ok m.
Proof.
  intros Hx Hy (typ & args & Ht & Ha & ->)%fieldPair_Ok. unfold fieldPair.
  rewrite (mergeTypeRefs_comm _ _ _ _ Ht). simpl.
  by rewrite (mergeInputFields_comm _ _ _ _ Hx Hy Ha).
Qed.

Lemma mergeFields_comm a b mode r :
  NoDup (f_Name <$> a) → NoDup (f_Name <$> b) →
  Forall (λ f, NoDup (argNames f)) a → Forall (λ f, NoDup (argNames f)) b →
  mergeFields a b mode = Ok r → mergeFields b a mode = Ok r.
Proof.
  intros Ha Hb HWa HWb Hm.
  destruct (mergeByName_comm f_key (keepSingle mode) (fieldPair mode) eq
              (λ f, NoDup (argNames f)))
    with (a := a) (b := b) (r := r) as (r' & Hr' & Heq);
    [done| |by rewrite omap_f_key|by rewrite omap_f_key|done|done|done|].
  - intros n x y m Hx Hy _ _ Hp. exists m. split; [by apply fieldPair_swap|done].
  - apply Forall2_eq_eq in Heq as ->. done.
Qed.

Lemma mergeEnumValues_comm a b mode r :
  NoDup (ev_Name <$> a) → NoDup (ev_Name <$> b) →
  mergeEnumValues a b mode = Ok r → mergeEnumValues b a mode = Ok r.
Proof.
  intros Ha Hb Hm.
  destruct (mergeByName_comm ev_key (keepSingle mode) firstOfPair eq (λ _, True))
    with (a := a) (b := b) (r := r) as (r' & Hr' & Heq);
    [done| |by rewrite omap_ev_key|by rewrite omap_ev_key
    |by apply Forall_forall|by apply Forall_forall|done|].
  - intros n [x] [y] m _ _ [= ->] [= ->] [= <-]. by exists (EnumValue n).
  - apply Forall2_eq_eq in Heq as ->. done.
Qed.

Lemma mergePossibleTypes_comm a b mode r :
  NoDup (omap pt_key a) → NoDup (omap pt_key b) →
  mergePossibleTypes a b mode = Ok r →
  ∃ r', mergePossibleTypes b a mode = Ok r' ∧ omap pt_key r = omap pt_key r'.
Proof.
  intros Ha Hb Hm.
  destruct (mergeByName_comm pt_key (keepSingle mode) firstOfPair
              (λ x y, pt_key x = pt_key y) (λ _, True))
    with (a := a) (b := b) (r := r) as (r' & Hr' & Heq);
    [done| |done|done|by apply Forall_forall|by apply Forall_forall|done|].
  - intros n x y m _ _ Hx Hy [= <-]. exists y. split; [done|congruence].
  - exists r'. split; [done|]. clear -Heq.
    induction Heq as [|x y l k Hxy _ IH]; simpl; [done|].
    rewrite Hxy. destruct (pt_key y); [f_equal|]; exact IH.
Qed.

Lemma typePair_swap mode n x y m :
  uniqueFieldNames x → uniqueFieldNames y → t_key x = Some n → t_key y = Some n →
  typePair mode n x y = Ok m → ∃ m', typePair mode n y x = Ok m' ∧ sameShape m m'.
Proof.
  intros (Hx1 & Hx2 & Hx3 & Hx4 & Hx5) (Hy1 & Hy2 & Hy3 & Hy4 & Hy5) [= Hnx] [= Hny].
  intros [Hk Hcases]%typePair_Ok%mergeTypes_Ok.
  assert (t_Name y = t_Name x) as Hname by congruence.
  unfold typePair, mergeTypes. rewrite <- Hk, String.eqb_refl. simpl.
  destruct Hcases as [(K & l & Hl & ->)|[(K & l & Hl & ->)|[(K & l & Hl & ->)|[(K & l & Hl & ->)|(K & ->)]]]];
    rewrite K; simpl.
  - rewrite (mergeInputFields_comm _ _ _ _ Hx3 Hy3 Hl). simpl.
    eexists. split; [done|]. by repeat split.
  - rewrite (mergeFields_comm _ _ _ _ Hx1 Hy1 Hx2 Hy2 Hl). simpl.
    eexists. split; [done|]. by repeat split.
  - destruct (mergePossibleTypes_comm _ _ _ _ Hx4 Hy4 Hl) as (l' & -> & Hnames). simpl.
    eexists. split; [done|]. by repeat split.
  - rewrite (mergeEnumValues_comm _ _ _ _ Hx5 Hy5 Hl). simpl.
    eexists. split; [done|]. by repeat split.
  - eexists. split; [done|]. by repeat split.
Qed.

Lemma sameShape_refl t : sameShape t t.
Proof. by repeat split. Qed.

(** With unique names the merge commutes up to shape, and so does its
    success. *)
Lemma mergeSchemas_swap a b mode r1 :
  uniqueNames a → uniqueNames b →
  mergeSchemas (Some a) (Some b) mode = Ok r1 →
  ∃ r2, mergeSchemas (Some b) (Some a) mode = Ok r2 ∧
        Forall2 sameShape (Types (Schema r1)) (Types (Schema r2)).
Proof.
  intros [Hna Hfa] [Hnb Hfb] (a' & b' & [= <-] & [= <-] & Hm)%mergeSchemas_Ok.
  destruct (mergeByName_comm t_key (keepSingle mode) (typePair mode) sameShape
              uniqueFieldNames sameShape_refl (typePair_swap mode))
    with (a := Types (Schema a)) (b := Types (Schema b)) (r := Types (Schema r1))
    as (l & Hl & Hshape);
    [by rewrite omap_t_key|by rewrite omap_t_key|done|done|done|].
  unfold mergeSchemas. rewrite Hl. simpl. eexists. split; [done|]. done.
Qed.

(** C8, as the code has it.  When no name is repeated within one list of
    either schema and both merges succeed, the two results list the same
    type names in the same (sorted) order, and the types at each position
    have the same name, kind, fields (names, merged type references and
    arguments), input fields, enum values and possible-type names. *)
Theorem mergeSchemas_commutes a b mode r1 r2 :
  uniqueNames a → uniqueNames b →
  mergeSchemas (Some a) (Some b) mode = Ok r1 →
  mergeSchemas (Some b) (Some a) mode = Ok r2 →
  typeNames r1 = typeNames r2 ∧
  Forall2 sameShape (Types (Schema r1)) (Types (Schema r2)).
Proof.
  intros Ha Hb H1 H2.
  destruct (mergeSchemas_swap a b mode r1 Ha Hb H1) as (r2' & H2' & Hshape).
  rewrite H2 in H2'. injection H2' as <-. split; [|done].
  unfold typeNames. clear -Hshape.
  induction Hshape as [|t u l k (Hn & _) _ IH]; simpl; [done|].
  rewrite Hn. f_equal. exact IH.
Qed.

(** C8 as stated fails: with a type name repeated within each schema, each
    merge uses the two types of its first argument, and the kinds differ. *)
Lemma mergeSchemas_commutes_counterexample :
  let a := schemaOf [object "T" []; object "T" []] in
  let b := schemaOf [IType "T" "SCALAR" [] [] [] []; IType "T" "SCALAR" [] [] [] []] in
  mergeSchemas a b Union = Ok (QueryResult (ISchema [object "T" []])) ∧
  mergeSchemas b a Union = Ok (QueryResult (ISchema [IType "T" "SCALAR" [] [] [] []])) ∧
  t_Kind (object "T" []) ≠ t_Kind (IType "T" "SCALAR" [] [] [] []).
Proof. vm_compute. done. Qed.

Lemma mergeSchemas_commutes_witness :
  let a := QueryResult (ISchema
    [object "Query" [Field "f" (Some (NonNullOf (scalar "Int")))
                       [InputField "x" (Some (scalar "Int"))];
                     Field "a" (Some (scalar "Int")) []];
     IType "U" "UNION" [] [] [Some (TypeRef "OBJECT" "A" None)] []]) in
  let b := QueryResult (ISchema
    [IType "U" "UNION" [] [] [Some (TypeRef "OBJECT" "B" None); Some (TypeRef "" "A" None)] [];
     object "Query" [Field "f" (Some (scalar "Int"))
                       [InputField "x" (Some (NonNullOf (scalar "Int")))]]]) in
  let r1 := QueryResult (ISchema
    [object "Query" [Field "a" (Some (scalar "Int")) [];
                     Field "f" (Some (scalar "Int"))
                       [InputField "x" (Some (NonNullOf (scalar "Int")))]];
     IType "U" "UNION" [] [] [Some (TypeRef "OBJECT" "A" None); Some (TypeRef "OBJECT" "B" None)] []]) in
  let r2 := QueryResult (ISchema
    [object "Query" [Field "a" (Some (scalar "Int")) [];
                     Field "f" (Some (scalar "Int"))
                       [InputField "x" (Some (NonNullOf (scalar "Int")))]];
     IType "U" "UNION" [] [] [Some (TypeRef "" "A" None); Some (TypeRef "OBJECT" "B" None)] []]) in
  typeNames r1 = typeNames r2 ∧
  Forall2 sameShape (Types (Schema r1)) (Types (Schema r2)).
Proof.
  intros a b r1 r2. apply (mergeSchemas_commutes a b Union r1 r2).
  - apply (bool_decide_unpack _). vm_compute. exact I.
  - apply (bool_decide_unpack _). vm_compute. exact I.
  - vm_compute. reflexivity.
  - vm_compute. reflexivity.
Defined.

(** ** Further properties of the type merger *)

Lemma shapeOf_strip a : isNonNull a = true → shapeOfRef (strip a) = shapeOf a.
Proof.
  intros E. unfold strip. rewrite E. destruct a as [k n [u|]]; simpl in *; by rewrite E.
Qed.

Lemma shapeOf_strip_id a : isNonNull a = false → strip a = Some a.
Proof. intros E. unfold strip. by rewrite E. Qed.

Lemma shapeOf_not_nonnull a :
  isNonNull a = false →
  shapeOf a =
    if isBasicKind (tr_Kind a) then Some (NamedShape (tr_Kind a) (tr_Name a))
    else if String.eqb (tr_Kind a) "LIST" then ListShape <$> shapeOfRef (tr_OfType a)
    else None.
Proof. intros E. destruct a as [k n [u|]]; simpl in *; by rewrite E. Qed.

Lemma shapeOf_strips a b :
  isNonNull a || isNonNull b = true →
  shapeOfRef (strip a) = shapeOf a ∧ shapeOfRef (strip b) = shapeOf b.
Proof.
  intros E. split.
  - destruct (isNonNull a) eqn:Ea; [by apply shapeOf_strip|by rewrite shapeOf_strip_id].
  - destruct (isNonNull b) eqn:Eb; [by apply shapeOf_strip|by rewrite shapeOf_strip_id].
Qed.

Lemma mergeTypeRefs_shape a b isInput r :
  mergeTypeRefs a b isInput = Ok r →
  ∃ s, shapeOfRef a = Some s ∧ shapeOfRef b = Some s ∧ shapeOf r = Some s.
Proof.
  revert r. pattern a, b. apply ref_pair_ind. clear a b.
  intros a b IH r Hm.
  destruct (mergeTypeRefs_Ok_Some _ _ _ _ Hm) as (a' & b' & -> & ->). simpl.
  destruct (mergeTypeRefs_Ok_inv _ _ _ _ Hm)
    as [(E & merged & Hrec & ->)|[(E & Hb & Hk & Hn & ->)|(E & Hl & Hl' & inner & Hrec & ->)]].
  - destruct (IH _ _ (strip_size_lt _ _ E) _ Hrec) as (s & Ha & Hb & Hr).
    destruct (shapeOf_strips _ _ E) as [Ea Eb]. rewrite Ea in Ha. rewrite Eb in Hb.
    exists s. repeat split; try done.
    by destruct (isInput || isNonNull a' && isNonNull b').
  - apply orb_false_elim in E as [Ea Eb].
    rewrite (shapeOf_not_nonnull a' Ea), (shapeOf_not_nonnull b' Eb), <- Hk, <- Hn, Hb.
    exists (NamedShape (tr_Kind a') (tr_Name a')). repeat split.
    simpl. unfold isNonNull. simpl. by rewrite (isBasicKind_not_NON_NULL _ Hb), Hb.
  - apply orb_false_elim in E as [Ea Eb].
    destruct (IH _ _ (ofType_size_lt _ _) _ Hrec) as (s & Ha & Hb & Hr).
    rewrite (shapeOf_not_nonnull a' Ea), (shapeOf_not_nonnull b' Eb), Hl, Hl'. simpl.
    rewrite Ha, Hb. exists (ListShape s). repeat split. simpl. by rewrite Hr.
Qed.

Lemma mergeTypeRefs_same_shape a b isInput s :
  shapeOfRef a = Some s → shapeOfRef b = Some s →
  ∃ r, mergeTypeRefs a b isInput = Ok r.
Proof.
  revert s. pattern a, b. apply ref_pair_ind. clear a b.
  intros a b IH s Ha Hb.
  destruct a as [a|]; [|done]. destruct b as [b|]; [|done]. simpl in *.
  rewrite mergeTypeRefs_body.
  destruct (isNonNull a || isNonNull b) eqn:E.
  - destruct (shapeOf_strips _ _ E) as [Ea Eb].
    destruct (IH (strip a) (strip b) (strip_size_lt _ _ E) s) as [m ->]; [congruence..|].
    simpl. destruct (isInput || isNonNull a && isNonNull b); eauto.
  - apply orb_false_elim in E as [Ea Eb].
    rewrite (shapeOf_not_nonnull a Ea) in Ha. rewrite (shapeOf_not_nonnull b Eb) in Hb.
    destruct (isBasicKind (tr_Kind a)) eqn:Hka.
    + injection Ha as <-.
      destruct (isBasicKind (tr_Kind b)) eqn:Hkb.
      * injection Hb as -> ->. rewrite !String.eqb_refl. simpl. eauto.
      * destruct (String.eqb (tr_Kind b) "LIST"); [|done].
        by destruct (shapeOfRef (tr_OfType b)).
    + destruct (String.eqb_spec (tr_Kind a) "LIST") as [Hl|]; [|done].
      destruct (shapeOfRef (tr_OfType a)) as [sa|] eqn:Hsa; [|done].
      simpl in Ha. injection Ha as <-.
      destruct (isBasicKind (tr_Kind b)) eqn:Hkb; [done|].
      destruct (String.eqb_spec (tr_Kind b) "LIST") as [Hl'|]; [|done].
      destruct (shapeOfRef (tr_OfType b)) as [sb|] eqn:Hsb; [|done].
      simpl in Hb. injection Hb as ->.
      rewrite Hl, Hl'. simpl.
      destruct (IH (tr_OfType a) (tr_OfType b) (ofType_size_lt _ _) sa) as [m ->]; [done..|].
      simpl. eauto.
Qed.

(** X1. Two type references merge exactly when they are the same once the
    NON_NULL wrappers are taken off, and the merged reference is again that
    same type: [mergeTypeRefs] succeeds iff both references have the same
    shape, and the result has it too. *)
Theorem mergeTypeRefs_compatible a b isInput :
  (∀ r, mergeTypeRefs a b isInput = Ok r →
     ∃ s, shapeOfRef a = Some s ∧ shapeOfRef b = Some s ∧ shapeOf r = Some s) ∧
  (∀ s, shapeOfRef a = Some s → shapeOfRef b = Some s →
     ∃ r, mergeTypeRefs a b isInput = Ok r).
Proof.
  split.
  - intros r. apply mergeTypeRefs_shape.
  - intros s. apply mergeTypeRefs_same_shape.
Qed.

Lemma mergeTypeRefs_compatible_witness :
  (∃ s, shapeOfRef (Some (NonNullOf (ListOf (scalar "Int")))) = Some s ∧
        shapeOfRef (Some (ListOf (NonNullOf (scalar "Int")))) = Some s ∧
        shapeOf (ListOf (scalar "Int")) = Some s) ∧
  (∃ r, mergeTypeRefs (Some (NonNullOf (ListOf (scalar "Int"))))
          (Some (ListOf (NonNullOf (scalar "Int")))) true = Ok r).
Proof.
  split.
  - apply (proj1 (mergeTypeRefs_compatible (Some (NonNullOf (ListOf (scalar "Int"))))
                    (Some (ListOf (NonNullOf (scalar "Int")))) false)).
    vm_compute. reflexivity.
  - apply (proj2 (mergeTypeRefs_compatible (Some (NonNullOf (ListOf (scalar "Int"))))
                    (Some (ListOf (NonNullOf (scalar "Int")))) true)
             (ListShape (NamedShape "SCALAR" "Int"))); vm_compute; reflexivity.
Defined.


Lemma sameFailure_refl {A} (r : result A) : sameFailure r r.
Proof. by destruct r. Qed.

Lemma sameFailure_bind {A B A' B'} (r1 : result A) (r2 : result A')
    (k1 : A → result B) (k2 : A' → result B') :
  sameFailure r1 r2 → (∀ x y, r1 = Ok x → r2 = Ok y → sameFailure (k1 x) (k2 y)) →
  sameFailure (r1 ≫= k1) (r2 ≫= k2).
Proof. destruct r1, r2; simpl; try done. intros _ H. by apply H. Qed.

Lemma sameFailure_wrapErr {A B} (f : string → string) (r1 : result A) (r2 : result B) :
  sameFailure r1 r2 → sameFailure (wrapErr f r1) (wrapErr f r2).
Proof. destruct r1, r2; simpl; try done. by intros ->. Qed.

Lemma sameFailure_Err {A B} (r1 : result A) (r2 : result B) e :
  sameFailure r1 r2 → r1 = Err e ↔ r2 = Err e.
Proof. intros H. destruct r1, r2; simpl in H; try done; subst; split; congruence. Qed.

Lemma sameFailure_Panic {A B} (r1 : result A) (r2 : result B) :
  sameFailure r1 r2 → r1 = Panic ↔ r2 = Panic.
Proof. intros H. destruct r1, r2; simpl in H; try done; split; congruence. Qed.

Lemma sameFailure_isOk {A B} (r1 : result A) (r2 : result B) :
  sameFailure r1 r2 → isOk r1 = isOk r2.
Proof. destruct r1, r2; simpl; done. Qed.

Lemma mergeTypeRefs_sameFailure a b i j :
  sameFailure (mergeTypeRefs a b i) (mergeTypeRefs a b j).
Proof.
  pattern a, b. apply ref_pair_ind. clear a b. intros a b IH.
  destruct a as [a|]; [|by rewrite !mergeTypeRefs_nil_l].
  destruct b as [b|]; [|by rewrite !mergeTypeRefs_nil_r].
  rewrite !mergeTypeRefs_body.
  destruct (isNonNull a || isNonNull b) eqn:E.
  - apply sameFailure_bind; [by apply IH, strip_size_lt|].
    intros x y _ _.
    by destruct (i || isNonNull a && isNonNull b), (j || isNonNull a && isNonNull b).
  - destruct (negb (String.eqb (tr_Kind a) (tr_Kind b))); [done|].
    destruct (isBasicKind (tr_Kind a)).
    { by destruct (negb (String.eqb (tr_Name a) (tr_Name b))). }
    destruct (String.eqb (tr_Kind a) "LIST"); [|done].
    apply sameFailure_bind; [by apply IH, ofType_size_lt|done].
Qed.

(** X2. Whether a reference is merged as an input or as an output changes
    only the NON_NULL wrappers of the result: the two merges succeed
    together, fail with the same error, or panic together, and their results
    are the same type below the wrappers. *)
Theorem mergeTypeRefs_position_independent a b :
  sameFailure (mergeTypeRefs a b true) (mergeTypeRefs a b false) ∧
  (∀ e, mergeTypeRefs a b true = Err e ↔ mergeTypeRefs a b false = Err e) ∧
  (∀ r1 r2, mergeTypeRefs a b true = Ok r1 → mergeTypeRefs a b false = Ok r2 →
     shapeOf r1 = shapeOf r2).
Proof.
  split; [apply mergeTypeRefs_sameFailure|]. split.
  - intros e. apply sameFailure_Err, mergeTypeRefs_sameFailure.
  - intros r1 r2 (s1 & Ha1 & _ & ->)%mergeTypeRefs_shape (s2 & Ha2 & _ & ->)%mergeTypeRefs_shape.
    congruence.
Qed.

Lemma mergeTypeRefs_position_independent_witness :
  shapeOf (NonNullOf (scalar "Int")) = shapeOf (scalar "Int").
Proof.
  apply (proj2 (proj2 (mergeTypeRefs_position_independent
           (Some (NonNullOf (scalar "Int"))) (Some (scalar "Int")))));
    vm_compute; reflexivity.
Defined.

Lemma mergeTypeRefs_canonical_result a b isInput r :
  mergeTypeRefs a b isInput = Ok r → canonical r = true.
Proof.
  revert r. pattern a, b. apply ref_pair_ind. clear a b.
  intros a b IH r Hm.
  destruct (mergeTypeRefs_Ok_Some _ _ _ _ Hm) as (a' & b' & -> & ->).
  destruct (mergeTypeRefs_Ok_inv _ _ _ _ Hm)
    as [(E & merged & Hrec & ->)|[(E & Hb & Hk & Hn & ->)|(E & Hl & Hl' & inner & Hrec & ->)]].
  - pose proof (IH _ _ (strip_size_lt _ _ E) _ Hrec) as Hc.
    by destruct (isInput || isNonNull a' && isNonNull b').
  - done.
  - simpl. exact (IH _ _ (ofType_size_lt _ _) _ Hrec).
Qed.

(** Structural induction on a type reference. *)
Lemma typeRef_ind (P : introspectionTypeRef → Prop) :
  (∀ k n, P (TypeRef k n None)) →
  (∀ k n u, P u → P (TypeRef k n (Some u))) →
  ∀ t, P t.
Proof.
  intros H0 H1. fix IH 1. intros [k n [u|]]; [apply H1, IH|apply H0].
Qed.

Lemma mergeTypeRefs_canonical_self a isInput :
  canonical a = true → mergeTypeRefs (Some a) (Some a) isInput = Ok a.
Proof.
  induction a as [k n|k n u IH] using typeRef_ind.
  all: rewrite mergeTypeRefs_body; unfold isNonNull; simpl.
  2: { intros [[Hw ->%String.eqb_eq]%andb_true_iff Hu]%andb_true_iff.
    unfold isNonNull in Hw. simpl in Hw.
    destruct (String.eqb_spec k "NON_NULL") as [->|Hk]; simpl.
    + unfold strip, isNonNull. simpl. rewrite IH; [|done]. simpl.
      by rewrite orb_true_r.
    + simpl in Hw. apply String.eqb_eq in Hw as ->. simpl.
      rewrite IH; [|done]. done. }
  intros Hb. rewrite (isBasicKind_not_NON_NULL _ Hb). simpl.
  by rewrite !String.eqb_refl, Hb.
Qed.

(** X3. A merged reference is in canonical form (a wrapper has no name, a
    named type no inner reference), and merging a canonical reference with
    itself gives it back, in input and in output position. *)
Theorem mergeTypeRefs_canonical a b isInput :
  (∀ r, mergeTypeRefs a b isInput = Ok r → canonical r = true) ∧
  (∀ t, a = Some t → b = Some t → canonical t = true →
     mergeTypeRefs a b isInput = Ok t).
Proof.
  split.
  - intros r. apply mergeTypeRefs_canonical_result.
  - intros t -> -> Hc. by apply mergeTypeRefs_canonical_self.
Qed.

Lemma mergeTypeRefs_canonical_witness :
  canonical (NonNullOf (ListOf (scalar "Int"))) = true ∧
  mergeTypeRefs (Some (NonNullOf (ListOf (scalar "Int"))))
                (Some (NonNullOf (ListOf (scalar "Int")))) false
    = Ok (NonNullOf (ListOf (scalar "Int"))).
Proof.
  split.
  - apply (proj1 (mergeTypeRefs_canonical (Some (TypeRef "NON_NULL" "x" (Some (ListOf (scalar "Int")))))
                    (Some (NonNullOf (ListOf (TypeRef "SCALAR" "Int" (Some (scalar "Float"))))))
                    true)).
    vm_compute. reflexivity.
  - apply (proj2 (mergeTypeRefs_canonical _ _ false) _ eq_refl eq_refl).
    vm_compute. reflexivity.
Defined.


(** ** The names of a merged collection *)

Lemma StronglySorted_filter {A} (R : A → A → Prop) (P : A → Prop) `{∀ x, Decision (P x)} l :
  StronglySorted R l → StronglySorted R (filter P l).
Proof.
  induction 1 as [|x l Hs IH Hx]; [constructor|].
  rewrite filter_cons. destruct (decide (P x)); [|done].
  constructor; [done|]. apply Forall_forall. intros y [_ Hy]%list_elem_of_filter.
  rewrite Forall_forall in Hx. by apply Hx.
Qed.

Lemma filter_all {A} (P : A → Prop) `{∀ x, Decision (P x)} (l : list A) :
  (∀ x, x ∈ l → P x) → filter P l = l.
Proof.
  induction l as [|x l IH]; [done|]. intros HP.
  rewrite filter_cons, decide_True by (apply HP; left).
  f_equal. apply IH. intros y Hy. apply HP. by right.
Qed.

Lemma mergedNames_Sorted mode names : StronglySorted string_le (mergedNames mode names).
Proof. apply StronglySorted_filter, sortStrings_Sorted. Qed.

Lemma mergedNames_NoDup mode names : NoDup (mergedNames mode names).
Proof. apply NoDup_filter, sortStrings_NoDup, NoDup_remove_dups. Qed.

Lemma mergedNames_elem mode names n :
  n ∈ mergedNames mode names ↔
  n ∈ names ∧ (String.eqb mode Union = true ∨ (2 ≤ occurrences n names)%nat).
Proof.
  unfold mergedNames. rewrite list_elem_of_filter, sortStrings_elem, elem_of_remove_dups.
  tauto.
Qed.

Section MergedNames.
Context {T : Type}.
Variable key : T → option string.
Variable single : string → T → result (list T).
Variable pair : string → T → T → result T.
Variable mode : MergeMode.

Hypothesis single_keeps : ∀ n x l, single n x = Ok l → l = keepInUnion mode x.
Hypothesis pair_keeps : pairKeepsName key pair.

Implicit Types (l a b r : list T) (n name : string).

Lemma occ_length_names n l : List.length (occ key n l) = occurrences n (omap key l).
Proof.
  unfold occurrences, occ. induction l as [|x l IH]; [done|].
  rewrite filter_cons. simpl. destruct (key x) as [m|] eqn:Hk.
  - rewrite filter_cons. destruct (decide (m = n)) as [->|Hne].
    + rewrite decide_True by done. simpl. by rewrite IH.
    + rewrite decide_False by congruence. done.
  - rewrite decide_False by done. done.
Qed.

Lemma entryOf_names l n x :
  occ key n l ≠ [] → entryOf key single pair l n = Ok x →
  omap key x =
    if decide (String.eqb mode Union = true ∨ (2 ≤ occurrences n (omap key l))%nat)
    then [n] else [].
Proof.
  intros Hne. rewrite <- occ_length_names. unfold entryOf.
  destruct (occ key n l) as [|p0 [|p1 rest]] eqn:Hocc; [done| |].
  - intros ->%single_keeps. unfold keepInUnion. simpl.
    destruct (occ_cons_key _ _ _ _ _ Hocc) as [Hk _].
    destruct (String.eqb mode Union).
    + rewrite decide_True by auto. simpl. by rewrite Hk.
    + rewrite decide_False; [done|]. intros [?|?]; [done|lia].
  - destruct (pair n p0 p1) as [m| |] eqn:Hp; simpl; try done. intros [= <-].
    destruct (occ_cons_key _ _ _ _ _ Hocc) as [Hk _].
    rewrite decide_True by (right; lia). simpl.
    by rewrite (pair_keeps _ _ _ _ Hk Hp).
Qed.

Lemma mapConcat_names l names r :
  (∀ n, n ∈ names → occ key n l ≠ []) →
  mapConcat (entryOf key single pair l) names = Ok r →
  omap key r =
    filter (λ n, String.eqb mode Union = true ∨ (2 ≤ occurrences n (omap key l))%nat) names.
Proof.
  revert r. induction names as [|n names IH]; intros r Hne; simpl.
  - by intros [= <-].
  - destruct (entryOf key single pair l n) as [x| |] eqn:Hx; simpl; try done.
    destruct (mapConcat _ names) as [rs| |] eqn:Hrs; simpl; try done.
    intros [= <-]. rewrite omap_app, filter_cons.
    rewrite (entryOf_names _ _ _ (Hne n ltac:(left)) Hx).
    rewrite (IH rs) by (try done; intros; apply Hne; by right).
    by destruct (decide _).
Qed.

Lemma mergeByName_names a b r :
  mergeByName key single pair a b = Ok r →
  omap key r = mergedNames mode (omap key (a ++ b)).
Proof.
  intros [_ Hm]%mergeByName_Ok.
  apply mapConcat_names in Hm; [done|].
  intros n (x & Hx & Hk)%namesOf_elem Hocc.
  apply occ_nil_iff in Hocc. apply Hocc. apply list_elem_of_omap. eauto.
Qed.
End MergedNames.

Lemma keepSingle_keeps {T} mode n (x : T) l : keepSingle mode n x = Ok l → l = keepInUnion mode x.
Proof. by intros [= <-]. Qed.

Lemma mergeSchemas_names a b mode r :
  mergeSchemas (Some a) (Some b) mode = Ok r →
  typeNames r = mergedNames mode (typeNames a ++ typeNames b).
Proof.
  intros (a' & b' & [= <-] & [= <-] & Hm)%mergeSchemas_Ok.
  apply (mergeByName_names t_key _ _ mode (keepSingle_keeps mode) (typePair_keepsName mode)) in Hm.
  rewrite !omap_t_key, fmap_app in Hm. done.
Qed.

(** X4. The type names of a merged schema are determined by the type names
    of the two inputs: in Union mode they are the distinct names of both in
    sorted order, in any other mode those of them that occur at least twice.
    In particular they are sorted and none is repeated, whatever the
    inputs. *)
Theorem mergeSchemas_type_names a b mode r :
  mergeSchemas a b mode = Ok r →
  ∃ a' b', a = Some a' ∧ b = Some b' ∧
    typeNames r = mergedNames mode (typeNames a' ++ typeNames b') ∧
    (mode = Union →
     typeNames r = sortStrings (remove_dups (typeNames a' ++ typeNames b'))) ∧
    StronglySorted string_le (typeNames r) ∧ NoDup (typeNames r).
Proof.
  intros Hm. destruct (mergeSchemas_Ok _ _ _ _ Hm) as (a' & b' & -> & -> & _).
  exists a', b'. apply mergeSchemas_names in Hm. rewrite Hm.
  repeat split; [|apply mergedNames_Sorted|apply mergedNames_NoDup].
  intros ->. unfold mergedNames. apply filter_all. intros n _. by left.
Qed.

Lemma mergeSchemas_type_names_witness :
  let a := schemaOf [object "Query" []; IType "Color" "ENUM" [] [] [] [EnumValue "RED"]] in
  let b := schemaOf [object "Query" []; IType "Angle" "SCALAR" [] [] [] []] in
  let r := QueryResult (ISchema [object "Query" []]) in
  ∃ a' b', a = Some a' ∧ b = Some b' ∧
    typeNames r = mergedNames Intersection (typeNames a' ++ typeNames b') ∧
    (Intersection = Union →
     typeNames r = sortStrings (remove_dups (typeNames a' ++ typeNames b'))) ∧
    StronglySorted string_le (typeNames r) ∧ NoDup (typeNames r).
Proof.
  intros a b r. apply (mergeSchemas_type_names a b Intersection r).
  vm_compute. reflexivity.
Defined.


Lemma inputFieldSingle_keeps mode n x l :
  inputFieldSingle mode n x = Ok l → l = keepInUnion mode x.
Proof. apply inputFieldSingle_Ok. Qed.

(** X5. The field names of merged fields, and the names of merged input
    fields or arguments, are determined by the names of the two inputs, as
    for the types of a schema: sorted, none repeated; all of them in Union
    mode, those that occur at least twice otherwise. *)
Theorem merged_field_names mode :
  (∀ a b r, mergeFields a b mode = Ok r →
     f_Name <$> r = mergedNames mode (f_Name <$> a ++ b)) ∧
  (∀ a b r, mergeInputFields a b mode = Ok r →
     if_Name <$> r = mergedNames mode (if_Name <$> a ++ b)).
Proof.
  split; intros a b r Hm.
  - apply (mergeByName_names f_key _ _ mode (keepSingle_keeps mode) (fieldPair_keepsName mode)) in Hm.
    by rewrite !omap_f_key in Hm.
  - apply (mergeByName_names if_key _ _ mode (inputFieldSingle_keeps mode) inputFieldPair_keepsName) in Hm.
    by rewrite !omap_if_key in Hm.
Qed.

Lemma merged_field_names_witness :
  f_Name <$> [Field "a" (Some (scalar "Int")) []; Field "b" (Some (scalar "Int")) [];
              Field "c" (Some (scalar "Int")) []]
  = mergedNames Union (f_Name <$> [Field "c" (Some (scalar "Int")) []; Field "a" (Some (scalar "Int")) []]
                                   ++ [Field "b" (Some (scalar "Int")) []; Field "a" (Some (scalar "Int")) []]).
Proof.
  apply (proj1 (merged_field_names Union)
           [Field "c" (Some (scalar "Int")) []; Field "a" (Some (scalar "Int")) []]
           [Field "b" (Some (scalar "Int")) []; Field "a" (Some (scalar "Int")) []]).
  vm_compute. reflexivity.
Defined.

Section MergeTotal.
Context {T : Type}.
Variable key : T → option string.
Variable single : string → T → result (list T).
Variable pair : string → T → T → result T.

Implicit Types (l a b r : list T) (n name : string).

Lemma mergeByName_total a b :
  Forall (λ x, is_Some (key x)) (a ++ b) →
  (∀ n p0, occ key n (a ++ b) = [p0] → isOk (single n p0) = true) →
  (∀ n p0 p1 rest, occ key n (a ++ b) = p0 :: p1 :: rest → isOk (pair n p0 p1) = true) →
  ∃ r, mergeByName key single pair a b = Ok r.
Proof.
  intros Hk Hs Hp. rewrite mergeByName_list_eq. unfold mergeByName_list.
  rewrite (proj2 (forallb_bool_decide (λ x, is_Some (key x)) (a ++ b)) Hk).
  destruct (mapConcat_first_failure (entryOf key single pair (a ++ b)) (namesOf key (a ++ b)))
    as [Hok|(pre & n & post & Hnames & _ & Hfail & _)]; [done|].
  exfalso. assert (n ∈ namesOf key (a ++ b)) as Hn.
  { rewrite Hnames. apply elem_of_app. right. left. }
  apply namesOf_elem in Hn as (x & Hx & Hkx).
  unfold entryOf in Hfail.
  destruct (occ key n (a ++ b)) as [|p0 [|p1 rest]] eqn:Hocc.
  - apply occ_nil_iff in Hocc. apply Hocc, list_elem_of_omap. eauto.
  - by rewrite (Hs _ _ Hocc) in Hfail.
  - specialize (Hp _ _ _ _ Hocc). destruct (pair n p0 p1); done.
Qed.

Lemma mergeByName_Panic_key a b :
  ¬ Forall (λ x, is_Some (key x)) (a ++ b) → mergeByName key single pair a b = Panic.
Proof.
  intros Hk. rewrite mergeByName_list_eq. unfold mergeByName_list.
  destruct (forallb _ (a ++ b)) eqn:E; [|done].
  by apply (forallb_bool_decide (λ x, is_Some (key x))) in E.
Qed.

(** With [firstOfPair], what a successful merge holds under a name is the
    first occurrence of that name. *)
Lemma mergeByName_first a b r mode x :
  (∀ n y l, single n y = Ok l → l = keepInUnion mode y) →
  (∀ n p0 p1, pair n p0 p1 = Ok p0) →
  mergeByName key single pair a b = Ok r → x ∈ r →
  ∃ n, key x = Some n ∧ head (occ key n (a ++ b)) = Some x.
Proof.
  intros Hs Hp Hm Hx.
  destruct (mergeByName_Ok_elem _ _ _ _ _ _ _ Hm Hx)
    as (n & [(p0 & l & Hocc & Hl & Hin)|(p0 & p1 & rest & Hocc & Hpair)]).
  - apply Hs in Hl as ->. unfold keepInUnion in Hin.
    destruct (String.eqb mode Union); [|by apply elem_of_nil in Hin].
    apply list_elem_of_singleton in Hin as ->.
    exists n. rewrite Hocc. split; [|done]. by destruct (occ_cons_key _ _ _ _ _ Hocc).
  - rewrite Hp in Hpair. injection Hpair as <-.
    exists n. rewrite Hocc. split; [|done]. by destruct (occ_cons_key _ _ _ _ _ Hocc).
Qed.
End MergeTotal.

(** X6. Merging enum values cannot fail, and its result is known from the
    names alone: the enum values of the merged names, in their order. *)
Theorem mergeEnumValues_closed_form a b mode :
  mergeEnumValues a b mode = Ok (EnumValue <$> mergedNames mode (ev_Name <$> a ++ b)).
Proof.
  destruct (mergeByName_total ev_key (keepSingle mode) firstOfPair a b) as [r Hr]; try done.
  { apply Forall_forall. intros x _. by eexists. }
  unfold mergeEnumValues. rewrite Hr. f_equal.
  apply (mergeByName_names ev_key _ _ mode (keepSingle_keeps mode) (firstOfPair_keepsName _)) in Hr.
  rewrite !omap_ev_key in Hr. rewrite <- Hr.
  rewrite <- list_fmap_compose. clear Hr.
  induction r as [|[n] r IH]; [done|]. simpl. by f_equal.
Qed.

(** X7. Merging possible types never returns an error; it panics exactly
    when one of the references is nil.  When it succeeds, the names of the
    result are the merged names, and each member is the first reference of
    its name in the two inputs taken together. *)
Theorem mergePossibleTypes_total a b mode :
  (∀ e, mergePossibleTypes a b mode ≠ Err e) ∧
  (mergePossibleTypes a b mode = Panic ↔ None ∈ a ++ b) ∧
  (∀ r, mergePossibleTypes a b mode = Ok r →
     omap pt_key r = mergedNames mode (omap pt_key (a ++ b)) ∧
     ∀ x, x ∈ r → ∃ n, pt_key x = Some n ∧ head (occ pt_key n (a ++ b)) = Some x).
Proof.
  assert (Forall (λ x, is_Some (pt_key x)) (a ++ b) → None ∉ a ++ b) as Hkeys.
  { rewrite Forall_forall. intros H Hin. by destruct (H _ Hin). }
  assert (¬ Forall (λ x, is_Some (pt_key x)) (a ++ b) → None ∈ a ++ b) as Hnil.
  { intros (x & Hin & Hx)%not_Forall_Exists%Exists_exists; [|apply _].
    destruct x as [x|]; [|done]. destruct Hx. by eexists. }
  split; [|split].
  - intros e He. apply mergeByName_Err in He as (n & [(p0 & ?)|(p0 & p1 & ?)]); done.
  - split.
    + intros Hp. destruct (decide (Forall (λ x, is_Some (pt_key x)) (a ++ b))) as [Hk|Hk];
        [|by apply Hnil].
      destruct (mergeByName_total pt_key (keepSingle mode) firstOfPair a b) as [r Hr]; try done.
      unfold mergePossibleTypes in Hp. congruence.
    + intros Hin. apply mergeByName_Panic_key. intros Hk. by apply Hkeys in Hk.
  - intros r Hr. split.
    + apply (mergeByName_names pt_key _ _ mode (keepSingle_keeps mode) (firstOfPair_keepsName _)) in Hr.
      done.
    + intros x Hx.
      by apply (mergeByName_first pt_key (keepSingle mode) firstOfPair a b r mode x
                  (keepSingle_keeps mode)).
Qed.

Lemma mergePossibleTypes_total_witness :
  mergePossibleTypes [Some (TypeRef "OBJECT" "B" None); None] [Some (TypeRef "OBJECT" "A" None)] Union
    = Panic ∧
  omap pt_key [Some (TypeRef "OBJECT" "A" None); Some (TypeRef "OBJECT" "B" None)]
    = mergedNames Union (omap pt_key ([Some (TypeRef "OBJECT" "B" None); Some (TypeRef "OBJECT" "A" None)]
                                       ++ [Some (TypeRef "" "A" None)])).
Proof.
  split.
  - apply (proj1 (proj2 (mergePossibleTypes_total _ _ Union))).
    apply elem_of_app. left. right. left.
  - apply (proj2 (proj2 (mergePossibleTypes_total
             [Some (TypeRef "OBJECT" "B" None); Some (TypeRef "OBJECT" "A" None)]
             [Some (TypeRef "" "A" None)] Union))).
    vm_compute. reflexivity.
Defined.


(** ** Union and Intersection fail alike *)

Section MergeSameFailure.
Context {T : Type}.
Variable key : T → option string.
Variables single single' : string → T → result (list T).
Variables pair pair' : string → T → T → result T.

Hypothesis single_same : ∀ n x, sameFailure (single n x) (single' n x).
Hypothesis pair_same : ∀ n x y, sameFailure (pair n x y) (pair' n x y).

Lemma entryOf_sameFailure l n :
  sameFailure (entryOf key single pair l n) (entryOf key single' pair' l n).
Proof.
  unfold entryOf. destruct (occ key n l) as [|p0 [|p1 rest]]; [done|apply single_same|].
  apply sameFailure_bind; [apply pair_same|done].
Qed.

Lemma mapConcat_sameFailure (f g : string → result (list T)) names :
  (∀ n, sameFailure (f n) (g n)) → sameFailure (mapConcat f names) (mapConcat g names).
Proof.
  intros Hfg. induction names as [|n names IH]; [done|]. simpl.
  apply sameFailure_bind; [apply Hfg|]. intros ? ? _ _.
  apply sameFailure_bind; [apply IH|done].
Qed.

Lemma mergeByName_sameFailure a b :
  sameFailure (mergeByName key single pair a b) (mergeByName key single' pair' a b).
Proof.
  rewrite !mergeByName_list_eq. unfold mergeByName_list.
  destruct (forallb _ (a ++ b)); [|done].
  apply mapConcat_sameFailure. intros n. apply entryOf_sameFailure.
Qed.
End MergeSameFailure.

Lemma mergeInputFields_sameFailure a b mode mode' :
  sameFailure (mergeInputFields a b mode) (mergeInputFields a b mode').
Proof.
  apply mergeByName_sameFailure.
  - intros n x. unfold inputFieldSingle. destruct (if_Type x) as [t|]; [|done].
    by destruct (String.eqb (tr_Kind t) "NON_NULL").
  - intros n x y. apply sameFailure_refl.
Qed.

Lemma mergeFields_sameFailure a b mode mode' :
  sameFailure (mergeFields a b mode) (mergeFields a b mode').
Proof.
  apply mergeByName_sameFailure; [done|].
  intros n x y. unfold fieldPair.
  apply sameFailure_bind; [apply sameFailure_refl|]. intros ? ? _ _.
  apply sameFailure_bind; [|done].
  apply sameFailure_wrapErr, mergeInputFields_sameFailure.
Qed.

Lemma mergeTypes_sameFailure a b mode mode' :
  sameFailure (mergeTypes a b mode) (mergeTypes a b mode').
Proof.
  unfold mergeTypes. destruct (negb (String.eqb (t_Kind a) (t_Kind b))); [done|].
  repeat (destruct (String.eqb (t_Kind a) _);
          [apply sameFailure_bind; [apply sameFailure_wrapErr|done]|]).
  - apply mergeInputFields_sameFailure.
  - apply mergeFields_sameFailure.
  - by apply mergeByName_sameFailure.
  - by apply mergeByName_sameFailure.
  - by destruct (String.eqb (t_Kind a) _).
Qed.

(** X8. The merge mode decides what a successful merge keeps, never
    whether the merge succeeds: on the same two schemas, the Union merge and
    the Intersection merge both succeed, or both return the same error, or
    both panic; and the type names of the Intersection result are among
    those of the Union result. *)
Theorem mergeSchemas_mode_failure a b :
  sameFailure (mergeSchemas a b Union) (mergeSchemas a b Intersection) ∧
  (∀ e, mergeSchemas a b Union = Err e ↔ mergeSchemas a b Intersection = Err e) ∧
  (∀ ru ri, mergeSchemas a b Union = Ok ru → mergeSchemas a b Intersection = Ok ri →
     typeNames ri ⊆ typeNames ru).
Proof.
  assert (sameFailure (mergeSchemas a b Union) (mergeSchemas a b Intersection)) as Hsame.
  { unfold mergeSchemas. destruct a as [a|], b as [b|]; try done.
    apply sameFailure_bind; [|done].
    apply mergeByName_sameFailure; [done|].
    intros n x y. apply sameFailure_wrapErr, mergeTypes_sameFailure. }
  split; [done|]. split.
  - intros e. by apply sameFailure_Err.
  - intros ru ri Hu Hi.
    destruct (mergeSchemas_Ok _ _ _ _ Hu) as (a' & b' & -> & -> & _).
    apply mergeSchemas_names in Hu, Hi. rewrite Hu, Hi.
    intros n [Hn _]%mergedNames_elem. apply mergedNames_elem. split; [done|by left].
Qed.

Lemma mergeSchemas_mode_failure_witness :
  mergeSchemas (schemaOf [IType "X" "SCALAR" [] [] [] []])
               (schemaOf [IType "X" "OBJECT" [] [] [] []]) Intersection
    = Err "can't merge type X: conflicting kinds SCALAR and OBJECT" ∧
  typeNames (QueryResult (ISchema [object "Query" []])) ⊆
  typeNames (QueryResult (ISchema [IType "Color" "ENUM" [] [] [] []; object "Query" []])).
Proof.
  split.
  - apply (proj1 (proj2 (mergeSchemas_mode_failure _ _))). vm_compute. reflexivity.
  - apply (proj2 (proj2 (mergeSchemas_mode_failure
             (schemaOf [object "Query" []; IType "Color" "ENUM" [] [] [] []])
             (schemaOf [object "Query" []])))); vm_compute; reflexivity.
Defined.

(** ** The empty schema *)

Lemma uniqueTypeNames_occ a n :
  NoDup (t_Name <$> a) → (List.length (occ t_key n a) ≤ 1)%nat.
Proof. intros Hnd. apply occ_unique. by rewrite omap_t_key. Qed.

Lemma mergeByName_nil_l {T} (key : T → option string) single pair (a : list T) :
  mergeByName key single pair [] a = mergeByName key single pair a [].
Proof. by rewrite !mergeByName_list_eq; unfold mergeByName_list; rewrite app_nil_r. Qed.

Lemma mergeTypes_alone a mode :
  NoDup (t_Name <$> a) →
  ∃ r, mergeByName t_key (keepSingle mode) (typePair mode) a [] = Ok r ∧
       (∀ x, x ∈ r → x ∈ a) ∧
       (mode = Union → ∀ x, x ∈ a → x ∈ r) ∧
       (mode = Intersection → r = []).
Proof.
  intros Hnd.
  assert (∀ n p0 p1 rest, occ t_key n (a ++ []) ≠ p0 :: p1 :: rest) as Hone.
  { intros n p0 p1 rest Hocc. rewrite app_nil_r in Hocc.
    pose proof (uniqueTypeNames_occ a n Hnd) as Hle. rewrite Hocc in Hle. simpl in Hle. lia. }
  destruct (mergeByName_total t_key (keepSingle mode) (typePair mode) a []) as [r Hr].
  { apply Forall_forall. intros x _. by eexists. }
  { done. }
  { intros n p0 p1 rest Hocc. by apply Hone in Hocc. }
  exists r. split; [done|]. split; [|split].
  - intros x Hx.
    destruct (mergeByName_Ok_elem _ _ _ _ _ _ _ Hr Hx)
      as (n & [(p0 & l & Hocc & [= <-] & Hin)|(p0 & p1 & rest & Hocc & _)]);
      [|by apply Hone in Hocc].
    unfold keepInUnion in Hin. destruct (String.eqb mode Union); [|by apply elem_of_nil in Hin].
    apply list_elem_of_singleton in Hin as ->.
    destruct (occ_cons_key _ _ _ _ _ Hocc) as [_ Hin]. by rewrite app_nil_r in Hin.
  - intros -> x Hx.
    destruct (mergeByName_union t_key (keepSingle Union) (typePair Union) a [] r x)
      as (n & _ & [[_ ?]|(p0 & p1 & rest & m & Hocc & _)]); try done.
    + apply keepSingle_Union.
    + by rewrite app_nil_r.
    + by apply Hone in Hocc.
  - intros ->.
    pose proof (mergeByName_names t_key _ _ Intersection (keepSingle_keeps Intersection)
                  (typePair_keepsName Intersection) _ _ _ Hr) as Hn.
    destruct r as [|x r]; [done|]. exfalso.
    assert (t_Name x ∈ omap t_key (x :: r)) as Hin by (simpl; left).
    rewrite Hn in Hin. apply mergedNames_elem in Hin as [_ [?|Hocc]]; [done|].
    rewrite <- occ_length_names in Hocc.
    pose proof (uniqueTypeNames_occ (a ++ []) (t_Name x)) as Hle.
    rewrite app_nil_r in Hle. rewrite app_nil_r in Hocc. specialize (Hle Hnd). lia.
Qed.

(** X9. The empty schema is neutral for the Union merge and absorbing for
    the Intersection merge, on either side, when the other schema repeats no
    type name: the Union merge returns its types unchanged, sorted by name,
    and the Intersection merge returns no type.  No type is inspected, so a
    type of an unknown kind passes through. *)
Theorem mergeSchemas_empty a :
  uniqueTypeNames a →
  (∃ r, mergeSchemas (Some a) (schemaOf []) Union = Ok r ∧
        mergeSchemas (schemaOf []) (Some a) Union = Ok r ∧
        Types (Schema r) ≡ₚ Types (Schema a) ∧
        StronglySorted string_le (typeNames r)) ∧
  mergeSchemas (Some a) (schemaOf []) Intersection = Ok (QueryResult (ISchema [])) ∧
  mergeSchemas (schemaOf []) (Some a) Intersection = Ok (QueryResult (ISchema [])).
Proof.
  intros Hnd. unfold uniqueTypeNames, typeNames in Hnd. split.
  - destruct (mergeTypes_alone (Types (Schema a)) Union Hnd) as (r & Hr & Hsub & Hsup & _).
    exists (QueryResult (ISchema r)). unfold mergeSchemas, schemaOf. simpl.
    rewrite mergeByName_nil_l, Hr. simpl. repeat split; try done.
    + apply NoDup_Permutation.
      * apply (NoDup_fmap_1 t_Name).
        pose proof (mergeByName_names t_key _ _ Union (keepSingle_keeps Union)
                      (typePair_keepsName Union) _ _ _ Hr) as Hn.
        rewrite omap_t_key in Hn. rewrite Hn. apply mergedNames_NoDup.
      * by apply (NoDup_fmap_1 t_Name).
      * intros x. split; [apply Hsub|by apply Hsup].
    + pose proof (mergeByName_names t_key _ _ Union (keepSingle_keeps Union)
                    (typePair_keepsName Union) _ _ _ Hr) as Hn.
      rewrite omap_t_key in Hn. unfold typeNames. simpl. rewrite Hn. apply mergedNames_Sorted.
  - destruct (mergeTypes_alone (Types (Schema a)) Intersection Hnd) as (r & Hr & _ & _ & Hnil).
    unfold mergeSchemas, schemaOf. simpl.
    rewrite mergeByName_nil_l, Hr, (Hnil eq_refl). done.
Qed.

Lemma mergeSchemas_empty_witness :
  mergeSchemas (schemaOf [IType "Node" "INTERFACE" [] [] [] []; object "A" []]) (schemaOf [])
    Intersection = Ok (QueryResult (ISchema [])) ∧
  ∃ r, mergeSchemas (schemaOf [IType "Node" "INTERFACE" [] [] [] []; object "A" []]) (schemaOf [])
         Union = Ok r ∧
       Types (Schema r) ≡ₚ [IType "Node" "INTERFACE" [] [] [] []; object "A" []].
Proof.
  destruct (mergeSchemas_empty
              (QueryResult (ISchema [IType "Node" "INTERFACE" [] [] [] []; object "A" []])))
    as [(r & Hr & _ & Hp & _) [Hi _]].
  { apply (bool_decide_unpack _). vm_compute. exact I. }
  split; [exact Hi|]. exists r. split; [exact Hr|exact Hp].
Defined.


(** ** Resolving type references *)

Lemma lookupTypeRef_basic_kinds k :
  existsb (String.eqb k) ["SCALAR"; "OBJECT"; "UNION"; "INPUT_OBJECT"; "ENUM"] = isBasicKind k.
Proof.
  unfold isBasicKind. simpl.
  destruct (String.eqb k "SCALAR"), (String.eqb k "OBJECT"), (String.eqb k "UNION"),
    (String.eqb k "INPUT_OBJECT"), (String.eqb k "ENUM"); done.
Qed.

Lemma lookupTypeRef_at_body t all :
  lookupTypeRef_at t all =
  if isBasicKind (tr_Kind t) then
    match all !! tr_Name t with
    | Some _ => Ok (NamedType (tr_Name t))
    | None => Err ("type " +:+ tr_Name t +:+ " not found among top-level types")
    end
  else if String.eqb (tr_Kind t) "LIST" then
    inner ← lookupTypeRef (tr_OfType t) all; Ok (ListType inner)
  else if String.eqb (tr_Kind t) "NON_NULL" then
    inner ← lookupTypeRef (tr_OfType t) all; Ok (NonNullType inner)
  else Err ("unknown type kind " +:+ tr_Kind t).
Proof.
  destruct t as [k n [u|]]; unfold lookupTypeRef_at; fold lookupTypeRef_at;
    cbn [tr_Kind tr_Name tr_OfType lookupTypeRef]; by rewrite lookupTypeRef_basic_kinds.
Qed.

Lemma lookupTypeRef_not_Panic t all : lookupTypeRef t all ≠ Panic.
Proof.
  destruct t as [t|]; [|done]. simpl.
  induction t as [k n|k n u IH] using typeRef_ind; rewrite lookupTypeRef_at_body; simpl.
  - destruct (isBasicKind k); [by destruct (all !! n)|].
    destruct (String.eqb k "LIST"); [done|]. by destruct (String.eqb k "NON_NULL").
  - destruct (isBasicKind k); [by destruct (all !! n)|].
    destruct (String.eqb k "LIST"); [by destruct (lookupTypeRef_at u all)|].
    destruct (String.eqb k "NON_NULL"); [by destruct (lookupTypeRef_at u all)|done].
Qed.

Lemma shapeOf_body t :
  shapeOf t =
  if isNonNull t then shapeOfRef (tr_OfType t)
  else if isBasicKind (tr_Kind t) then Some (NamedShape (tr_Kind t) (tr_Name t))
  else if String.eqb (tr_Kind t) "LIST" then ListShape <$> shapeOfRef (tr_OfType t)
  else None.
Proof. by destruct t as [k n [u|]]. Qed.

Lemma isNonNull_LIST t : String.eqb (tr_Kind t) "LIST" = true → isNonNull t = false.
Proof. unfold isNonNull. by intros ->%String.eqb_eq. Qed.

Lemma isNonNull_basic t : isBasicKind (tr_Kind t) = true → isNonNull t = false.
Proof. apply isBasicKind_not_NON_NULL. Qed.

Lemma lookupTypeRef_Ok_shape t all ty :
  lookupTypeRef t all = Ok ty →
  ∃ s, shapeOfRef t = Some s ∧ nullable ty = typeOfShape s ∧ is_Some (all !! baseName s).
Proof.
  destruct t as [t|]; [|done]. simpl. revert ty.
  induction t as [k n|k n u IH] using typeRef_ind; intros ty;
    rewrite lookupTypeRef_at_body, shapeOf_body; cbn [tr_Kind tr_Name tr_OfType].
  all: destruct (isBasicKind k) eqn:Hb;
    [rewrite (isNonNull_basic (TypeRef k n _) Hb);
     destruct (all !! n) eqn:Hn; [|done]; intros [= <-];
     exists (NamedShape k n); simpl; by rewrite Hn|].
  all: destruct (String.eqb k "LIST") eqn:Hl;
    [rewrite (isNonNull_LIST (TypeRef k n _) Hl)|unfold isNonNull; cbn [tr_Kind];
     destruct (String.eqb k "NON_NULL"); [|done]]; simpl; try done.
  - destruct (lookupTypeRef_at u all) as [inner| |]; simpl; try done.
    intros [= <-]. destruct (IH inner eq_refl) as (s & -> & Hn & Hs).
    exists (ListShape s). simpl. by rewrite Hn.
  - destruct (lookupTypeRef_at u all) as [inner| |]; simpl; try done.
    intros [= <-]. destruct (IH inner eq_refl) as (s & -> & Hn & Hs).
    exists s. done.
Qed.

Lemma lookupTypeRef_shape_Ok t all s :
  shapeOfRef t = Some s → is_Some (all !! baseName s) →
  ∃ ty, lookupTypeRef t all = Ok ty.
Proof.
  destruct t as [t|]; [|done]. simpl. revert s.
  induction t as [k n|k n u IH] using typeRef_ind; intros s;
    rewrite lookupTypeRef_at_body, shapeOf_body; cbn [tr_Kind tr_Name tr_OfType].
  all: destruct (isBasicKind k) eqn:Hb;
    [rewrite (isNonNull_basic (TypeRef k n _) Hb);
     intros [= <-]; simpl; intros [x ->]; by eauto|].
  all: destruct (String.eqb k "LIST") eqn:Hl;
    [rewrite (isNonNull_LIST (TypeRef k n _) Hl)|unfold isNonNull; cbn [tr_Kind];
     destruct (String.eqb k "NON_NULL"); [|done]]; simpl; try done.
  - destruct (shapeOf u) as [su|] eqn:Hsu; [|done]. simpl. intros [= <-]. simpl.
    intros Hin. destruct (IH su eq_refl Hin) as [ty ->]. simpl. eauto.
  - intros Hs Hin. destruct (IH s Hs Hin) as [ty ->]. simpl. eauto.
Qed.

(** X10. [lookupTypeRef] never panics, also on a nil reference, and it
    resolves a reference exactly when the reference has a shape whose named
    type is a top-level type; the realized type is then that shape: the
    named type below the same LIST levels, NON_NULL wrappers apart. *)
Theorem lookupTypeRef_resolves t all :
  lookupTypeRef t all ≠ Panic ∧
  (∀ ty, lookupTypeRef t all = Ok ty →
     ∃ s, shapeOfRef t = Some s ∧ nullable ty = typeOfShape s ∧ is_Some (all !! baseName s)) ∧
  (∀ s, shapeOfRef t = Some s → is_Some (all !! baseName s) →
     ∃ ty, lookupTypeRef t all = Ok ty).
Proof.
  split; [apply lookupTypeRef_not_Panic|]. split.
  - intros ty. apply lookupTypeRef_Ok_shape.
  - intros s. apply lookupTypeRef_shape_Ok.
Qed.

Lemma lookupTypeRef_resolves_witness :
  ∃ ty, lookupTypeRef (Some (NonNullOf (ListOf (scalar "Int")))) {["Int" := GScalar "Int"]} = Ok ty.
Proof.
  apply (proj2 (proj2 (lookupTypeRef_resolves _ _)) (ListShape (NamedShape "SCALAR" "Int"))).
  - vm_compute. reflexivity.
  - vm_compute. eauto.
Defined.

(** X11. A merged reference resolves wherever one of the merged references
    does, and to the same type, NON_NULL wrappers apart. *)
Theorem merged_ref_resolves a b isInput r all ty :
  mergeTypeRefs a b isInput = Ok r →
  lookupTypeRef a all = Ok ty ∨ lookupTypeRef b all = Ok ty →
  ∃ ty', lookupTypeRef (Some r) all = Ok ty' ∧ nullable ty' = nullable ty.
Proof.
  intros (s & Ha & Hb & Hr)%mergeTypeRefs_shape Hl.
  assert (nullable ty = typeOfShape s ∧ is_Some (all !! baseName s)) as [Hty Hin].
  { destruct Hl as [(s' & Hs & ? & ?)%lookupTypeRef_Ok_shape|(s' & Hs & ? & ?)%lookupTypeRef_Ok_shape];
      (assert (s' = s) as -> by congruence); done. }
  destruct (lookupTypeRef_shape_Ok (Some r) all s Hr Hin) as [ty' Hty'].
  exists ty'. split; [done|].
  apply lookupTypeRef_Ok_shape in Hty' as (s' & Hs' & -> & _). simpl in Hs'. congruence.
Qed.

Lemma merged_ref_resolves_witness :
  ∃ ty', lookupTypeRef (Some (NonNullOf (ListOf (NonNullOf (scalar "Int")))))
           {["Int" := GScalar "Int"]} = Ok ty' ∧
         nullable ty' = nullable (ListType (NonNullType (NamedType "Int"))).
Proof.
  apply (merged_ref_resolves (Some (NonNullOf (ListOf (scalar "Int"))))
           (Some (ListOf (NonNullOf (scalar "Int")))) true).
  - vm_compute. reflexivity.
  - right. vm_compute. reflexivity.
Defined.


(** ** Input fields and fields of the realized schema *)

Section InsertLoopFacts.
Context {T V : Type}.
Variable name : T → string.
Variable value : T → result V.

Implicit Types (source : list T) (acc m : gmap string V).

Lemma insertLoop_Ok source acc m :
  insertLoop name value source acc = Ok m →
  ∀ n, (named name n source = [] ∧ m !! n = acc !! n) ∨
       (∃ x v, last (named name n source) = Some x ∧ value x = Ok v ∧ m !! n = Some v).
Proof.
  revert acc. induction source as [|x source IH]; intros acc; simpl.
  - intros [= <-] n. by left.
  - destruct (value x) as [v| |] eqn:Hv; simpl; try done.
    intros Hm n. unfold named. rewrite filter_cons.
    destruct (IH _ Hm n) as [[Hnil Hlook]|(y & w & Hlast & Hw & Hlook)].
    + unfold named in Hnil. rewrite Hnil.
      destruct (decide (name x = n)) as [<-|Hne].
      * right. exists x, v. by rewrite Hlook, lookup_insert_eq.
      * left. by rewrite Hlook, lookup_insert_ne.
    + right. exists y, w. split; [|done]. unfold named in Hlast.
      destruct (decide (name x = n)); [|done].
      destruct (filter _ source); [done|]. done.
Qed.

Lemma insertLoop_first_failure source acc :
  (∃ m, insertLoop name value source acc = Ok m) ∨
  (∃ pre x post, source = pre ++ x :: post ∧
     Forall (λ y, isOk (value y) = true) pre ∧ isOk (value x) = false ∧
     sameFailure (insertLoop name value source acc) (value x)).
Proof.
  revert acc. induction source as [|x source IH]; intros acc; simpl; [eauto|].
  destruct (value x) as [v| |] eqn:Hv; simpl.
  - destruct (IH (<[name x := v]> acc)) as [?|(pre & y & post & -> & Hpre & Hy & Hsame)]; [by left|].
    right. exists (x :: pre), y, post. repeat split; try done.
    constructor; [by rewrite Hv|done].
  - right. exists [], x, source. rewrite Hv. done.
  - right. exists [], x, source. rewrite Hv. done.
Qed.

Lemma insertLoop_ext (value' : T → result V) source acc :
  (∀ x, x ∈ source → value x = value' x) →
  insertLoop name value source acc = insertLoop name value' source acc.
Proof.
  revert acc. induction source as [|x source IH]; intros acc Hext; [done|]. simpl.
  rewrite <- (Hext x) by left. destruct (value x); simpl; try done.
  apply IH. intros y Hy. apply Hext. by right.
Qed.
End InsertLoopFacts.

Lemma parseInputFields_loop_insertLoop source all fields :
  parseInputFields_loop source all fields = insertLoop if_Name (inputFieldValue all) source fields.
Proof.
  revert fields. induction source as [|x source IH]; intros fields; [done|]. simpl.
  unfold inputFieldValue. destruct (wrapErr _ _); simpl; try done.
Qed.

Lemma wireFields_insertLoop typName source all fields :
  wireFields typName source all fields = insertLoop f_Name (fieldValue typName all) source fields.
Proof.
  revert fields. induction source as [|x source IH]; intros fields; [done|]. simpl.
  unfold fieldValue.
  destruct (wrapErr _ (lookupTypeRef _ _)); simpl; try done.
  destruct (wrapErr _ (parseInputFields _ _)); simpl; done.
Qed.

Lemma inputFieldValue_not_Panic all field : inputFieldValue all field ≠ Panic.
Proof.
  unfold inputFieldValue. pose proof (lookupTypeRef_not_Panic (if_Type field) all).
  by destruct (lookupTypeRef _ _).
Qed.

Lemma parseInputFields_not_Panic source all : parseInputFields source all ≠ Panic.
Proof.
  unfold parseInputFields. rewrite parseInputFields_loop_insertLoop.
  destruct (insertLoop_first_failure if_Name (inputFieldValue all) source ∅)
    as [[m ->]|(pre & x & post & _ & _ & _ & Hsame)]; [done|].
  intros Hp. rewrite Hp in Hsame. pose proof (inputFieldValue_not_Panic all x).
  by destruct (inputFieldValue all x).
Qed.

(** X12. [parseInputFields] never panics.  When it succeeds, the map holds
    exactly the names of the source, and under a name that is repeated the
    type of its last occurrence.  When it fails, the error is that of the
    first field whose type does not resolve. *)
Theorem parseInputFields_last_wins source all :
  parseInputFields source all ≠ Panic ∧
  (∀ m, parseInputFields source all = Ok m →
     (∀ n, n ∉ if_Name <$> source → m !! n = None) ∧
     (∀ n field, last (named if_Name n source) = Some field →
        ∃ ty, lookupTypeRef (if_Type field) all = Ok ty ∧ m !! n = Some ty)) ∧
  (∀ e, parseInputFields source all = Err e →
     ∃ pre field post e', source = pre ++ field :: post ∧
       Forall (λ g, isOk (lookupTypeRef (if_Type g) all) = true) pre ∧
       lookupTypeRef (if_Type field) all = Err e' ∧
       e = "field " +:+ if_Name field +:+ " has bad typ: " +:+ e').
Proof.
  split; [apply parseInputFields_not_Panic|]. unfold parseInputFields.
  rewrite parseInputFields_loop_insertLoop. split.
  - intros m Hm. pose proof (insertLoop_Ok _ _ _ _ _ Hm) as Hn. split.
    + intros n Hnin. destruct (Hn n) as [[_ ->]|(x & v & Hlast & _)]; [done|].
      exfalso. apply Hnin. apply last_Some in Hlast as [l' Hl].
      assert (x ∈ named if_Name n source) as Hin.
      { rewrite Hl. apply elem_of_app. right. left. }
      apply list_elem_of_filter in Hin as [<- Hin]. apply list_elem_of_fmap. eauto.
    + intros n field Hlast. destruct (Hn n) as [[Hnil _]|(x & v & Hlast' & Hv & Hlook)].
      { by rewrite Hnil in Hlast. }
      rewrite Hlast in Hlast'. injection Hlast' as <-.
      exists v. split; [|done]. unfold inputFieldValue in Hv. by apply wrapErr_Ok in Hv.
  - intros e He.
    destruct (insertLoop_first_failure if_Name (inputFieldValue all) source ∅)
      as [[m Hm]|(pre & x & post & -> & Hpre & Hx & Hsame)]; [congruence|].
    rewrite He in Hsame. exists pre, x, post.
    unfold inputFieldValue in Hsame, Hpre.
    destruct (lookupTypeRef (if_Type x) all) as [?|e'|] eqn:Hl; simpl in Hsame; try done.
    exists e'. repeat split; try done.
    eapply Forall_impl; [exact Hpre|]. intros g. simpl. by rewrite wrapErr_isOk.
Qed.

Lemma parseInputFields_last_wins_witness :
  ∃ ty, lookupTypeRef (Some (NonNullOf (scalar "Int"))) {["Int" := GScalar "Int"]} = Ok ty ∧
        ({["x" := NonNullType (NamedType "Int")]} : gmap string gqlType) !! "x" = Some ty.
Proof.
  assert (parseInputFields
            [InputField "x" (Some (scalar "Int")); InputField "x" (Some (NonNullOf (scalar "Int")))]
            {["Int" := GScalar "Int"]} = Ok {["x" := NonNullType (NamedType "Int")]}) as Hm
    by (vm_compute; reflexivity).
  apply (proj2 (proj1 (proj2 (parseInputFields_last_wins _ _)) _ Hm) "x"
           (InputField "x" (Some (NonNullOf (scalar "Int"))))).
  vm_compute. reflexivity.
Defined.


(** ** The two loops of [parseSchema] *)

Lemma shellOf_Some typ shell :
  shellOf typ = Some shell →
  shellKind shell = t_Kind typ ∧ shellName shell = t_Name typ ∧ knownKind typ ∧
  ∀ all, closedShell all shell.
Proof.
  unfold shellOf, knownKind, isBasicKind. simpl.
  destruct (String.eqb_spec (t_Kind typ) "OBJECT") as [->|_]; [by intros [= <-]|].
  destruct (String.eqb_spec (t_Kind typ) "INPUT_OBJECT") as [->|_]; [by intros [= <-]|].
  destruct (String.eqb_spec (t_Kind typ) "SCALAR") as [->|_]; [by intros [= <-]|].
  destruct (String.eqb_spec (t_Kind typ) "UNION") as [->|_]; [by intros [= <-]|].
  destruct (String.eqb_spec (t_Kind typ) "ENUM") as [->|_]; [by intros [= <-]|].
  done.
Qed.

Lemma shellOf_None typ : shellOf typ = None ↔ ¬ knownKind typ.
Proof.
  unfold shellOf, knownKind, isBasicKind. simpl.
  destruct (String.eqb (t_Kind typ) "OBJECT"), (String.eqb (t_Kind typ) "INPUT_OBJECT"),
    (String.eqb (t_Kind typ) "SCALAR"), (String.eqb (t_Kind typ) "UNION"),
    (String.eqb (t_Kind typ) "ENUM"); simpl; split; try done; by intros [].
Qed.

Lemma declareTypes_Ok types acc all :
  declareTypes types acc = Ok all →
  NoDup (t_Name <$> types) ∧
  (∀ typ, typ ∈ types →
     acc !! t_Name typ = None ∧ ∃ shell, shellOf typ = Some shell ∧ all !! t_Name typ = Some shell) ∧
  (∀ n, n ∉ t_Name <$> types → all !! n = acc !! n).
Proof.
  revert acc. induction types as [|typ types IH]; intros acc; simpl.
  - intros [= <-]. split; [constructor|]. split; [|done]. by intros typ ?%elem_of_nil.
  - destruct (acc !! t_Name typ) eqn:Hacc; [done|].
    destruct (shellOf typ) as [shell|] eqn:Hsh; [|done].
    intros (Hnd & Htyp & Hout)%IH.
    assert (t_Name typ ∉ t_Name <$> types) as Hnin.
    { intros (typ' & Hn & Hin)%list_elem_of_fmap. destruct (Htyp _ Hin) as [Hnone _].
      by rewrite <- Hn, lookup_insert_eq in Hnone. }
    split; [by constructor|]. split.
    + intros typ' [->|Hin]%elem_of_cons.
      * split; [done|]. exists shell. split; [done|].
        by rewrite (Hout _ Hnin), lookup_insert_eq.
      * destruct (Htyp _ Hin) as [Hnone Hshell]. split; [|done].
        destruct (decide (t_Name typ = t_Name typ')) as [Heq|Hne].
        -- by rewrite <- Heq, lookup_insert_eq in Hnone.
        -- by rewrite lookup_insert_ne in Hnone.
    + intros n [Hne Hn]%not_elem_of_cons. by rewrite (Hout _ Hn), lookup_insert_ne.
Qed.

Lemma declareTypes_total types acc :
  NoDup (t_Name <$> types) → Forall knownKind types →
  (∀ typ, typ ∈ types → acc !! t_Name typ = None) →
  ∃ all, declareTypes types acc = Ok all.
Proof.
  revert acc. induction types as [|typ types IH]; intros acc; simpl; [eauto|].
  intros [Hnin Hnd]%NoDup_cons [Hk Hks]%Forall_cons Hacc.
  rewrite (Hacc typ) by left.
  destruct (shellOf typ) as [shell|] eqn:Hsh; [|by apply shellOf_None in Hsh].
  apply IH; try done. intros typ' Hin. rewrite lookup_insert_ne; [apply Hacc; by right|].
  intros Heq. apply Hnin. rewrite Heq. apply list_elem_of_fmap. eauto.
Qed.

Lemma declareTypes_app pre post acc :
  declareTypes (pre ++ post) acc = all ← declareTypes pre acc; declareTypes post all.
Proof.
  revert acc. induction pre as [|typ pre IH]; intros acc; [done|]. simpl.
  destruct (acc !! t_Name typ); [done|]. destruct (shellOf typ); [|done]. apply IH.
Qed.

(** *** What wiring depends on, and what it leaves alone *)

Lemma sameSkeleton_refl all : sameSkeleton all all.
Proof. done. Qed.

Lemma sameSkeleton_trans all1 all2 all3 :
  sameSkeleton all1 all2 → sameSkeleton all2 all3 → sameSkeleton all1 all3.
Proof. intros H1 H2 n. by rewrite H1. Qed.

Lemma sameSkeleton_sym all1 all2 : sameSkeleton all1 all2 → sameSkeleton all2 all1.
Proof. intros H n. by rewrite H. Qed.

Lemma sameSkeleton_is_Some all1 all2 n :
  sameSkeleton all1 all2 → is_Some (all1 !! n) → is_Some (all2 !! n).
Proof.
  intros H [x Hx]. specialize (H n). rewrite Hx in H.
  destruct (all2 !! n); [by eexists|done].
Qed.

Lemma sameSkeleton_insert all n old new :
  all !! n = Some old → skeleton new = skeleton old → sameSkeleton all (<[n := new]> all).
Proof.
  intros Hold Hsk m. destruct (decide (n = m)) as [<-|Hne].
  - rewrite lookup_insert_eq, Hold. simpl. by rewrite Hsk.
  - by rewrite lookup_insert_ne.
Qed.

Lemma sameSkeleton_object all1 all2 n k fields :
  sameSkeleton all1 all2 → all1 !! n = Some (GObject k fields) →
  ∃ fields', all2 !! n = Some (GObject k fields').
Proof.
  intros H Hn. specialize (H n). rewrite Hn in H.
  destruct (all2 !! n) as [[]|]; simpl in H; try done.
  injection H as <-. eauto.
Qed.

Lemma lookupTypeRef_skeleton all1 all2 t :
  sameSkeleton all1 all2 → lookupTypeRef t all1 = lookupTypeRef t all2.
Proof.
  intros H. destruct t as [t|]; [|done]. simpl.
  induction t as [k n|k n u IH] using typeRef_ind; rewrite !lookupTypeRef_at_body; simpl.
  all: destruct (isBasicKind k);
    [specialize (H n); by destruct (all1 !! n), (all2 !! n)|].
  - done.
  - by rewrite IH.
Qed.

Lemma parseInputFields_skeleton all1 all2 source :
  sameSkeleton all1 all2 → parseInputFields source all1 = parseInputFields source all2.
Proof.
  intros H. unfold parseInputFields. rewrite !parseInputFields_loop_insertLoop.
  apply insertLoop_ext. intros x _. unfold inputFieldValue.
  by rewrite (lookupTypeRef_skeleton all1 all2).
Qed.

Lemma wireFields_skeleton all1 all2 typName source fields :
  sameSkeleton all1 all2 →
  wireFields typName source all1 fields = wireFields typName source all2 fields.
Proof.
  intros H. rewrite !wireFields_insertLoop.
  apply insertLoop_ext. intros x _. unfold fieldValue.
  by rewrite (lookupTypeRef_skeleton all1 all2), (parseInputFields_skeleton all1 all2).
Qed.

Lemma wirePossibleTypes_skeleton all1 all2 typName source types :
  sameSkeleton all1 all2 →
  wirePossibleTypes typName source all1 types = wirePossibleTypes typName source all2 types.
Proof.
  intros H. revert types. induction source as [|[other|] source IH]; intros types; simpl; try done.
  destruct (negb (String.eqb (tr_Kind other) "OBJECT")); [done|].
  pose proof (H (tr_Name other)) as Hn.
  destruct (all1 !! tr_Name other) as [[]|], (all2 !! tr_Name other) as [[]|];
    simpl in Hn; try done.
  injection Hn as <-. apply IH.
Qed.

Lemma lookupTypeRef_Ok_resolves t all ty : lookupTypeRef t all = Ok ty → resolves all ty.
Proof.
  intros (s & _ & Hn & Hin)%lookupTypeRef_Ok_shape. unfold resolves.
  assert (baseOf ty = baseName s) as ->; [|done].
  transitivity (baseOf (nullable ty)).
  { clear. induction ty; simpl; done. }
  rewrite Hn. clear. induction s; simpl; done.
Qed.

Lemma parseInputFields_resolves source all m a ty :
  parseInputFields source all = Ok m → m !! a = Some ty → resolves all ty.
Proof.
  unfold parseInputFields. rewrite parseInputFields_loop_insertLoop.
  intros Hm Ha. destruct (insertLoop_Ok _ _ _ _ _ Hm a) as [[_ Hnone]|(x & v & _ & Hv & Hlook)].
  - by rewrite Hnone in Ha.
  - rewrite Hlook in Ha. injection Ha as ->.
    unfold inputFieldValue in Hv. apply wrapErr_Ok in Hv. by eapply lookupTypeRef_Ok_resolves.
Qed.

Lemma wireFields_closed typName source all fields name :
  wireFields typName source all ∅ = Ok fields → closedShell all (GObject name fields).
Proof.
  rewrite wireFields_insertLoop. intros Hm f fld Hf.
  destruct (insertLoop_Ok _ _ _ _ _ Hm f) as [[_ Hnone]|(x & v & _ & Hv & Hlook)].
  { by rewrite Hnone in Hf. }
  rewrite Hlook in Hf. injection Hf as ->. unfold fieldValue in Hv.
  destruct (lookupTypeRef (f_Type x) all) as [ty| |] eqn:Hty; simpl in Hv; try done.
  destruct (parseInputFields (f_Args x) all) as [args| |] eqn:Hargs; simpl in Hv; try done.
  injection Hv as <-. simpl. split.
  - by eapply lookupTypeRef_Ok_resolves.
  - intros a ty' Ha. by eapply parseInputFields_resolves.
Qed.

Lemma wirePossibleTypes_closed typName source all acc types name :
  closedShell all (GUnion name acc) →
  wirePossibleTypes typName source all acc = Ok types → closedShell all (GUnion name types).
Proof.
  revert acc. induction source as [|[other|] source IH]; intros acc Hacc; simpl; try done.
  - by intros [= <-].
  - destruct (negb (String.eqb (tr_Kind other) "OBJECT")); [done|].
    destruct (all !! tr_Name other) as [[k fields| | | |]|] eqn:Hn; try done.
    apply IH. intros k' p. destruct (decide (k = k')) as [<-|Hne].
    + rewrite lookup_insert_eq. intros [= <-]. eauto.
    + rewrite lookup_insert_ne by done. apply Hacc.
Qed.

(** What one iteration of the second loop does to the map. *)
Lemma wireType_inv typ all all' :
  wireType typ all = Ok all' →
  (t_Kind typ = "SCALAR" ∧ all' = all) ∨
  (∃ old new, all !! t_Name typ = Some old ∧ skeleton new = skeleton old ∧
     closedShell all new ∧ all' = <[t_Name typ := new]> all).
Proof.
  unfold wireType.
  destruct (String.eqb (t_Kind typ) "OBJECT").
  { destruct (wireFields _ _ _ _) as [fields| |] eqn:Hf; simpl; try done.
    destruct (all !! t_Name typ) as [[name old| | | |]|] eqn:Hn; try done.
    intros [= <-]. right. eexists _, (GObject name fields). split; [done|]. split; [done|]. split; [|done].
    by eapply wireFields_closed. }
  destruct (String.eqb (t_Kind typ) "INPUT_OBJECT").
  { destruct (parseInputFields _ _) as [parsed| |] eqn:Hf; simpl; try done.
    destruct (all !! t_Name typ) as [[|name old| | |]|] eqn:Hn; try done.
    intros [= <-]. right. eexists _, (GInputObject name parsed). split; [done|]. split; [done|]. split; [|done].
    intros f ty Hty. by eapply parseInputFields_resolves. }
  destruct (String.eqb (t_Kind typ) "UNION").
  { destruct (wirePossibleTypes _ _ _ _) as [types| |] eqn:Hf; simpl; try done.
    destruct (all !! t_Name typ) as [[| | |name old|]|] eqn:Hn; try done.
    intros [= <-]. right. eexists _, (GUnion name types). split; [done|]. split; [done|]. split; [|done].
    eapply wirePossibleTypes_closed; [|done]. by intros k p ?. }
  destruct (String.eqb (t_Kind typ) "ENUM").
  { destruct (all !! t_Name typ) as [[| | | |name v r]|] eqn:Hn; try done.
    intros [= <-]. right.
    exists (GEnum name v r),
      (GEnum name (ev_Name <$> t_EnumValues typ)
         (list_to_map ((λ v, (v, v)) <$> (ev_Name <$> t_EnumValues typ)))).
    done. }
  destruct (String.eqb_spec (t_Kind typ) "SCALAR"); [|done].
  intros [= <-]. by left.
Qed.

(** Wiring a type reads the other shells through their skeleton only. *)
Lemma wireType_skeleton typ all1 all2 all1' :
  sameSkeleton all1 all2 → wireType typ all1 = Ok all1' →
  (all1' = all1 ∧ wireType typ all2 = Ok all2) ∨
  (∃ new, all1' = <[t_Name typ := new]> all1 ∧
          wireType typ all2 = Ok (<[t_Name typ := new]> all2)).
Proof.
  intros H. unfold wireType.
  rewrite (wireFields_skeleton all1 all2), (parseInputFields_skeleton all1 all2),
    (wirePossibleTypes_skeleton all1 all2) by done.
  pose proof (H (t_Name typ)) as Hn.
  destruct (String.eqb (t_Kind typ) "OBJECT").
  { destruct (wireFields _ _ _ _) as [fields| |]; simpl; try done.
    destruct (all1 !! t_Name typ) as [[name old| | | |]|]; try done.
    destruct (all2 !! t_Name typ) as [[]|]; simpl in Hn; try done.
    injection Hn as <-. intros [= <-]. right. eauto. }
  destruct (String.eqb (t_Kind typ) "INPUT_OBJECT").
  { destruct (wrapErr _ _) as [parsed| |]; simpl; try done.
    destruct (all1 !! t_Name typ) as [[|name old| | |]|]; try done.
    destruct (all2 !! t_Name typ) as [[]|]; simpl in Hn; try done.
    injection Hn as <-. intros [= <-]. right. eauto. }
  destruct (String.eqb (t_Kind typ) "UNION").
  { destruct (wirePossibleTypes _ _ _ _) as [types| |]; simpl; try done.
    destruct (all1 !! t_Name typ) as [[| | |name old|]|]; try done.
    destruct (all2 !! t_Name typ) as [[]|]; simpl in Hn; try done.
    injection Hn as <-. intros [= <-]. right. eauto. }
  destruct (String.eqb (t_Kind typ) "ENUM").
  { destruct (all1 !! t_Name typ) as [[| | | |name v r]|]; try done.
    destruct (all2 !! t_Name typ) as [[]|]; simpl in Hn; try done.
    injection Hn as <-. intros [= <-]. right. eauto. }
  destruct (String.eqb (t_Kind typ) "SCALAR"); [|done].
  intros [= <-]. by left.
Qed.

Lemma closedShell_skeleton all1 all2 shell :
  sameSkeleton all1 all2 → closedShell all1 shell → closedShell all2 shell.
Proof.
  intros H. destruct shell as [n fields|n ifs|n|n types|n v r]; simpl; try done.
  - intros Hc f fld Hf. destruct (Hc f fld Hf) as [Hty Hargs]. split.
    + by eapply sameSkeleton_is_Some.
    + intros a ty Ha. eapply sameSkeleton_is_Some; [done|]. by eapply Hargs.
  - intros Hc f ty Hf. eapply sameSkeleton_is_Some; [done|]. by eapply Hc.
  - intros Hc k p Hp. destruct (Hc k p Hp) as [fields Hf].
    by eapply sameSkeleton_object.
Qed.

Lemma wireType_sameSkeleton typ all all' :
  wireType typ all = Ok all' → sameSkeleton all all'.
Proof.
  intros [[_ ->]|(old & new & Hold & Hsk & _ & ->)]%wireType_inv; [done|].
  by eapply sameSkeleton_insert.
Qed.

Lemma wireType_other typ all all' n :
  wireType typ all = Ok all' → n ≠ t_Name typ → all' !! n = all !! n.
Proof.
  intros [[_ ->]|(old & new & Hold & Hsk & _ & ->)]%wireType_inv Hne; [done|].
  by rewrite lookup_insert_ne.
Qed.

Lemma wireTypes_sameSkeleton types all all' :
  wireTypes types all = Ok all' → sameSkeleton all all'.
Proof.
  revert all. induction types as [|typ types IH]; intros all; simpl.
  - by intros [= <-].
  - destruct (wireType typ all) as [all1| |] eqn:H1; simpl; try done.
    intros H2. eapply sameSkeleton_trans; [by eapply wireType_sameSkeleton|by apply IH].
Qed.

Lemma wireTypes_other types all all' n :
  wireTypes types all = Ok all' → n ∉ t_Name <$> types → all' !! n = all !! n.
Proof.
  revert all. induction types as [|typ types IH]; intros all; simpl.
  - by intros [= <-].
  - destruct (wireType typ all) as [all1| |] eqn:H1; simpl; try done.
    intros H2 [Hne Hn]%not_elem_of_cons.
    rewrite (IH _ H2 Hn). by eapply wireType_other.
Qed.

Lemma wireTypes_closed types all all' :
  wireTypes types all = Ok all' →
  (∀ n shell, all !! n = Some shell → closedShell all shell) →
  ∀ n shell, all' !! n = Some shell → closedShell all' shell.
Proof.
  revert all. induction types as [|typ types IH]; intros all; simpl.
  - by intros [= <-].
  - destruct (wireType typ all) as [all1| |] eqn:H1; simpl; try done.
    intros H2 Hc. apply (IH _ H2). intros n shell Hn.
    pose proof (wireType_sameSkeleton _ _ _ H1) as Hsk.
    apply (closedShell_skeleton all all1 _ Hsk).
    destruct (wireType_inv _ _ _ H1) as [[_ ->]|(old & new & Hold & _ & Hnew & ->)];
      [by eapply Hc|].
    destruct (decide (t_Name typ = n)) as [<-|Hne].
    + rewrite lookup_insert_eq in Hn. by injection Hn as <-.
    + rewrite lookup_insert_ne in Hn by done. by eapply Hc.
Qed.

Lemma wireTypes_fixed types all all' :
  NoDup (t_Name <$> types) → wireTypes types all = Ok all' →
  ∀ typ, typ ∈ types → wireType typ all' = Ok all'.
Proof.
  revert all. induction types as [|typ types IH]; intros all; simpl.
  - intros _ _ typ ?%elem_of_nil. done.
  - intros [Hnin Hnd]%NoDup_cons.
    destruct (wireType typ all) as [all1| |] eqn:H1; simpl; try done.
    intros H2 typ' [->|Hin]%elem_of_cons; [|by eapply IH].
    assert (sameSkeleton all all') as Hsk.
    { eapply sameSkeleton_trans; [by eapply wireType_sameSkeleton|by eapply wireTypes_sameSkeleton]. }
    destruct (wireType_skeleton _ _ _ _ Hsk H1) as [[_ ?]|(new & -> & ->)]; [done|].
    f_equal. apply insert_id. rewrite (wireTypes_other _ _ _ _ H2 Hnin).
    by rewrite lookup_insert_eq.
Qed.

Lemma parseSchema_Ok_declares schema all :
  parseSchema (Some schema) = Ok all →
  NoDup (typeNames schema) ∧ Forall knownKind (Types (Schema schema)) ∧
  (∀ n, is_Some (all !! n) ↔ n ∈ typeNames schema).
Proof.
  intros Hp. simpl in Hp.
  destruct (declareTypes _ ∅) as [all0| |] eqn:Hd; simpl in Hp; try done.
  destruct (declareTypes_Ok _ _ _ Hd) as (Hnd & Htyp & Hout).
  split; [done|]. split.
  - apply Forall_forall. intros typ Hin.
    destruct (Htyp _ Hin) as [_ (shell & Hsh & _)]. by apply shellOf_Some in Hsh as (_ & _ & ? & _).
  - intros n. pose proof (wireTypes_sameSkeleton _ _ _ Hp) as Hsk. split.
    + intros Hn. apply (sameSkeleton_is_Some _ _ _ (sameSkeleton_sym _ _ Hsk)) in Hn.
      destruct (decide (n ∈ typeNames schema)) as [|Hnin]; [done|].
      rewrite (Hout _ Hnin), lookup_empty in Hn. by destruct Hn.
    + intros (typ & -> & Hin)%list_elem_of_fmap.
      apply (sameSkeleton_is_Some _ _ _ Hsk).
      destruct (Htyp _ Hin) as [_ (shell & _ & ->)]. by eexists.
Qed.

(** X13. The first loop of [parseSchema] accepts exactly the schemas that
    repeat no type name and use the five known kinds: a successful result
    holds one shell per type, of its kind, under its name, and nothing
    else; the first type that repeats an earlier name gives
    [duplicate type], the first type of another kind [unknown type kind]. *)
Theorem parseSchema_declares schema :
  (∀ all, parseSchema (Some schema) = Ok all →
     NoDup (typeNames schema) ∧ Forall knownKind (Types (Schema schema)) ∧
     (∀ n, is_Some (all !! n) ↔ n ∈ typeNames schema)) ∧
  (∀ pre typ post, Types (Schema schema) = pre ++ typ :: post →
     NoDup (t_Name <$> pre) → Forall knownKind pre →
     (t_Name typ ∈ t_Name <$> pre →
      parseSchema (Some schema) = Err ("duplicate type " +:+ t_Name typ)) ∧
     (t_Name typ ∉ t_Name <$> pre → ¬ knownKind typ →
      parseSchema (Some schema) = Err ("unknown type kind " +:+ t_Kind typ))).
Proof.
  split; [apply parseSchema_Ok_declares|].
  intros pre typ post Htypes Hnd Hk. simpl. rewrite Htypes, declareTypes_app.
  destruct (declareTypes_total pre ∅ Hnd Hk) as [all0 Hd]; [by intros; apply lookup_empty|].
  rewrite Hd. simpl. destruct (declareTypes_Ok _ _ _ Hd) as (_ & Htyp & Hout). split.
  - intros (typ' & -> & Hin)%list_elem_of_fmap.
    destruct (Htyp _ Hin) as [_ (shell & _ & ->)]. done.
  - intros Hnin Hunk. rewrite (Hout _ Hnin), lookup_empty.
    apply shellOf_None in Hunk. by rewrite Hunk.
Qed.

Lemma parseSchema_declares_witness :
  parseSchema (schemaOf [object "Query" []; IType "Query" "SCALAR" [] [] [] []])
    = Err "duplicate type Query" ∧
  parseSchema (schemaOf [object "Query" []; IType "Node" "INTERFACE" [] [] [] []])
    = Err "unknown type kind INTERFACE".
Proof.
  assert (NoDup (t_Name <$> [object "Query" []])) as Hnd.
  { apply (bool_decide_unpack _). vm_compute. exact I. }
  assert (Forall knownKind [object "Query" []]) as Hk by (by repeat constructor).
  split.
  - apply (proj1 (proj2 (parseSchema_declares
             (QueryResult (ISchema [object "Query" []; IType "Query" "SCALAR" [] [] [] []])))
             [object "Query" []] (IType "Query" "SCALAR" [] [] [] []) [] eq_refl Hnd Hk)).
    simpl. left.
  - apply (proj2 (proj2 (parseSchema_declares
             (QueryResult (ISchema [object "Query" []; IType "Node" "INTERFACE" [] [] [] []])))
             [object "Query" []] (IType "Node" "INTERFACE" [] [] [] []) [] eq_refl Hnd Hk)).
    + simpl. intros [=]%list_elem_of_singleton.
    + by vm_compute.
Defined.

(** X14. A realized schema is closed and is the wiring of its own types:
    in the result of [parseSchema] every type that a field, an argument or
    an input field mentions is a top-level type, every member of a union is
    an object shell stored under its own name, and wiring any type of the
    schema again against the result changes nothing. *)
Theorem parseSchema_closed schema all :
  parseSchema (Some schema) = Ok all →
  (∀ n shell, all !! n = Some shell → closedShell all shell) ∧
  (∀ typ, typ ∈ Types (Schema schema) →
     wireType typ all = Ok all ∧
     ∃ shell, all !! t_Name typ = Some shell ∧
       shellKind shell = t_Kind typ ∧ shellName shell = t_Name typ).
Proof.
  simpl. destruct (declareTypes _ ∅) as [all0| |] eqn:Hd; simpl; try done.
  intros Hw. destruct (declareTypes_Ok _ _ _ Hd) as (Hnd & Htyp & Hout). split.
  - apply (wireTypes_closed _ _ _ Hw). intros n shell Hn.
    destruct (decide (n ∈ t_Name <$> Types (Schema schema))) as [Hin|Hnin].
    + apply list_elem_of_fmap in Hin as (typ & -> & Hin).
      destruct (Htyp _ Hin) as [_ (shell' & Hsh & Hl)].
      rewrite Hl in Hn. injection Hn as <-. by apply shellOf_Some in Hsh as (_ & _ & _ & ?).
    + by rewrite (Hout _ Hnin), lookup_empty in Hn.
  - intros typ Hin. split; [by eapply wireTypes_fixed|].
    destruct (Htyp _ Hin) as [_ (shell0 & Hsh & Hl)].
    apply shellOf_Some in Hsh as (Hk & Hname & _ & _).
    pose proof (wireTypes_sameSkeleton _ _ _ Hw (t_Name typ)) as Hsk.
    rewrite Hl in Hsk. destruct (all !! t_Name typ) as [shell|]; [|done].
    simpl in Hsk. injection Hsk as Hk' Hn'. exists shell. split; [done|]. split; congruence.
Qed.


Lemma parseSchema_closed_witness :
  let ping := Field "ping" (Some (scalar "String")) [InputField "n" (Some (NonNullOf (scalar "Int")))] in
  let types := [object "Query" [ping]; IType "String" "SCALAR" [] [] [] [];
                IType "Int" "SCALAR" [] [] [] []] in
  let all : typeMap :=
    {[ "Query" := GObject "Query"
         {[ "ping" := GField {[ "n" := NonNullType (NamedType "Int") ]} (NamedType "String") ]};
       "String" := GScalar "String"; "Int" := GScalar "Int" ]} in
  parseSchema (schemaOf types) = Ok all ∧
  closedShell all (GObject "Query"
    {[ "ping" := GField {[ "n" := NonNullType (NamedType "Int") ]} (NamedType "String") ]}) ∧
  wireType (object "Query" [ping]) all = Ok all.
Proof.
  intros ping types all.
  assert (parseSchema (schemaOf types) = Ok all) as Hp by (vm_compute; reflexivity).
  destruct (parseSchema_closed (QueryResult (ISchema types)) all Hp) as [Hc Hw].
  split; [exact Hp|]. split.
  - apply (Hc "Query"). vm_compute. reflexivity.
  - apply (Hw (object "Query" [ping])). left.
Defined.

(** *** A union member that is not an object *)

Lemma shellOf_ext typ typ' :
  t_Name typ = t_Name typ' → t_Kind typ = t_Kind typ' → shellOf typ = shellOf typ'.
Proof. unfold shellOf. by intros -> ->. Qed.

Lemma declareTypes_ext types types' acc :
  Forall2 (λ t t', t_Name t = t_Name t' ∧ t_Kind t = t_Kind t') types types' →
  declareTypes types acc = declareTypes types' acc.
Proof.
  intros H. revert acc. induction H as [|t t' l l' [Hn Hk] _ IH]; intros acc; [done|].
  simpl. rewrite <- Hn, <- Hk, (shellOf_ext t t' Hn Hk).
  destruct (acc !! t_Name t); [done|]. by destruct (shellOf t').
Qed.

Lemma wireTypes_app pre post all :
  wireTypes (pre ++ post) all = all' ← wireTypes pre all; wireTypes post all'.
Proof.
  revert all. induction pre as [|typ pre IH]; intros all; [done|]. simpl.
  destruct (wireType typ all); simpl; try done.
Qed.

Lemma wirePossibleTypes_app typName pre post all types :
  wirePossibleTypes typName (pre ++ post) all types =
  types' ← wirePossibleTypes typName pre all types; wirePossibleTypes typName post all types'.
Proof.
  revert types. induction pre as [|[other|] pre IH]; intros types; simpl; try done.
  destruct (negb (String.eqb (tr_Kind other) "OBJECT")); [done|].
  by destruct (all !! tr_Name other) as [[]|].
Qed.

Lemma parseSchema_union_steps pre post n fs ifs members evs all :
  parseSchema (schemaOf (pre ++ IType n "UNION" fs ifs members evs :: post)) = Ok all →
  ∃ all0 all1 types,
    (∀ members', declareTypes (pre ++ IType n "UNION" fs ifs members' evs :: post) ∅ = Ok all0) ∧
    wireTypes pre all0 = Ok all1 ∧ sameSkeleton all1 all ∧
    wirePossibleTypes n members all1 ∅ = Ok types.
Proof.
  simpl. destruct (declareTypes _ ∅) as [all0| |] eqn:Hd; simpl; try done.
  rewrite wireTypes_app.
  destruct (wireTypes pre all0) as [all1| |] eqn:H1; simpl; try done.
  destruct (wireType _ all1) as [all2| |] eqn:H2; simpl; try done.
  intros H3. exists all0, all1. pose proof H2 as H2'.
  unfold wireType in H2. simpl in H2.
  destruct (wirePossibleTypes n members all1 ∅) as [types| |] eqn:Hw; simpl in H2; try done.
  exists types. split; [|split; [done|split; [|done]]].
  - intros members'. rewrite <- Hd. apply declareTypes_ext.
    apply Forall2_app; [by apply Forall_Forall2_diag, Forall_forall|].
    constructor; [done|]. by apply Forall_Forall2_diag, Forall_forall.
  - eapply sameSkeleton_trans; [|by eapply wireTypes_sameSkeleton].
    eapply wireType_sameSkeleton. exact H2'.
Qed.

(** X15. A member added to a union of a realizable schema: a nil member
    makes [parseSchema] panic; a member whose kind is not OBJECT gives the
    error [has possible typ not OBJECT]; and a member of kind OBJECT that
    names no object type makes [parseSchema] panic as well: the error
    that the source builds for it reads the name of a nil object. *)
Theorem parseSchema_union_member pre post n fs ifs members evs rest all :
  parseSchema (schemaOf (pre ++ IType n "UNION" fs ifs members evs :: post)) = Ok all →
  parseSchema (schemaOf (pre ++ IType n "UNION" fs ifs (members ++ None :: rest) evs :: post))
    = Panic ∧
  ∀ other,
    let schema' := schemaOf (pre ++ IType n "UNION" fs ifs (members ++ Some other :: rest) evs
                              :: post) in
    (tr_Kind other ≠ "OBJECT" →
     parseSchema schema' =
       Err ("typ " +:+ n +:+ " has possible typ not OBJECT: " +:+ ref_String other)) ∧
    (tr_Kind other = "OBJECT" → ¬ isObject all (tr_Name other) →
     parseSchema schema' = Panic).
Proof.
  intros (all0 & all1 & types & Hd & H1 & Hsk & Hw)%parseSchema_union_steps.
  assert (∀ members' r,
    wirePossibleTypes n (members ++ members') all1 ∅ = r → isOk r = false →
    parseSchema (schemaOf (pre ++ IType n "UNION" fs ifs (members ++ members') evs :: post)) =
    match r with Ok _ => Panic | Err e => Err e | Panic => Panic end) as Hfail.
  { intros members' r Hr Hnok. simpl. rewrite Hd. simpl. rewrite wireTypes_app, H1. simpl.
    unfold wireType at 1. simpl. rewrite Hr. by destruct r. }
  split.
  - rewrite (Hfail _ Panic); [done| |done].
    by rewrite wirePossibleTypes_app, Hw.
  - intros other schema'. split.
    + intros Hk. unfold schema'.
      rewrite (Hfail _ (Err ("typ " +:+ n +:+ " has possible typ not OBJECT: " +:+ ref_String other)));
        [done| |done].
      rewrite wirePossibleTypes_app, Hw. simpl.
      by destruct (String.eqb_spec (tr_Kind other) "OBJECT").
    + intros Hk Hobj. unfold schema'. rewrite (Hfail _ Panic); [done| |done].
      rewrite wirePossibleTypes_app, Hw. simpl. rewrite Hk. simpl.
      destruct (all1 !! tr_Name other) as [[k fields| | | |]|] eqn:Hn; try done.
      destruct Hobj. destruct (sameSkeleton_object _ _ _ _ _ Hsk Hn) as [fields' ?].
      by exists k, fields'.
Qed.

Lemma parseSchema_union_member_witness :
  parseSchema (schemaOf [object "A" [];
                         IType "U" "UNION" [] [] [Some (TypeRef "OBJECT" "A" None);
                                                  Some (TypeRef "OBJECT" "B" None)] [];
                         IType "B" "SCALAR" [] [] [] []]) = Panic.
Proof.
  assert (parseSchema (schemaOf ([object "A" []] ++
            IType "U" "UNION" [] [] [Some (TypeRef "OBJECT" "A" None)] [] ::
            [IType "B" "SCALAR" [] [] [] []])) =
          Ok {[ "A" := GObject "A" ∅; "U" := GUnion "U" {[ "A" := "A" ]}; "B" := GScalar "B" ]})
    as Hp by (vm_compute; reflexivity).
  apply (proj2 (proj2 (parseSchema_union_member _ _ _ _ _ _ _ [] _ Hp)
                  (TypeRef "OBJECT" "B" None)) eq_refl).
  intros (k & fields & Hk). vm_compute in Hk. discriminate Hk.
Defined.


(** ** The schemas that [parseSchema] accepts *)

Section InsertLoopSuccess.
Context {T V : Type}.
Variable name : T → string.
Variable value : T → result V.

Lemma insertLoop_isOk source acc :
  isOk (insertLoop name value source acc) = true ↔ Forall (λ x, isOk (value x) = true) source.
Proof.
  revert acc. induction source as [|x source IH]; intros acc; simpl.
  - split; [constructor|done].
  - rewrite Forall_cons. destruct (value x) as [v| |]; simpl.
    + rewrite IH. tauto.
    + split; [done|]. by intros [? _].
    + split; [done|]. by intros [? _].
Qed.
End InsertLoopSuccess.

Lemma isOk_true {A} (r : result A) : isOk r = true ↔ ∃ x, r = Ok x.
Proof. destruct r; simpl; split; try done; eauto; by intros [? ?]. Qed.

Lemma lookupTypeRef_isOk t all :
  isOk (lookupTypeRef t all) = true ↔ ∃ s, shapeOfRef t = Some s ∧ is_Some (all !! baseName s).
Proof.
  rewrite isOk_true. split.
  - intros [ty (s & ? & _ & ?)%lookupTypeRef_Ok_shape]. eauto.
  - intros (s & Hs & Hin). by eapply lookupTypeRef_shape_Ok.
Qed.

Lemma parseInputFields_isOk source all :
  isOk (parseInputFields source all) = true ↔
  Forall (λ i, isOk (lookupTypeRef (if_Type i) all) = true) source.
Proof.
  unfold parseInputFields. rewrite parseInputFields_loop_insertLoop, insertLoop_isOk.
  apply Forall_iff. intros i. unfold inputFieldValue. by rewrite wrapErr_isOk.
Qed.

Lemma fieldValue_isOk typName all f :
  isOk (fieldValue typName all f) = true ↔
  isOk (lookupTypeRef (f_Type f) all) = true ∧
  Forall (λ i, isOk (lookupTypeRef (if_Type i) all) = true) (f_Args f).
Proof.
  rewrite <- parseInputFields_isOk. unfold fieldValue.
  destruct (lookupTypeRef (f_Type f) all); simpl; [|by split; [|intros []]..].
  destruct (parseInputFields (f_Args f) all); simpl; by split; [|intros []].
Qed.

Lemma wirePossibleTypes_isOk typName source all types :
  isOk (wirePossibleTypes typName source all types) = true ↔
  Forall (λ o, ∃ other, o = Some other ∧ tr_Kind other = "OBJECT" ∧ isObject all (tr_Name other))
    source.
Proof.
  revert types. induction source as [|[other|] source IH]; intros types; simpl.
  - split; [constructor|done].
  - rewrite Forall_cons.
    destruct (String.eqb_spec (tr_Kind other) "OBJECT") as [Hk|Hk]; simpl.
    + destruct (all !! tr_Name other) as [[k fields| | | |]|] eqn:Hn.
      * rewrite IH. split; [|tauto]. intros ?. split; [|done].
        exists other. repeat split; try done. by exists k, fields.
      * split; [done|]. intros [(o & [= <-] & _ & k & f & Ho) _]. congruence.
      * split; [done|]. intros [(o & [= <-] & _ & k & f & Ho) _]. congruence.
      * split; [done|]. intros [(o & [= <-] & _ & k & f & Ho) _]. congruence.
      * split; [done|]. intros [(o & [= <-] & _ & k & f & Ho) _]. congruence.
      * split; [done|]. intros [(o & [= <-] & _ & k & f & Ho) _]. congruence.
    + split; [done|]. by intros [(o & [= <-] & ? & _) _].
  - split; [done|]. rewrite Forall_cons. by intros [(o & ? & _) _].
Qed.

(** When one iteration of the second loop succeeds, for a type whose shell
    has the kind of the type. *)
Lemma wireType_isOk typ all shell :
  all !! t_Name typ = Some shell → shellKind shell = t_Kind typ →
  isOk (wireType typ all) = true ↔
  (t_Kind typ = "OBJECT" →
   Forall (λ f, isOk (lookupTypeRef (f_Type f) all) = true ∧
                Forall (λ i, isOk (lookupTypeRef (if_Type i) all) = true) (f_Args f))
     (t_Fields typ)) ∧
  (t_Kind typ = "INPUT_OBJECT" →
   Forall (λ i, isOk (lookupTypeRef (if_Type i) all) = true) (t_InputFields typ)) ∧
  (t_Kind typ = "UNION" →
   Forall (λ o, ∃ other, o = Some other ∧ tr_Kind other = "OBJECT" ∧
                         isObject all (tr_Name other)) (t_PossibleTypes typ)).
Proof.
  intros Hn Hk. unfold wireType. rewrite Hn.
  destruct (String.eqb_spec (t_Kind typ) "OBJECT") as [HK|H1].
  { rewrite HK in *. destruct shell; try done.
    pose proof (insertLoop_isOk f_Name (fieldValue (t_Name typ) all) (t_Fields typ) ∅) as Hi.
    rewrite <- wireFields_insertLoop in Hi.
    destruct (wireFields _ _ _ _); simpl in *.
    - split; [|done]. intros _. split; [|done]. intros _.
      eapply Forall_impl; [by apply Hi|]. intros f. by rewrite fieldValue_isOk.
    - split; [done|]. intros [H _]. apply Hi.
      eapply Forall_impl; [by apply H|]. intros f. by rewrite fieldValue_isOk.
    - split; [done|]. intros [H _]. apply Hi.
      eapply Forall_impl; [by apply H|]. intros f. by rewrite fieldValue_isOk. }
  destruct (String.eqb_spec (t_Kind typ) "INPUT_OBJECT") as [HK|H2].
  { rewrite HK in *. destruct shell; try done.
    pose proof (parseInputFields_isOk (t_InputFields typ) all) as Hi.
    destruct (parseInputFields _ _); simpl in *.
    - split; [|done]. intros _. split; [done|]. split; [|done]. intros _. by apply Hi.
    - split; [done|]. intros (_ & H & _). by apply Hi, H.
    - split; [done|]. intros (_ & H & _). by apply Hi, H. }
  destruct (String.eqb_spec (t_Kind typ) "UNION") as [HK|H3].
  { rewrite HK in *. destruct shell; try done.
    pose proof (wirePossibleTypes_isOk (t_Name typ) (t_PossibleTypes typ) all ∅) as Hi.
    destruct (wirePossibleTypes _ _ _ _); simpl in *.
    - split; [|done]. intros _. split; [done|]. split; [done|]. intros _. by apply Hi.
    - split; [done|]. intros (_ & _ & H). by apply Hi, H.
    - split; [done|]. intros (_ & _ & H). by apply Hi, H. }
  destruct (String.eqb_spec (t_Kind typ) "ENUM") as [HK|H4].
  { rewrite HK in *. destruct shell; try done. }
  destruct (String.eqb_spec (t_Kind typ) "SCALAR") as [HK|HK].
  { rewrite HK in *. done. }
  destruct shell; simpl in Hk; congruence.
Qed.

Lemma wireTypes_total types all :
  (∀ typ all', typ ∈ types → sameSkeleton all all' → isOk (wireType typ all') = true) →
  ∃ all', wireTypes types all = Ok all'.
Proof.
  revert all. induction types as [|typ types IH]; intros all Hok; simpl; [eauto|].
  destruct (wireType typ all) as [all1| |] eqn:H1.
  - simpl. apply IH. intros typ' all' Hin Hsk. apply Hok; [by right|].
    eapply sameSkeleton_trans; [by eapply wireType_sameSkeleton|done].
  - specialize (Hok typ all ltac:(left) (sameSkeleton_refl _)). by rewrite H1 in Hok.
  - specialize (Hok typ all ltac:(left) (sameSkeleton_refl _)). by rewrite H1 in Hok.
Qed.

Lemma shellKind_object shell : shellKind shell = "OBJECT" ↔ ∃ k fields, shell = GObject k fields.
Proof. destruct shell; simpl; split; try done; eauto; by intros (? & ? & ?). Qed.

Lemma elem_of_objectNames s n :
  n ∈ objectNames s ↔ ∃ typ, typ ∈ Types (Schema s) ∧ t_Name typ = n ∧ t_Kind typ = "OBJECT".
Proof.
  unfold objectNames. rewrite list_elem_of_fmap. split.
  - intros (typ & -> & [Hk Hin]%list_elem_of_filter). eauto.
  - intros (typ & Hin & <- & Hk). exists typ. split; [done|]. by apply list_elem_of_filter.
Qed.

(** The keys and the object shells of a map with the skeleton of the
    declared one are the type names and the object types of the schema. *)
Lemma declared_facts s all0 all :
  declareTypes (Types (Schema s)) ∅ = Ok all0 → sameSkeleton all0 all →
  (∀ n, is_Some (all !! n) ↔ n ∈ typeNames s) ∧
  (∀ n, isObject all n ↔ n ∈ objectNames s) ∧
  (∀ typ, typ ∈ Types (Schema s) →
     ∃ shell, all !! t_Name typ = Some shell ∧ shellKind shell = t_Kind typ).
Proof.
  intros (Hnd & Htyp & Hout)%declareTypes_Ok Hsk.
  assert (∀ typ, typ ∈ Types (Schema s) →
     ∃ shell, all !! t_Name typ = Some shell ∧ shellKind shell = t_Kind typ) as Hshell.
  { intros typ Hin. destruct (Htyp _ Hin) as [_ (shell0 & Hsh & Hl)].
    apply shellOf_Some in Hsh as (Hk & _).
    specialize (Hsk (t_Name typ)). rewrite Hl in Hsk.
    destruct (all !! t_Name typ) as [shell|]; [|done]. simpl in Hsk. injection Hsk as Hk' _.
    exists shell. split; [done|congruence]. }
  assert (∀ n, is_Some (all !! n) → n ∈ typeNames s) as Hdom.
  { intros n Hn. apply (sameSkeleton_is_Some _ _ _ (sameSkeleton_sym _ _ Hsk)) in Hn.
    destruct (decide (n ∈ typeNames s)) as [|Hnin]; [done|].
    rewrite (Hout _ Hnin), lookup_empty in Hn. by destruct Hn. }
  split; [|split; [|done]].
  - intros n. split; [apply Hdom|].
    intros (typ & -> & Hin)%list_elem_of_fmap. destruct (Hshell _ Hin) as (shell & -> & _).
    by eexists.
  - intros n. rewrite elem_of_objectNames. split.
    + intros (k & fields & Hn).
      assert (n ∈ typeNames s) as (typ & -> & Hin)%list_elem_of_fmap by (apply Hdom; by eexists).
      exists typ. repeat split; try done.
      destruct (Hshell _ Hin) as (shell & Hl & <-). rewrite Hn in Hl. by injection Hl as <-.
    + intros (typ & Hin & <- & Hk). destruct (Hshell _ Hin) as (shell & Hl & Hk').
      rewrite Hk in Hk'. apply shellKind_object in Hk' as (k & fields & ->). by exists k, fields.
Qed.

Lemma refResolves_isOk s all t :
  (∀ n, is_Some (all !! n) ↔ n ∈ typeNames s) →
  isOk (lookupTypeRef t all) = true ↔ refResolves (typeNames s) t.
Proof.
  intros Hdom. rewrite lookupTypeRef_isOk. unfold refResolves.
  split; intros (sh & ? & ?); exists sh; split; try done; by apply Hdom.
Qed.

Lemma typeResolves_isOk s all typ shell :
  (∀ n, is_Some (all !! n) ↔ n ∈ typeNames s) →
  (∀ n, isObject all n ↔ n ∈ objectNames s) →
  all !! t_Name typ = Some shell → shellKind shell = t_Kind typ →
  isOk (wireType typ all) = true ↔ typeResolves (typeNames s) (objectNames s) typ.
Proof.
  intros Hdom Hobj Hn Hk. rewrite (wireType_isOk _ _ _ Hn Hk). unfold typeResolves.
  assert (∀ f, (isOk (lookupTypeRef (f_Type f) all) = true ∧
                Forall (λ i, isOk (lookupTypeRef (if_Type i) all) = true) (f_Args f)) ↔
               fieldResolves (typeNames s) f) as Hf.
  { intros f. unfold fieldResolves. rewrite (refResolves_isOk s) by done.
    apply and_iff_compat_l, Forall_iff. intros i. by apply refResolves_isOk. }
  assert (∀ i, isOk (lookupTypeRef (if_Type i) all) = true ↔
               refResolves (typeNames s) (if_Type i)) as Hi.
  { intros i. by apply refResolves_isOk. }
  assert (∀ o, (∃ other, o = Some other ∧ tr_Kind other = "OBJECT" ∧ isObject all (tr_Name other)) ↔
               memberResolves (objectNames s) o) as Ho.
  { intros o. unfold memberResolves. split; intros (other & ? & ? & ?); exists other;
      repeat split; try done; by apply Hobj. }
  assert (Forall (λ f, isOk (lookupTypeRef (f_Type f) all) = true ∧
                       Forall (λ i, isOk (lookupTypeRef (if_Type i) all) = true) (f_Args f))
            (t_Fields typ) ↔ Forall (fieldResolves (typeNames s)) (t_Fields typ)) as ->
    by (apply Forall_iff; exact Hf).
  assert (Forall (λ i, isOk (lookupTypeRef (if_Type i) all) = true) (t_InputFields typ) ↔
          Forall (λ i, refResolves (typeNames s) (if_Type i)) (t_InputFields typ)) as ->
    by (apply Forall_iff; exact Hi).
  assert (Forall (λ o, ∃ other, o = Some other ∧ tr_Kind other = "OBJECT" ∧
                                isObject all (tr_Name other)) (t_PossibleTypes typ) ↔
          Forall (memberResolves (objectNames s)) (t_PossibleTypes typ)) as ->
    by (apply Forall_iff; exact Ho).
  done.
Qed.

Lemma parseSchema_realizable s :
  (∃ all, parseSchema (Some s) = Ok all) ↔ realizable s.
Proof.
  split.
  - intros [all Hp]. pose proof Hp as Hp'. simpl in Hp.
    destruct (declareTypes _ ∅) as [all0| |] eqn:Hd; simpl in Hp; try done.
    destruct (declared_facts s all0 all Hd (wireTypes_sameSkeleton _ _ _ Hp))
      as (Hdom & Hobj & Hshell).
    destruct (parseSchema_Ok_declares s all Hp') as (Hnd & Hk & _).
    split; [done|]. split; [done|]. apply Forall_forall. intros typ Hin.
    destruct (Hshell _ Hin) as (shell & Hl & Hsk).
    apply (typeResolves_isOk s all typ shell Hdom Hobj Hl Hsk).
    by rewrite (wireTypes_fixed _ _ _ Hnd Hp typ Hin).
  - intros (Hnd & Hk & Hres). simpl.
    destruct (declareTypes_total (Types (Schema s)) ∅ Hnd Hk) as [all0 Hd];
      [by intros; apply lookup_empty|].
    rewrite Hd. simpl. apply wireTypes_total. intros typ all' Hin Hsk.
    destruct (declared_facts s all0 all' Hd Hsk) as (Hdom & Hobj & Hshell).
    destruct (Hshell _ Hin) as (shell & Hl & Hsk').
    apply (typeResolves_isOk s all' typ shell Hdom Hobj Hl Hsk').
    rewrite Forall_forall in Hres. by apply Hres.
Qed.

(** X16. [parseSchema] accepts exactly the realizable schemas: those that
    repeat no type name, use only the five known kinds, mention in the
    fields, arguments and input fields of their object and input-object
    types only references that have a shape and name a type of the schema,
    and list in their unions only non-nil references of kind OBJECT to
    object types of the schema. *)
Theorem parseSchema_accepts s :
  (∃ all, parseSchema (Some s) = Ok all) ↔ realizable s.
Proof. apply parseSchema_realizable. Qed.


(** ** Merging realizable schemas *)

Lemma refResolves_mono names names' t :
  names ⊆ names' → refResolves names t → refResolves names' t.
Proof. intros Hsub (s & Hs & Hin). exists s. split; [done|]. by apply Hsub. Qed.

Lemma fieldResolves_mono names names' f :
  names ⊆ names' → fieldResolves names f → fieldResolves names' f.
Proof.
  intros Hsub [Ht Ha]. split; [by eapply refResolves_mono|].
  eapply Forall_impl; [done|]. intros i. by apply refResolves_mono.
Qed.

Lemma memberResolves_mono objects objects' o :
  objects ⊆ objects' → memberResolves objects o → memberResolves objects' o.
Proof. intros Hsub (other & ? & ? & ?). exists other. repeat split; try done. by apply Hsub. Qed.

Lemma typeResolves_mono names names' objects objects' t :
  names ⊆ names' → objects ⊆ objects' →
  typeResolves names objects t → typeResolves names' objects' t.
Proof.
  intros Hn Ho (Hf & Hi & Hm). split; [|split].
  - intros Hk. eapply Forall_impl; [by apply Hf|]. intros f. by apply fieldResolves_mono.
  - intros Hk. eapply Forall_impl; [by apply Hi|]. intros i. by apply refResolves_mono.
  - intros Hk. eapply Forall_impl; [by apply Hm|]. intros o. by apply memberResolves_mono.
Qed.

Lemma refResolves_merged names a b isInput r :
  mergeTypeRefs a b isInput = Ok r → refResolves names a → refResolves names (Some r).
Proof.
  intros (s & Ha & _ & Hr)%mergeTypeRefs_shape (s' & Hs' & Hin).
  exists s. split; [done|]. congruence.
Qed.

Lemma occ_second {T} (key : T → option string) n l p0 p1 rest :
  occ key n l = p0 :: p1 :: rest → p0 ∈ l ∧ p1 ∈ l.
Proof.
  intros Hocc. split.
  - by destruct (occ_cons_key _ _ _ _ _ Hocc).
  - assert (p1 ∈ occ key n l) as Hin by (rewrite Hocc; right; left).
    by apply occ_elem in Hin as [? _].
Qed.

Lemma mergeInputFields_resolves names a b mode r :
  Forall (λ i, refResolves names (if_Type i)) (a ++ b) →
  mergeInputFields a b mode = Ok r →
  Forall (λ i, refResolves names (if_Type i)) r.
Proof.
  rewrite !Forall_forall. intros Hab Hm x Hx.
  destruct (mergeByName_Ok_elem _ _ _ _ _ _ _ Hm Hx)
    as (n & [(p0 & l & Hocc & Hl & Hin)|(p0 & p1 & rest & Hocc & Hpair)]).
  - apply inputFieldSingle_Ok in Hl as ->. unfold keepInUnion in Hin.
    destruct (String.eqb mode Union); [|by apply elem_of_nil in Hin].
    apply list_elem_of_singleton in Hin as ->.
    apply Hab. by destruct (occ_cons_key _ _ _ _ _ Hocc).
  - apply inputFieldPair_Ok in Hpair as (t & Ht & ->). simpl.
    eapply refResolves_merged; [done|]. apply Hab. by destruct (occ_second _ _ _ _ _ _ Hocc).
Qed.

Lemma mergeFields_resolves names a b mode r :
  Forall (fieldResolves names) (a ++ b) →
  mergeFields a b mode = Ok r → Forall (fieldResolves names) r.
Proof.
  rewrite !Forall_forall. intros Hab Hm x Hx.
  destruct (mergeByName_Ok_elem _ _ _ _ _ _ _ Hm Hx)
    as (n & [(p0 & l & Hocc & [= <-] & Hin)|(p0 & p1 & rest & Hocc & Hpair)]).
  - unfold keepInUnion in Hin.
    destruct (String.eqb mode Union); [|by apply elem_of_nil in Hin].
    apply list_elem_of_singleton in Hin as ->.
    apply Hab. by destruct (occ_cons_key _ _ _ _ _ Hocc).
  - apply fieldPair_Ok in Hpair as (typ & args & Ht & Hargs & ->).
    destruct (occ_second _ _ _ _ _ _ Hocc) as [H0 H1].
    destruct (Hab _ H0) as [Ht0 Ha0]. destruct (Hab _ H1) as [Ht1 Ha1]. split; simpl.
    + by eapply refResolves_merged.
    + eapply mergeInputFields_resolves; [|done]. by apply Forall_app.
Qed.

Lemma mergePossibleTypes_resolves objects a b mode r :
  Forall (memberResolves objects) (a ++ b) →
  mergePossibleTypes a b mode = Ok r → Forall (memberResolves objects) r.
Proof.
  rewrite !Forall_forall. intros Hab Hm x Hx.
  destruct (mergeByName_first pt_key (keepSingle mode) firstOfPair a b r mode x
              (keepSingle_keeps mode) ltac:(done) Hm Hx) as (n & _ & Hhead).
  apply Hab. destruct (occ pt_key n (a ++ b)) as [|y l] eqn:Hocc; [done|].
  injection Hhead as ->. by destruct (occ_cons_key _ _ _ _ _ Hocc).
Qed.

Lemma mergeTypes_resolves names objects p0 p1 mode m :
  typeResolves names objects p0 → typeResolves names objects p1 →
  mergeTypes p0 p1 mode = Ok m → typeResolves names objects m.
Proof.
  intros (Hf0 & Hi0 & Hm0) (Hf1 & Hi1 & Hm1) Hm.
  destruct (mergeTypes_Ok _ _ _ _ Hm)
    as (Hk & [(K & l & Hl & ->)|[(K & l & Hl & ->)|[(K & l & Hl & ->)|[(K & l & Hl & ->)|(K & ->)]]]]);
    unfold typeResolves; simpl; rewrite K in *; (split; [|split]); try done; intros _.
  - eapply mergeInputFields_resolves; [|done]. apply Forall_app. split; [by apply Hi0|].
    apply Hi1. congruence.
  - eapply mergeFields_resolves; [|done]. apply Forall_app. split; [by apply Hf0|].
    apply Hf1. congruence.
  - eapply mergePossibleTypes_resolves; [|done]. apply Forall_app. split; [by apply Hm0|].
    apply Hm1. congruence.
Qed.

(** The types of a merged schema resolve against whatever names and
    objects the types of both inputs resolve against. *)
Lemma mergeSchemas_resolves names objects a b mode r :
  Forall (typeResolves names objects) (Types (Schema a) ++ Types (Schema b)) →
  Forall knownKind (Types (Schema a) ++ Types (Schema b)) →
  mergeSchemas (Some a) (Some b) mode = Ok r →
  Forall (typeResolves names objects) (Types (Schema r)) ∧ Forall knownKind (Types (Schema r)).
Proof.
  rewrite !Forall_forall. intros Hres Hkind (a' & b' & [= <-] & [= <-] & Hm)%mergeSchemas_Ok.
  assert (∀ x, x ∈ Types (Schema r) →
            typeResolves names objects x ∧ knownKind x) as H; [|split; intros x Hx; by apply H].
  intros x Hx.
  destruct (mergeByName_Ok_elem _ _ _ _ _ _ _ Hm Hx)
    as (n & [(p0 & l & Hocc & [= <-] & Hin)|(p0 & p1 & rest & Hocc & Hpair)]).
  - unfold keepInUnion in Hin.
    destruct (String.eqb mode Union); [|by apply elem_of_nil in Hin].
    apply list_elem_of_singleton in Hin as ->.
    destruct (occ_cons_key _ _ _ _ _ Hocc) as [_ Hin]. split; [by apply Hres|by apply Hkind].
  - apply typePair_Ok in Hpair.
    destruct (occ_second _ _ _ _ _ _ Hocc) as [H0 H1]. split.
    + apply (mergeTypes_resolves names objects p0 p1 mode x); [by apply Hres|by apply Hres|done].
    + destruct (mergeTypes_Ok _ _ _ _ Hpair) as
        (_ & [(K & l & _ & ->)|[(K & l & _ & ->)|[(K & l & _ & ->)|[(K & l & _ & ->)|(K & ->)]]]]);
        unfold knownKind; simpl; by rewrite K.
Qed.

Lemma mergeSchemas_union_objects a b r :
  NoDup (typeNames a) → NoDup (typeNames b) →
  mergeSchemas (Some a) (Some b) Union = Ok r →
  typeNames a ++ typeNames b ⊆ typeNames r ∧ objectNames a ++ objectNames b ⊆ objectNames r.
Proof.
  intros Hna Hnb Hmerge.
  destruct (mergeSchemas_Ok _ _ _ _ Hmerge) as (a' & b' & [= <-] & [= <-] & Hm). split.
  - apply mergeSchemas_names in Hmerge. rewrite Hmerge. intros n Hn.
    apply mergedNames_elem. split; [done|by left].
  - intros n Hn.
    assert (∃ x, x ∈ Types (Schema a) ++ Types (Schema b) ∧ t_Name x = n ∧ t_Kind x = "OBJECT")
      as (x & Hx & <- & Hk).
    { apply elem_of_app in Hn as [(x & ? & ? & ?)%elem_of_objectNames|(x & ? & ? & ?)%elem_of_objectNames];
        exists x; (split; [|done]); apply elem_of_app; auto. }
    apply elem_of_objectNames.
    destruct (mergeByName_union t_key (keepSingle Union) (typePair Union) _ _ _ x
                (λ n y l, keepSingle_Union n y l) Hm Hx)
      as (n & [= <-] & [[_ Hin]|(p0 & p1 & rest & m & Hocc & Hpair & Hin)]).
    + by exists x.
    + exists m. split; [done|].
      pose proof (typePair_keepsName Union _ _ _ _ (proj1 (occ_cons_key _ _ _ _ _ Hocc)) Hpair) as Hname.
      injection Hname as Hname. split; [done|].
      apply typePair_Ok, mergeTypes_Ok in Hpair as [Hkk Hcases].
      assert (t_Kind m = t_Kind p0) as ->.
      { destruct Hcases as [(K & l & _ & ->)|[(K & l & _ & ->)|[(K & l & _ & ->)|[(K & l & _ & ->)|(K & ->)]]]]; done. }
      destruct (occ_two_sides t_key (Types (Schema a)) (Types (Schema b)) _ _ _ _
                  ltac:(by rewrite omap_t_key) ltac:(by rewrite omap_t_key) Hocc)
        as (Ha & Hb & ->).
      assert (x ∈ occ t_key (t_Name x) (Types (Schema a) ++ Types (Schema b))) as Hxo
        by (by apply occ_elem).
      rewrite Hocc in Hxo. apply elem_of_cons in Hxo as [->|Hxo]; [done|].
      apply list_elem_of_singleton in Hxo as ->. congruence.
Qed.

Lemma mergeSchemas_union_preserves a b r :
  realizable a → realizable b → mergeSchemas (Some a) (Some b) Union = Ok r → realizable r.
Proof.
  intros (Hna & Hka & Hra) (Hnb & Hkb & Hrb) Hm.
  destruct (mergeSchemas_union_objects a b r Hna Hnb Hm) as [Hnames Hobjs].
  destruct (mergeSchemas_resolves (typeNames r) (objectNames r) a b Union r) as [Hres Hkind];
    try done.
  - apply Forall_app. split.
    + eapply Forall_impl; [exact Hra|]. intros t.
      apply typeResolves_mono; intros n Hn; [apply Hnames|apply Hobjs]; apply elem_of_app; auto.
    + eapply Forall_impl; [exact Hrb|]. intros t.
      apply typeResolves_mono; intros n Hn; [apply Hnames|apply Hobjs]; apply elem_of_app; auto.
  - by apply Forall_app.
  - split; [|done]. apply mergeSchemas_names in Hm. rewrite Hm. apply mergedNames_NoDup.
Qed.

(** X17. The Union merge of two schemas that [parseSchema] accepts is,
    when the merge succeeds, again a schema that [parseSchema] accepts. *)
Theorem mergeSchemas_union_parses a b r alla allb :
  parseSchema (Some a) = Ok alla → parseSchema (Some b) = Ok allb →
  mergeSchemas (Some a) (Some b) Union = Ok r →
  ∃ all, parseSchema (Some r) = Ok all.
Proof.
  intros Ha Hb Hm. apply parseSchema_realizable.
  eapply mergeSchemas_union_preserves; [| |done]; apply parseSchema_realizable; eauto.
Qed.

Lemma mergeSchemas_union_parses_witness :
  ∃ all, parseSchema (schemaOf
    [IType "Int" "SCALAR" [] [] [] [];
     object "Query" [Field "a" (Some (NonNullOf (scalar "Int"))) [];
                     Field "b" (Some (scalar "String")) []];
     IType "String" "SCALAR" [] [] [] []]) = Ok all.
Proof.
  eapply (mergeSchemas_union_parses
            (QueryResult (ISchema [object "Query" [Field "a" (Some (NonNullOf (scalar "Int"))) []];
                                   IType "Int" "SCALAR" [] [] [] []]))
            (QueryResult (ISchema [object "Query" [Field "b" (Some (scalar "String")) []];
                                   IType "String" "SCALAR" [] [] [] []])));
    vm_compute; reflexivity.
Defined.


(** ** Conversion of the service schemas *)

Lemma sortedKeys_elem {V} (m : gmap string V) k : k ∈ sortedKeys m ↔ is_Some (m !! k).
Proof.
  unfold sortedKeys. rewrite sortStrings_elem.
  change (map fst (map_to_list m)) with ((map_to_list m).*1).
  rewrite list_elem_of_fmap. split.
  - intros ([k' v] & -> & Hin%elem_of_map_to_list). by eexists.
  - intros [v Hv]. exists (k, v). split; [done|]. by apply elem_of_map_to_list.
Qed.

Lemma sortedKeys_NoDup {V} (m : gmap string V) : NoDup (sortedKeys m).
Proof. apply sortStrings_NoDup, NoDup_fst_map_to_list. Qed.

Lemma sortedKeys_Sorted {V} (m : gmap string V) : StronglySorted string_le (sortedKeys m).
Proof. apply sortStrings_Sorted. Qed.

Lemma sortedKeys_empty {V} : sortedKeys (∅ : gmap string V) = [].
Proof. unfold sortedKeys. by rewrite map_to_list_empty. Qed.

Lemma sortedKeys_nil {V} (m : gmap string V) : sortedKeys m = [] → m = ∅.
Proof.
  intros Hnil. apply map_empty. intros k.
  destruct (m !! k) eqn:Hk; [|done].
  assert (k ∈ sortedKeys m) as Hin by (apply sortedKeys_elem; by eexists).
  rewrite Hnil in Hin. by apply elem_of_nil in Hin.
Qed.

Lemma sortedKeys_singleton {V} k (v : V) : sortedKeys ({[k := v]} : gmap string V) = [k].
Proof. unfold sortedKeys. by rewrite map_to_list_singleton. Qed.

Lemma sortedKeys_fmap {V W} (f : V → W) (m : gmap string V) :
  sortedKeys (f <$> m) = sortedKeys m.
Proof.
  unfold sortedKeys. apply sortStrings_order_irrelevant.
  apply NoDup_Permutation; [apply NoDup_fst_map_to_list..|].
  intros k. change (map fst ?l) with (l.*1).
  rewrite !list_elem_of_fmap. split.
  - intros ([k' w] & -> & Hin%elem_of_map_to_list).
    rewrite lookup_fmap in Hin. destruct (m !! k') as [v|] eqn:Hv; [|done].
    exists (k', v). split; [done|]. by apply elem_of_map_to_list.
  - intros ([k' v] & -> & Hin%elem_of_map_to_list).
    exists (k', f v). split; [done|]. apply elem_of_map_to_list. by rewrite lookup_fmap, Hin.
Qed.

Lemma versionSchemas_nil versions : versionSchemas versions = [] ↔ versions = ∅.
Proof.
  unfold versionSchemas. split.
  - intros H%fmap_nil_inv. by apply sortedKeys_nil.
  - intros ->. by rewrite sortedKeys_empty.
Qed.

Lemma mergeSchemaSlice_no_schemas l mode :
  mergeSchemaSlice l mode = Err "no schemas" ↔ l = [].
Proof.
  destruct l as [|first rest]; [done|]. simpl. split; [|done].
  intros H. by apply mergeSchemaSlice_loop_not_no_schemas in H.
Qed.

(** What the first loop returns: the schema of each service, in order. *)
Lemma mergeServices_Ok schemas names byName slice byName' slice' :
  mergeServices schemas names byName slice = Ok (byName', slice') →
  ∃ ss, Forall2 (λ S s, serviceSchema schemas S = Ok s) names ss ∧
        slice' = slice ++ ss ∧
        (∀ S, S ∈ names → ∃ s, serviceSchema schemas S = Ok s ∧ byName' !! S = Some s) ∧
        (∀ S, S ∉ names → byName' !! S = byName !! S).
Proof.
  revert byName slice. induction names as [|S names IH]; intros byName slice; simpl.
  - intros [= <- <-]. exists []. rewrite app_nil_r. repeat split; try done.
    by intros S ?%elem_of_nil.
  - fold (serviceSchema schemas S).
    destruct (serviceSchema schemas S) as [s| |] eqn:Hs; simpl; try done.
    intros (ss & Hss & -> & Hin & Hout)%IH.
    exists (s :: ss). split; [by constructor|]. split; [by rewrite <- app_assoc|]. split.
    + intros S' HS'. destruct (decide (S' ∈ names)) as [Hn|Hn]; [by apply Hin|].
      apply elem_of_cons in HS' as [->|?]; [|done].
      exists s. split; [done|]. by rewrite (Hout _ Hn), lookup_insert_eq.
    + intros S' [Hne Hn]%not_elem_of_cons. by rewrite (Hout _ Hn), lookup_insert_ne.
Qed.

Lemma mergeServices_first_failure schemas names byName slice :
  (∃ r, mergeServices schemas names byName slice = Ok r) ∨
  (∃ pre S post, names = pre ++ S :: post ∧
     Forall (λ S', isOk (serviceSchema schemas S') = true) pre ∧
     isOk (serviceSchema schemas S) = false ∧
     sameFailure (mergeServices schemas names byName slice) (serviceSchema schemas S)).
Proof.
  revert byName slice. induction names as [|S names IH]; intros byName slice; simpl; [eauto|].
  fold (serviceSchema schemas S).
  destruct (serviceSchema schemas S) as [s| |] eqn:Hs; simpl.
  - destruct (IH (<[S := s]> byName) (slice ++ [s]))
      as [?|(pre & S' & post & -> & Hpre & HS' & Hsame)]; [by left|].
    right. exists (S :: pre), S', post. repeat split; try done.
    constructor; [by rewrite Hs|done].
  - right. exists [], S, names. rewrite Hs. done.
  - right. exists [], S, names. rewrite Hs. done.
Qed.

(** X18. [convertVersionedSchemas] returns [no schemas] for the empty map.
    When it succeeds, every service has at least one version and the
    Intersection merge of its versions succeeded.  A service with no
    version makes it return [no schemas], provided the versions of every
    service that has some merge. *)
Theorem convertVersionedSchemas_no_schemas schemas :
  (schemas = ∅ → convertVersionedSchemas schemas = Err "no schemas") ∧
  (∀ res, convertVersionedSchemas schemas = Ok res →
     schemas ≠ ∅ ∧
     ∀ S versions, schemas !! S = Some versions →
       versions ≠ ∅ ∧ ∃ s, mergeSchemaSlice (versionSchemas versions) Intersection = Ok s) ∧
  (∀ S, schemas !! S = Some ∅ →
     (∀ S' versions, schemas !! S' = Some versions → versions ≠ ∅ →
        isOk (mergeSchemaSlice (versionSchemas versions) Intersection) = true) →
     convertVersionedSchemas schemas = Err "no schemas").
Proof.
  split; [|split].
  - intros ->. unfold convertVersionedSchemas. by rewrite sortedKeys_empty.
  - intros res Hres. unfold convertVersionedSchemas in Hres.
    destruct (mergeServices schemas (sortedKeys schemas) ∅ []) as [[byName slice]| |] eqn:Hm;
      simpl in Hres; try done.
    apply mergeServices_Ok in Hm as (ss & Hss & -> & Hin & _). split.
    + intros ->. rewrite sortedKeys_empty in Hss. apply Forall2_nil_inv_l in Hss as ->.
      done.
    + intros S versions HS.
      destruct (Hin S) as (s & Hs & _); [apply sortedKeys_elem; by eexists|].
      unfold serviceSchema in Hs. rewrite HS in Hs. simpl in Hs. split; [|by eexists].
      intros ->. by rewrite (proj2 (versionSchemas_nil ∅)) in Hs.
  - intros S HS Hothers. unfold convertVersionedSchemas.
    destruct (mergeServices_first_failure schemas (sortedKeys schemas) ∅ [])
      as [[[byName slice] Hm]|(pre & S' & post & Hnames & _ & HS' & Hsame)].
    + apply mergeServices_Ok in Hm as (ss & _ & _ & Hin & _).
      destruct (Hin S) as (s & Hs & _); [apply sortedKeys_elem; by eexists|].
      unfold serviceSchema in Hs. rewrite HS in Hs. simpl in Hs.
      by rewrite (proj2 (versionSchemas_nil ∅)) in Hs.
    + assert (S' ∈ sortedKeys schemas) as [versions Hv]%sortedKeys_elem.
      { rewrite Hnames. apply elem_of_app. right. left. }
      assert (versions = ∅) as ->.
      { destruct (decide (versions = ∅)) as [|Hne]; [done|].
        specialize (Hothers _ _ Hv Hne). unfold serviceSchema in HS'.
        rewrite Hv in HS'. simpl in HS'. congruence. }
      unfold serviceSchema in Hsame. rewrite Hv in Hsame. simpl in Hsame.
      rewrite (proj2 (versionSchemas_nil ∅)) in Hsame by done. simpl in Hsame.
      destruct (mergeServices _ _ _ _); simpl in *; try done. by subst.
Qed.

Lemma convertVersionedSchemas_no_schemas_witness :
  convertVersionedSchemas ∅ = Err "no schemas" ∧
  convertVersionedSchemas
    {[ "a" := {[ "v1" := schemaOf [object "Query" []] ]}; "b" := ∅ ]} = Err "no schemas".
Proof.
  split.
  - by apply (proj1 (convertVersionedSchemas_no_schemas ∅)).
  - apply (proj2 (proj2 (convertVersionedSchemas_no_schemas _)) "b").
    + vm_compute. reflexivity.
    + intros S' versions HS' Hne.
      destruct (decide (S' = "a")) as [->|Ha].
      * vm_compute in HS'. injection HS' as <-. vm_compute. reflexivity.
      * destruct (decide (S' = "b")) as [->|Hb].
        -- vm_compute in HS'. injection HS' as <-. done.
        -- rewrite lookup_insert_ne, lookup_singleton_ne in HS' by done. done.
Defined.


(** *** One version per service *)

Lemma serviceSchema_single schemas S :
  serviceSchema ((λ schema, {["" := schema]}) <$> schemas) S =
  match schemas !! S with
  | Some s => Ok s
  | None => Err "no schemas"
  end.
Proof.
  unfold serviceSchema. rewrite lookup_fmap. destruct (schemas !! S) as [s|]; simpl.
  - unfold versionSchemas. rewrite sortedKeys_singleton. simpl. by rewrite lookup_singleton_eq.
  - by rewrite (proj2 (versionSchemas_nil ∅)).
Qed.

Lemma mergeServices_total schemas names byName slice :
  Forall (λ S, isOk (serviceSchema schemas S) = true) names →
  ∃ r, mergeServices schemas names byName slice = Ok r.
Proof.
  intros Hok.
  destruct (mergeServices_first_failure schemas names byName slice)
    as [?|(pre & S & post & -> & _ & HS & _)]; [done|].
  apply Forall_app in Hok as [_ [Hok _]%Forall_cons]. congruence.
Qed.

Lemma mergeServices_single schemas :
  mergeServices ((λ schema, {["" := schema]}) <$> schemas) (sortedKeys schemas) ∅ [] =
  Ok (schemas, sortedValues schemas).
Proof.
  destruct (mergeServices_total ((λ schema, {["" := schema]}) <$> schemas)
              (sortedKeys schemas) ∅ []) as [[byName slice] Hm].
  { apply Forall_forall. intros S [s Hs]%sortedKeys_elem.
    by rewrite serviceSchema_single, Hs. }
  rewrite Hm. apply mergeServices_Ok in Hm as (ss & Hss & -> & Hin & Hout). f_equal. f_equal.
  - apply map_eq. intros S. destruct (decide (S ∈ sortedKeys schemas)) as [HS|HS].
    + destruct (Hin _ HS) as (s & Hs & ->). rewrite serviceSchema_single in Hs.
      destruct (schemas !! S); [congruence|done].
    + rewrite (Hout _ HS), lookup_empty. symmetry. apply eq_None_not_Some.
      by rewrite <- sortedKeys_elem.
  - simpl. unfold sortedValues. clear Hin Hout.
    induction Hss as [|S s names ss HS _ IH]; [done|]. simpl. f_equal; [|done].
    rewrite serviceSchema_single in HS. destruct (schemas !! S); [by injection HS|done].
Qed.

Lemma convertSchema_unfold schemas :
  convertSchema schemas =
  merged ← mergeSchemaSlice (sortedValues schemas) Union;
  types ← parseSchema merged;
  fieldInfos ← annotateServices schemas types (sortedKeys schemas) ∅;
  Ok (MkSchemaWithFederationInfo
        (GSchema (rootType types "Query") (rootType types "Mutation")) fieldInfos types).
Proof.
  unfold convertSchema, convertVersionedSchemas.
  by rewrite sortedKeys_fmap, mergeServices_single.
Qed.

(** X19. [convertSchema] merges nothing in Intersection mode: it is the
    Union merge of the schemas in the order of the sorted service names,
    followed by [parseSchema].  An error of either is returned as it is,
    a successful result holds the realized types of the merged schema, and
    the schema of a single service is realized as it stands. *)
Theorem convertSchema_union schemas :
  (∀ e, mergeSchemaSlice (sortedValues schemas) Union = Err e →
     convertSchema schemas = Err e) ∧
  (∀ merged e, mergeSchemaSlice (sortedValues schemas) Union = Ok merged →
     parseSchema merged = Err e → convertSchema schemas = Err e) ∧
  (∀ res, convertSchema schemas = Ok res →
     ∃ merged, mergeSchemaSlice (sortedValues schemas) Union = Ok merged ∧
       parseSchema merged = Ok (sw_types res) ∧
       sw_Schema res = GSchema (rootType (sw_types res) "Query")
                               (rootType (sw_types res) "Mutation")) ∧
  (∀ S s res, schemas = {[S := s]} → convertSchema schemas = Ok res →
     parseSchema s = Ok (sw_types res)).
Proof.
  assert (∀ schemas res, convertSchema schemas = Ok res →
     ∃ merged, mergeSchemaSlice (sortedValues schemas) Union = Ok merged ∧
       parseSchema merged = Ok (sw_types res) ∧
       sw_Schema res = GSchema (rootType (sw_types res) "Query")
                               (rootType (sw_types res) "Mutation")) as Hok.
  { clear schemas. intros schemas res. rewrite convertSchema_unfold.
    destruct (mergeSchemaSlice _ Union) as [merged| |]; simpl; try done.
    destruct (parseSchema merged) as [types| |] eqn:Hp; simpl; try done.
    destruct (annotateServices _ _ _ _); simpl; try done.
    intros [= <-]. by exists merged. }
  split; [|split; [|split]].
  - rewrite convertSchema_unfold. by intros e ->.
  - rewrite convertSchema_unfold. intros merged e Hm Hp. rewrite Hm. simpl. by rewrite Hp.
  - apply Hok.
  - intros S s res -> (merged & Hm & Hp & _)%Hok.
    unfold sortedValues in Hm. rewrite sortedKeys_singleton in Hm. simpl in Hm.
    rewrite lookup_singleton_eq in Hm. simpl in Hm. by injection Hm as <-.
Qed.

Lemma convertSchema_union_witness :
  convertSchema {[ "b" := schemaOf [IType "X" "SCALAR" [] [] [] []];
                   "a" := schemaOf [IType "X" "OBJECT" [] [] [] []] ]}
    = Err "can't merge type X: conflicting kinds OBJECT and SCALAR" ∧
  convertSchema {[ "a" := schemaOf [object "T" []; object "T" []] ]} = Err "duplicate type T".
Proof.
  split.
  - apply (proj1 (convertSchema_union _)). vm_compute. reflexivity.
  - apply (proj1 (proj2 (convertSchema_union _))
             (schemaOf [object "T" []; object "T" []])); vm_compute; reflexivity.
Defined.


(** *** Provenance of the fields *)

Lemma addService_fold (service : string) (ptrs : list fieldPtr) (infos : gmap fieldPtr FieldInfo) (p : fieldPtr) :
  let final := foldl (addService service) infos ptrs in
  (p ∉ ptrs → final !! p = infos !! p) ∧
  (p ∈ ptrs →
   final !! p = Some (MkFieldInfo
     (match infos !! p with Some i => Service i | None => service end)
     (<[service := true]> (match infos !! p with Some i => Services i | None => ∅ end)))).
Proof.
  revert infos. induction ptrs as [|x ptrs IH]; intros infos; simpl.
  - split; [done|]. by intros ?%elem_of_nil.
  - destruct (IH (addService service infos x)) as [IHout IHin].
    destruct (decide (x = p)) as [->|Hne].
    + assert (addService service infos p !! p = Some (MkFieldInfo
        (match infos !! p with Some i => Service i | None => service end)
        (<[service := true]> (match infos !! p with Some i => Services i | None => ∅ end))))
        as Hstep.
      { unfold addService. rewrite lookup_insert_eq. by destruct (infos !! p). }
      split; [intros Hnin; destruct Hnin; left|]. intros _.
      destruct (decide (p ∈ ptrs)) as [Hin|Hnin].
      * rewrite (IHin Hin), Hstep. simpl. by rewrite insert_insert_eq.
      * by rewrite (IHout Hnin).
    + assert (addService service infos x !! p = infos !! p) as Hstep.
      { unfold addService. by rewrite lookup_insert_ne. }
      rewrite Hstep in IHout, IHin. split.
      * intros [_ Hnin]%not_elem_of_cons. by apply IHout.
      * intros [?|Hin]%elem_of_cons; [congruence|]. by apply IHin.
Qed.

Section Provenance.
Variable ptrsOf : string → list fieldPtr.

Lemma annotateAll_lookup (names : list string) (infos : gmap fieldPtr FieldInfo) (p : fieldPtr) :
  let owners := filter (λ S, p ∈ ptrsOf S) names in
  (owners = [] → annotateAll ptrsOf names infos !! p = infos !! p) ∧
  (∀ S0, head owners = Some S0 →
     ∃ info, annotateAll ptrsOf names infos !! p = Some info ∧
       Service info = match infos !! p with Some i => Service i | None => S0 end ∧
       ∀ S, Services info !! S =
              if decide (S ∈ owners) then Some true
              else infos !! p ≫= λ i, Services i !! S).
Proof.
  revert infos. induction names as [|S names IH]; intros infos; simpl.
  - split; [done|]. intros S0. done.
  - destruct (addService_fold S (ptrsOf S) infos p) as [Hout Hin].
    destruct (IH (foldl (addService S) infos (ptrsOf S))) as [IHnil IHcons].
    unfold annotateAll in *. simpl. rewrite filter_cons.
    destruct (decide (p ∈ ptrsOf S)) as [Hp|Hp]; simpl.
    + split; [done|]. intros S0 [= <-]. rewrite (Hin Hp) in IHnil, IHcons.
      destruct (filter (λ S, p ∈ ptrsOf S) names) as [|S1 owners'] eqn:Hf.
      * eexists. split; [by apply IHnil|]. split; [done|]. intros S'. simpl.
        destruct (decide (S' = S)) as [->|Hne].
        -- rewrite lookup_insert_eq. by rewrite decide_True by left.
        -- rewrite lookup_insert_ne by done.
           rewrite decide_False by (by intros ?%list_elem_of_singleton).
           by destruct (infos !! p).
      * destruct (IHcons S1 eq_refl) as (info & Hl & Hs & Hss).
        exists info. split; [done|]. split; [done|]. intros S'. rewrite Hss. simpl.
        destruct (decide (S' ∈ S1 :: owners')) as [Hin'|Hnin'].
        -- by rewrite decide_True by (by right).
        -- destruct (decide (S' = S)) as [->|Hne].
           ++ rewrite lookup_insert_eq. by rewrite decide_True by left.
           ++ rewrite lookup_insert_ne by done.
              rewrite decide_False; [by destruct (infos !! p)|].
              by intros [?|?]%elem_of_cons.
    + rewrite (Hout Hp) in IHnil, IHcons. done.
Qed.
End Provenance.

Lemma annotateType_fold (service : string) (types : typeMap) typ (infos infos' : gmap fieldPtr FieldInfo) :
  annotateType service types typ infos = Ok infos' →
  infos' = foldl (addService service) infos (typePtrs types typ).
Proof.
  unfold annotateType, typePtrs. destruct (String.eqb (t_Kind typ) "OBJECT").
  - destruct (types !! t_Name typ) as [[k fields| | | |]|]; try done.
    intros [= <-]. by rewrite foldl_fmap.
  - by intros [= <-].
Qed.

Lemma annotateTypes_fold (service : string) (types : typeMap) typs (infos infos' : gmap fieldPtr FieldInfo) :
  annotateTypes service types typs infos = Ok infos' →
  infos' = foldl (addService service) infos (concat (typePtrs types <$> typs)).
Proof.
  revert infos. induction typs as [|typ typs IH]; intros infos; simpl.
  - by intros [= <-].
  - destruct (annotateType service types typ infos) as [infos1| |] eqn:H1; simpl; try done.
    intros H2. rewrite foldl_app, <- (annotateType_fold _ _ _ _ _ H1). by apply IH.
Qed.

Lemma annotateServices_fold byName (types : typeMap) (names : list string) (infos infos' : gmap fieldPtr FieldInfo) :
  annotateServices byName types names infos = Ok infos' →
  infos' = annotateAll (servicePtrs byName types) names infos ∧
  ∀ S, S ∈ names → ∃ schema, default None (byName !! S) = Some schema.
Proof.
  revert infos infos'. induction names as [|S names IH]; intros infos infos'; simpl.
  - intros [= <-]. split; [done|]. by intros S ?%elem_of_nil.
  - destruct (default None (byName !! S)) as [schema|] eqn:HS; [|done].
    destruct (annotateTypes S types _ infos) as [infos1| |] eqn:H1; simpl; try done.
    intros [-> Hall]%IH. split.
    + unfold annotateAll. simpl. f_equal. unfold servicePtrs. rewrite HS.
      exact (annotateTypes_fold _ _ _ _ _ H1).
    + intros S' [->|?]%elem_of_cons; [eauto|by apply Hall].
Qed.

Lemma head_Sorted_le (l : list string) x y :
  StronglySorted string_le l → head l = Some x → y ∈ l → string_le x y.
Proof.
  destruct l as [|z l]; [done|]. intros Hs [= ->] [->|Hin]%elem_of_cons.
  - unfold string_le, String.leb. by rewrite string_compare_refl.
  - apply StronglySorted_inv in Hs as [_ Hall]. rewrite Forall_forall in Hall. by apply Hall.
Qed.

Lemma filter_ext_in {A} (P Q : A → Prop) `{∀ x, Decision (P x)} `{∀ x, Decision (Q x)}
    (l : list A) :
  (∀ x, x ∈ l → P x ↔ Q x) → filter P l = filter Q l.
Proof.
  induction l as [|x l IH]; [done|]. intros Hext. rewrite !filter_cons.
  rewrite IH by (intros y Hy; apply Hext; by right).
  destruct (decide (P x)) as [HP|HP], (decide (Q x)) as [HQ|HQ]; try done;
    exfalso; apply (Hext x ltac:(left)) in HP || apply (Hext x ltac:(left)) in HQ; done.
Qed.

Lemma convertVersionedSchemas_Ok schemas res :
  convertVersionedSchemas schemas = Ok res →
  ∃ byName ss merged,
    Forall2 (λ S s, serviceSchema schemas S = Ok s) (sortedKeys schemas) ss ∧
    (∀ S, S ∈ sortedKeys schemas →
       ∃ schema, serviceSchema schemas S = Ok (Some schema) ∧ byName !! S = Some (Some schema)) ∧
    mergeSchemaSlice ss Union = Ok merged ∧
    parseSchema merged = Ok (sw_types res) ∧
    sw_Fields res = annotateAll (servicePtrs byName (sw_types res)) (sortedKeys schemas) ∅ ∧
    sw_Schema res = GSchema (rootType (sw_types res) "Query") (rootType (sw_types res) "Mutation").
Proof.
  unfold convertVersionedSchemas.
  destruct (mergeServices schemas (sortedKeys schemas) ∅ []) as [[byName slice]| |] eqn:Hm;
    simpl; try done.
  destruct (mergeSchemaSlice slice Union) as [merged| |] eqn:Hu; simpl; try done.
  destruct (parseSchema merged) as [types| |] eqn:Hp; simpl; try done.
  destruct (annotateServices byName types (sortedKeys schemas) ∅) as [infos| |] eqn:Ha;
    simpl; try done.
  intros [= <-]. simpl.
  apply mergeServices_Ok in Hm as (ss & Hss & -> & Hin & _).
  apply annotateServices_fold in Ha as [-> Hsome].
  exists byName, ss, merged. repeat split; try done.
  intros S HS. destruct (Hin S HS) as (s & Hs & Hl). destruct (Hsome S HS) as [schema Hd].
  rewrite Hl in Hd. simpl in Hd. subst s. eauto.
Qed.

(** X20. The provenance that [convertVersionedSchemas] records.  A field
    pointer has a record exactly when some service has the field in an
    OBJECT type of its schema; the record then lists exactly the services
    that have it, and names as [Service] the one that comes first in the
    byte-wise order of the service names. *)
Theorem convertVersionedSchemas_provenance schemas res (p : fieldPtr) :
  convertVersionedSchemas schemas = Ok res →
  let owners := filter (owns schemas (sw_types res) p) (sortedKeys schemas) in
  (sw_Fields res !! p = None ↔ owners = []) ∧
  ∀ info, sw_Fields res !! p = Some info →
    head owners = Some (Service info) ∧
    (∀ S, Services info !! S = if decide (S ∈ owners) then Some true else None) ∧
    (∀ S, S ∈ owners → string_le (Service info) S).
Proof.
  intros (byName & ss & merged & _ & HbyName & _ & _ & Hf & _)%convertVersionedSchemas_Ok owners.
  assert (owners = filter (λ S, p ∈ servicePtrs byName (sw_types res) S) (sortedKeys schemas))
    as Howners.
  { apply filter_ext_in. intros S HS. destruct (HbyName S HS) as (schema & Hs & Hl).
    unfold owns, servicePtrs. by rewrite Hs, Hl. }
  destruct (annotateAll_lookup (servicePtrs byName (sw_types res)) (sortedKeys schemas) ∅ p)
    as [Hnil Hcons].
  rewrite <- Howners, <- Hf in Hnil, Hcons. rewrite lookup_empty in Hnil. split.
  - split; [|done]. intros Hnone. destruct owners as [|S0 rest] eqn:Ho; [done|].
    destruct (Hcons S0 eq_refl) as (info & Hl & _). congruence.
  - intros info Hinfo. destruct owners as [|S0 rest] eqn:Ho.
    { rewrite Hnil in Hinfo; done. }
    destruct (Hcons S0 eq_refl) as (info' & Hl & Hs & Hss).
    rewrite Hinfo in Hl. injection Hl as <-. rewrite lookup_empty in Hs, Hss.
    split; [by rewrite Hs|]. split; [done|].
    intros S HS. apply (head_Sorted_le (S0 :: rest)); [|by rewrite Hs|done].
    rewrite <- Ho. apply StronglySorted_filter, sortedKeys_Sorted.
Qed.

Lemma convertVersionedSchemas_provenance_witness :
  let ping := [object "Query" [Field "ping" (Some (scalar "String")) []];
               IType "String" "SCALAR" [] [] [] []] in
  let schemas : serviceSchemas :=
    {[ "b" := {[ "" := schemaOf ping ]}; "a" := {[ "" := schemaOf ping ]} ]} in
  ∃ res info,
    convertVersionedSchemas schemas = Ok res ∧
    sw_Fields res !! Some ("Query", "ping") = Some info ∧
    head (filter (owns schemas (sw_types res) (Some ("Query", "ping"))) (sortedKeys schemas))
      = Some (Service info) ∧
    Service info = "a" ∧ Services info !! "b" = Some true.
Proof.
  intros ping schemas. eexists _, _. split; [vm_compute; reflexivity|].
  match goal with
  | |- sw_Fields ?r !! ?p = Some ?i ∧ _ =>
      assert (convertVersionedSchemas schemas = Ok r) as H by (vm_compute; reflexivity)
  end.
  split; [vm_compute; reflexivity|].
  split; [|split; vm_compute; reflexivity].
  match goal with
  | |- head (filter (owns _ (sw_types ?r) ?p) _) = Some (Service ?i) =>
      apply (proj1 (proj2 (convertVersionedSchemas_provenance schemas r p H) i
                      ltac:(vm_compute; reflexivity)))
  end.
Defined.


(** *** Merging schemas that can be realized *)

Lemma mergeTypeRefs_shaped a b isInput :
  is_Some (shapeOfRef a) → is_Some (shapeOfRef b) → mergeTypeRefs a b isInput ≠ Panic.
Proof.
  pattern a, b. apply ref_pair_ind. clear a b.
  intros a b IH [sa Ha] [sb Hb].
  destruct a as [a|]; [|done]. destruct b as [b|]; [|done]. simpl in *.
  rewrite mergeTypeRefs_body.
  destruct (isNonNull a || isNonNull b) eqn:E.
  - destruct (shapeOf_strips _ _ E) as [Ea Eb].
    specialize (IH (strip a) (strip b) (strip_size_lt _ _ E)).
    rewrite Ea, Ha, Eb, Hb in IH. specialize (IH ltac:(by eexists) ltac:(by eexists)).
    destruct (mergeTypeRefs (strip a) (strip b) isInput); simpl; try done.
    by destruct (isInput || isNonNull a && isNonNull b).
  - apply orb_false_elim in E as [Ea Eb].
    rewrite (shapeOf_not_nonnull a Ea) in Ha. rewrite (shapeOf_not_nonnull b Eb) in Hb.
    destruct (negb (String.eqb (tr_Kind a) (tr_Kind b))) eqn:Hk; [done|].
    apply negb_false_iff, String.eqb_eq in Hk.
    destruct (isBasicKind (tr_Kind a)) eqn:Hka.
    + by destruct (negb (String.eqb (tr_Name a) (tr_Name b))).
    + rewrite <- Hk, Hka in Hb.
      destruct (String.eqb (tr_Kind a) "LIST"); [|done].
      destruct (shapeOfRef (tr_OfType a)) as [sa'|] eqn:Hsa; [|done].
      destruct (shapeOfRef (tr_OfType b)) as [sb'|] eqn:Hsb; [|done].
      specialize (IH (tr_OfType a) (tr_OfType b) (ofType_size_lt _ _)).
      rewrite Hsa, Hsb in IH. specialize (IH ltac:(by eexists) ltac:(by eexists)).
      by destruct (mergeTypeRefs (tr_OfType a) (tr_OfType b) isInput).
Qed.

Section MergeNoPanic.
Context {T : Type}.
Variable key : T → option string.
Variable single : string → T → result (list T).
Variable pair : string → T → T → result T.

Lemma mergeByName_not_Panic (a b : list T) :
  Forall (λ x, is_Some (key x)) (a ++ b) →
  (∀ n p0, p0 ∈ a ++ b → single n p0 ≠ Panic) →
  (∀ n p0 p1, p0 ∈ a ++ b → p1 ∈ a ++ b → pair n p0 p1 ≠ Panic) →
  mergeByName key single pair a b ≠ Panic.
Proof.
  intros Hk Hs Hp. rewrite mergeByName_list_eq. unfold mergeByName_list.
  rewrite (proj2 (forallb_bool_decide (λ x, is_Some (key x)) (a ++ b)) Hk).
  destruct (mapConcat_first_failure (entryOf key single pair (a ++ b)) (namesOf key (a ++ b)))
    as [[r ->]|(pre & n & post & Hnames & _ & _ & ->)]; [done|].
  assert (n ∈ namesOf key (a ++ b)) as Hn.
  { rewrite Hnames. apply elem_of_app. right. left. }
  apply namesOf_elem in Hn as (x & Hx & Hkx).
  unfold entryOf.
  destruct (occ key n (a ++ b)) as [|p0 [|p1 rest]] eqn:Hocc.
  - apply occ_nil_iff in Hocc. destruct Hocc. apply list_elem_of_omap. eauto.
  - apply Hs. by destruct (occ_cons_key _ _ _ _ _ Hocc).
  - assert (p0 ∈ a ++ b ∧ p1 ∈ a ++ b) as [H0 H1].
    { split; apply (occ_elem key n); rewrite Hocc; [left|right; left]. }
    specialize (Hp n p0 p1 H0 H1). by destruct (pair n p0 p1).
Qed.
End MergeNoPanic.

Lemma mergeInputFields_not_Panic a b mode :
  Forall (λ i, is_Some (shapeOfRef (if_Type i))) (a ++ b) →
  mergeInputFields a b mode ≠ Panic.
Proof.
  rewrite Forall_forall. intros Hres. apply mergeByName_not_Panic.
  - apply Forall_forall. intros x _. by eexists.
  - intros n p0 H0. unfold inputFieldSingle. destruct (Hres _ H0) as [s Hs].
    destruct (if_Type p0) as [t|]; [|done]. by destruct (String.eqb (tr_Kind t) "NON_NULL").
  - intros n p0 p1 H0 H1. unfold inputFieldPair.
    pose proof (mergeTypeRefs_shaped (if_Type p0) (if_Type p1) true (Hres _ H0) (Hres _ H1)).
    by destruct (mergeTypeRefs (if_Type p0) (if_Type p1) true).
Qed.

Lemma refResolves_shaped names t : refResolves names t → is_Some (shapeOfRef t).
Proof. intros (s & Hs & _). by eexists. Qed.

Lemma mergeFields_not_Panic names a b mode :
  Forall (fieldResolves names) (a ++ b) → mergeFields a b mode ≠ Panic.
Proof.
  rewrite Forall_forall. intros Hres. apply mergeByName_not_Panic.
  - apply Forall_forall. intros x _. by eexists.
  - done.
  - intros n p0 p1 [Ht0 Ha0]%Hres [Ht1 Ha1]%Hres. unfold fieldPair.
    pose proof (mergeTypeRefs_shaped (f_Type p0) (f_Type p1) false
                  (refResolves_shaped _ _ Ht0) (refResolves_shaped _ _ Ht1)).
    destruct (mergeTypeRefs (f_Type p0) (f_Type p1) false); simpl; try done.
    assert (mergeInputFields (f_Args p0) (f_Args p1) mode ≠ Panic).
    { apply mergeInputFields_not_Panic. apply Forall_app. split.
      - eapply Forall_impl; [exact Ha0|]. intros i. apply refResolves_shaped.
      - eapply Forall_impl; [exact Ha1|]. intros i. apply refResolves_shaped. }
    by destruct (mergeInputFields (f_Args p0) (f_Args p1) mode).
Qed.

Lemma mergePossibleTypes_not_Panic objects a b mode :
  Forall (memberResolves objects) (a ++ b) → mergePossibleTypes a b mode ≠ Panic.
Proof.
  rewrite Forall_forall. intros Hres. apply mergeByName_not_Panic; [|done..].
  apply Forall_forall. intros x (other & -> & _)%Hres. by eexists.
Qed.

Lemma mergeEnumValues_not_Panic a b mode : mergeEnumValues a b mode ≠ Panic.
Proof.
  apply mergeByName_not_Panic; [|done..]. apply Forall_forall. intros x _. by eexists.
Qed.

Lemma mergeTypes_not_Panic names objects p0 p1 mode :
  typeResolves names objects p0 → typeResolves names objects p1 →
  mergeTypes p0 p1 mode ≠ Panic.
Proof.
  intros (Hf0 & Hi0 & Hm0) (Hf1 & Hi1 & Hm1). unfold mergeTypes.
  destruct (negb (String.eqb (t_Kind p0) (t_Kind p1))) eqn:Hk; [done|].
  apply negb_false_iff, String.eqb_eq in Hk.
  destruct (String.eqb_spec (t_Kind p0) "INPUT_OBJECT") as [K|_].
  { assert (mergeInputFields (t_InputFields p0) (t_InputFields p1) mode ≠ Panic).
    { apply mergeInputFields_not_Panic. apply Forall_app. split.
      - eapply Forall_impl; [by apply Hi0|]. intros i. apply refResolves_shaped.
      - eapply Forall_impl; [apply Hi1; congruence|]. intros i. apply refResolves_shaped. }
    by destruct (mergeInputFields _ _ _). }
  destruct (String.eqb_spec (t_Kind p0) "OBJECT") as [K|_].
  { assert (mergeFields (t_Fields p0) (t_Fields p1) mode ≠ Panic).
    { apply (mergeFields_not_Panic names). apply Forall_app. split; [by apply Hf0|].
      apply Hf1. congruence. }
    by destruct (mergeFields _ _ _). }
  destruct (String.eqb_spec (t_Kind p0) "UNION") as [K|_].
  { assert (mergePossibleTypes (t_PossibleTypes p0) (t_PossibleTypes p1) mode ≠ Panic).
    { apply (mergePossibleTypes_not_Panic objects). apply Forall_app. split; [by apply Hm0|].
      apply Hm1. congruence. }
    by destruct (mergePossibleTypes _ _ _). }
  destruct (String.eqb_spec (t_Kind p0) "ENUM") as [K|_].
  { pose proof (mergeEnumValues_not_Panic (t_EnumValues p0) (t_EnumValues p1) mode).
    by destruct (mergeEnumValues _ _ _). }
  by destruct (String.eqb (t_Kind p0) "SCALAR").
Qed.

(** Merging two schemas whose types resolve, against whatever names and
    objects, does not panic. *)
Lemma mergeSchemas_not_Panic names objects names' objects' a b mode :
  Forall (typeResolves names objects) (Types (Schema a)) →
  Forall (typeResolves names' objects') (Types (Schema b)) →
  mergeSchemas (Some a) (Some b) mode ≠ Panic.
Proof.
  intros Ha Hb. unfold mergeSchemas.
  assert (Forall (typeResolves (names ++ names') (objects ++ objects'))
            (Types (Schema a) ++ Types (Schema b))) as Hres.
  { apply Forall_app. split.
    - eapply Forall_impl; [exact Ha|]. intros t.
      apply typeResolves_mono; intros n Hn; apply elem_of_app; auto.
    - eapply Forall_impl; [exact Hb|]. intros t.
      apply typeResolves_mono; intros n Hn; apply elem_of_app; auto. }
  rewrite Forall_forall in Hres.
  assert (mergeByName t_key (keepSingle mode) (typePair mode)
            (Types (Schema a)) (Types (Schema b)) ≠ Panic) as H.
  { apply mergeByName_not_Panic.
    - apply Forall_forall. intros x _. by eexists.
    - done.
    - intros n p0 p1 H0 H1. unfold typePair.
      pose proof (mergeTypes_not_Panic _ _ p0 p1 mode (Hres _ H0) (Hres _ H1)).
      by destruct (mergeTypes p0 p1 mode). }
  by destruct (mergeByName _ _ _ _ _).
Qed.

(** X29. Merging two schemas that [parseSchema] accepts never panics, in
    either mode: [mergeSchemas] returns a schema or an error. *)
Theorem mergeSchemas_accepted_no_panic a b alla allb mode :
  parseSchema (Some a) = Ok alla → parseSchema (Some b) = Ok allb →
  mergeSchemas (Some a) (Some b) mode ≠ Panic.
Proof.
  intros Ha Hb.
  assert (realizable a) as (_ & _ & Hra) by (apply parseSchema_realizable; eauto).
  assert (realizable b) as (_ & _ & Hrb) by (apply parseSchema_realizable; eauto).
  by eapply mergeSchemas_not_Panic.
Qed.

Lemma mergeSchemas_accepted_no_panic_witness :
  let a := QueryResult (ISchema [object "Query" [Field "a" (Some (scalar "Int")) []];
                                 IType "Int" "SCALAR" [] [] [] []]) in
  let b := QueryResult (ISchema [object "Query" [Field "a" (Some (scalar "String")) []];
                                 IType "String" "SCALAR" [] [] [] []]) in
  (∃ e, mergeSchemas (Some a) (Some b) Intersection = Err e) ∧
  mergeSchemas (Some a) (Some b) Intersection ≠ Panic.
Proof.
  intros a b. split; [eexists; vm_compute; reflexivity|].
  eapply (mergeSchemas_accepted_no_panic a b); vm_compute; reflexivity.
Defined.

(** *** What the Union merge keeps *)

Lemma mergeFields_names_eq a b mode r :
  mergeFields a b mode = Ok r → f_Name <$> r = mergedNames mode (f_Name <$> a ++ b).
Proof.
  intros Hm.
  apply (mergeByName_names f_key _ _ mode (keepSingle_keeps mode) (fieldPair_keepsName mode)) in Hm.
  by rewrite !omap_f_key in Hm.
Qed.

Lemma covers_refl s : covers s s.
Proof. intros t Hin Hk. by exists t. Qed.

Lemma covers_trans r m s : covers r m → covers m s → covers r s.
Proof.
  intros Hrm Hms t Hin Hk. destruct (Hms t Hin Hk) as (t' & Hin' & Hn' & Hk' & Hf').
  destruct (Hrm t' Hin' Hk') as (t'' & Hin'' & Hn'' & Hk'' & Hf'').
  exists t''. repeat split; try done; [congruence|]. intros n Hn. by apply Hf'', Hf'.
Qed.

Lemma mergeSchemas_union_covers a b r :
  NoDup (typeNames a) → NoDup (typeNames b) →
  mergeSchemas (Some a) (Some b) Union = Ok r → covers r a ∧ covers r b.
Proof.
  intros Hna Hnb Hmerge.
  destruct (mergeSchemas_Ok _ _ _ _ Hmerge) as (a' & b' & [= <-] & [= <-] & Hm).
  assert (∀ x, x ∈ Types (Schema a) ++ Types (Schema b) → t_Kind x = "OBJECT" →
            ∃ t', t' ∈ Types (Schema r) ∧ t_Name t' = t_Name x ∧ t_Kind t' = "OBJECT" ∧
              f_Name <$> t_Fields x ⊆ f_Name <$> t_Fields t') as H.
  { intros x Hx Hk.
    destruct (mergeByName_union t_key (keepSingle Union) (typePair Union) _ _ _ x
                (λ n y l, keepSingle_Union n y l) Hm Hx)
      as (n & [= <-] & [[_ Hin]|(p0 & p1 & rest & m & Hocc & Hpair & Hin)]).
    - by exists x.
    - exists m. split; [done|].
      pose proof (typePair_keepsName Union _ _ _ _ (proj1 (occ_cons_key _ _ _ _ _ Hocc)) Hpair)
        as Hname.
      injection Hname as Hname. split; [done|].
      apply typePair_Ok, mergeTypes_Ok in Hpair as [Hkk Hcases].
      destruct (occ_two_sides t_key (Types (Schema a)) (Types (Schema b)) _ _ _ _
                  ltac:(by rewrite omap_t_key) ltac:(by rewrite omap_t_key) Hocc)
        as (Ha & Hb & ->).
      assert (x ∈ occ t_key (t_Name x) (Types (Schema a) ++ Types (Schema b))) as Hxo
        by (by apply occ_elem).
      rewrite Hocc in Hxo.
      assert (x = p0 ∨ x = p1) as Hcase.
      { apply elem_of_cons in Hxo as [->|Hxo]; [by left|].
        apply list_elem_of_singleton in Hxo as ->. by right. }
      assert (t_Kind p0 = "OBJECT") as K0 by (destruct Hcase as [<-|<-]; congruence).
      destruct Hcases as [(K & _)|[(_ & l & Hl & ->)|[(K & _)|[(K & _)|(K & _)]]]];
        try (rewrite K0 in K; discriminate).
      simpl. split; [done|].
      rewrite (mergeFields_names_eq _ _ _ _ Hl). intros f Hf.
      apply mergedNames_elem. split; [|by left].
      rewrite fmap_app. apply elem_of_app. destruct Hcase as [<-|<-]; auto. }
  split; intros t Hin Hk; apply H; try done; apply elem_of_app; auto.
Qed.


(** *** Converting schemas that can be realized *)

Lemma union_fold m rest :
  realizable m → Forall (λ o, ∃ s, o = Some s ∧ realizable s) rest →
  mergeSchemaSlice_loop (Some m) rest Union ≠ Panic ∧
  ∀ r, mergeSchemaSlice_loop (Some m) rest Union = Ok r →
    ∃ r', r = Some r' ∧ realizable r' ∧ covers r' m ∧ ∀ s, Some s ∈ rest → covers r' s.
Proof.
  intros Hm Hrest. revert m Hm. induction Hrest as [|o rest (s & -> & Hs) _ IH]; intros m Hm.
  - simpl. split; [done|]. intros r [= <-]. exists m. split; [done|]. split; [done|].
    split; [apply covers_refl|]. by intros s ?%elem_of_nil.
  - cbn [mergeSchemaSlice_loop].
    pose proof (mergeSchemas_not_Panic _ _ _ _ m s Union (proj2 (proj2 Hm)) (proj2 (proj2 Hs)))
      as Hnp.
    destruct (mergeSchemas (Some m) (Some s) Union) as [m1| |] eqn:H1; simpl; try done.
    pose proof (mergeSchemas_union_preserves m s m1 Hm Hs H1) as Hm1.
    destruct (mergeSchemas_union_covers m s m1 (proj1 Hm) (proj1 Hs) H1) as [Hcm Hcs].
    destruct (IH m1 Hm1) as [Hnp' Hok]. split; [done|].
    intros r (r' & -> & Hr' & Hc1 & Hcrest)%Hok.
    exists r'. split; [done|]. split; [done|]. split; [by eapply covers_trans|].
    intros s' [[= ->]|Hin]%elem_of_cons; [by eapply covers_trans|by apply Hcrest].
Qed.

Lemma parseSchema_object_fields s all typ :
  parseSchema (Some s) = Ok all → typ ∈ Types (Schema s) → t_Kind typ = "OBJECT" →
  ∃ k fields, all !! t_Name typ = Some (GObject k fields) ∧
    ∀ n, n ∈ f_Name <$> t_Fields typ → is_Some (fields !! n).
Proof.
  intros Hp Hin Hk. destruct (parseSchema_Ok_declares s all Hp) as (Hnd & _ & _).
  simpl in Hp. destruct (declareTypes _ ∅) as [all0| |] eqn:Hd; simpl in Hp; try done.
  pose proof (wireTypes_fixed _ _ _ Hnd Hp typ Hin) as Hfix.
  unfold wireType in Hfix. rewrite Hk in Hfix. simpl in Hfix.
  destruct (wireFields _ _ _ _) as [fields| |] eqn:Hf; simpl in Hfix; try done.
  destruct (all !! t_Name typ) as [[k old| | | |]|] eqn:Hn; try done.
  injection Hfix as Hfix.
  assert (all !! t_Name typ = Some (GObject k fields)) as Hl.
  { rewrite <- Hfix at 1. apply lookup_insert_eq. }
  rewrite Hn in Hl. injection Hl as ->.
  exists k, fields. split; [done|]. intros n (f & -> & Hfin)%list_elem_of_fmap.
  rewrite wireFields_insertLoop in Hf.
  destruct (insertLoop_Ok _ _ _ _ _ Hf (f_Name f)) as [[Hnil _]|(x & v & _ & _ & ->)]; [|by eexists].
  assert (f ∈ named f_Name (f_Name f) (t_Fields typ)) as Hnamed
    by (by apply list_elem_of_filter).
  rewrite Hnil in Hnamed. by apply elem_of_nil in Hnamed.
Qed.

Lemma annotateTypes_total service (types : typeMap) typs (infos : gmap fieldPtr FieldInfo) :
  (∀ t, t ∈ typs → t_Kind t = "OBJECT" →
     ∃ k fields, types !! t_Name t = Some (GObject k fields)) →
  ∃ infos', annotateTypes service types typs infos = Ok infos'.
Proof.
  revert infos. induction typs as [|typ typs IH]; intros infos Hobj; simpl; [by eexists|].
  assert (∃ infos1, annotateType service types typ infos = Ok infos1) as [infos1 ->].
  { unfold annotateType. destruct (String.eqb_spec (t_Kind typ) "OBJECT") as [K|_]; [|by eexists].
    destruct (Hobj typ ltac:(left) K) as (k & fields & ->). by eexists. }
  simpl. apply IH. intros t Hin. apply Hobj. by right.
Qed.

Lemma annotateServices_total byName (types : typeMap) (names : list string)
    (infos : gmap fieldPtr FieldInfo) :
  (∀ S, S ∈ names → ∃ schema, byName !! S = Some (Some schema) ∧
     ∀ t, t ∈ Types (Schema schema) → t_Kind t = "OBJECT" →
       ∃ k fields, types !! t_Name t = Some (GObject k fields)) →
  ∃ infos', annotateServices byName types names infos = Ok infos'.
Proof.
  revert infos. induction names as [|S names IH]; intros infos Hall; simpl; [by eexists|].
  destruct (Hall S ltac:(left)) as (schema & -> & Hobj). simpl.
  destruct (annotateTypes_total S types (Types (Schema schema)) infos Hobj) as [infos1 ->].
  simpl. apply IH. intros S' Hin. apply Hall. by right.
Qed.

Lemma typePtrs_object (types : typeMap) t k fields :
  t_Kind t = "OBJECT" → types !! t_Name t = Some (GObject k fields) →
  (∀ n, n ∈ f_Name <$> t_Fields t → is_Some (fields !! n)) →
  typePtrs types t = (λ f, Some (t_Name t, f_Name f)) <$> t_Fields t.
Proof.
  intros K Hl Hf. unfold typePtrs. rewrite K, Hl. simpl.
  apply list_fmap_ext. intros i f Hi. unfold fieldPtrOf.
  destruct (Hf (f_Name f)) as [v ->]; [|done].
  apply list_elem_of_fmap. exists f. split; [done|]. by eapply list_elem_of_lookup_2.
Qed.

Lemma typePtrs_not_object (types : typeMap) t : t_Kind t ≠ "OBJECT" → typePtrs types t = [].
Proof. intros K. unfold typePtrs. by destruct (String.eqb_spec (t_Kind t) "OBJECT"). Qed.

Lemma elem_of_concat {A} (x : A) (ls : list (list A)) :
  x ∈ concat ls ↔ ∃ l, x ∈ l ∧ l ∈ ls.
Proof.
  induction ls as [|l ls IH]; simpl.
  - split; [by intros ?%elem_of_nil|]. by intros (l & _ & ?%elem_of_nil).
  - rewrite elem_of_app, IH. split.
    + intros [Hx|(l' & Hx & Hl')]; [exists l; split; [done|left]|exists l'; split; [done|by right]].
    + intros (l' & Hx & [->|Hl']%elem_of_cons); [by left|right; eauto].
Qed.

Lemma filter_none {A} (P : A → Prop) `{∀ x, Decision (P x)} (l : list A) :
  (∀ x, x ∈ l → ¬ P x) → filter P l = [].
Proof.
  induction l as [|x l IH]; [done|]. intros Hno. rewrite filter_cons.
  rewrite decide_False by (apply Hno; left). apply IH. intros y Hy. apply Hno. by right.
Qed.

Lemma filter_some {A} (P : A → Prop) `{∀ x, Decision (P x)} (l : list A) x :
  x ∈ l → P x → ∃ y, head (filter P l) = Some y.
Proof.
  intros Hin HP. assert (x ∈ filter P l) as Hf by (by apply list_elem_of_filter).
  destruct (filter P l) as [|y l']; [by apply elem_of_nil in Hf|]. by exists y.
Qed.

(** X30. [convertSchema] on schemas that [parseSchema] accepts.  It never
    panics; it fails only with the error of the Union merge of the
    schemas; and when it succeeds no record is kept under the nil field
    pointer, and every field of every OBJECT type of every service has a
    record, under the pointer to the field of that name in the realized
    object, whose [Services] lists the service. *)
Theorem convertSchema_accepted schemas :
  (∀ S o, schemas !! S = Some o → ∃ s all, o = Some s ∧ parseSchema (Some s) = Ok all) →
  convertSchema schemas ≠ Panic ∧
  (∀ e, convertSchema schemas = Err e →
     mergeSchemaSlice (sortedValues schemas) Union = Err e) ∧
  ∀ res, convertSchema schemas = Ok res →
    sw_Fields res !! None = None ∧
    ∀ S s t f, schemas !! S = Some (Some s) → t ∈ Types (Schema s) →
      t_Kind t = "OBJECT" → f ∈ t_Fields t →
      ∃ info, sw_Fields res !! Some (t_Name t, f_Name f) = Some info ∧
        Services info !! S = Some true.
Proof.
  intros Hacc.
  assert (∀ S o, schemas !! S = Some o → ∃ s, o = Some s ∧ realizable s) as Hreal.
  { intros S o (s & all & -> & Hp)%Hacc. exists s. split; [done|].
    apply parseSchema_realizable. eauto. }
  assert (Forall (λ o, ∃ s, o = Some s ∧ realizable s) (sortedValues schemas)) as Hvals.
  { unfold sortedValues. apply Forall_fmap, Forall_forall. intros S [o Ho]%sortedKeys_elem.
    simpl. rewrite Ho. simpl. by eapply Hreal. }
  assert (∀ S s, schemas !! S = Some (Some s) → Some s ∈ sortedValues schemas) as Hmem.
  { intros S s HS. unfold sortedValues. apply list_elem_of_fmap. exists S.
    rewrite HS. split; [done|]. apply sortedKeys_elem. by eexists. }
  rewrite convertSchema_unfold.
  destruct (sortedValues schemas) as [|first rest] eqn:Hsv.
  { simpl. split; [done|]. split; [by intros e [= <-]|done]. }
  apply Forall_cons in Hvals as [(m & -> & Hm) Hrest].
  destruct (union_fold m rest Hm Hrest) as [Hnp Hok].
  cbn [mergeSchemaSlice].
  destruct (mergeSchemaSlice_loop (Some m) rest Union) as [r| |] eqn:Hfold; simpl; try done.
  2: { split; [done|]. split; [by intros e [= <-]|done]. }
  destruct (Hok r eq_refl) as (r' & -> & Hr' & Hcm & Hcrest).
  assert (∀ s, Some s ∈ Some m :: rest → covers r' s) as Hcov.
  { intros s [[= ->]|Hin]%elem_of_cons; [done|by apply Hcrest]. }
  destruct (proj2 (parseSchema_realizable r') Hr') as [types Hp].
  cbn [parseSchema] in Hp |- *. rewrite Hp. simpl.
  assert (∀ S s t, schemas !! S = Some (Some s) → t ∈ Types (Schema s) → t_Kind t = "OBJECT" →
            ∃ k fields, types !! t_Name t = Some (GObject k fields) ∧
              ∀ n, n ∈ f_Name <$> t_Fields t → is_Some (fields !! n)) as Hobj.
  { intros S s t HS Hin K.
    destruct (Hcov s (Hmem _ _ HS) t Hin K) as (t' & Hin' & Hn' & K' & Hf').
    destruct (parseSchema_object_fields r' types t' Hp Hin' K') as (k & fields & Hl & Hfs).
    exists k, fields. rewrite <- Hn'. split; [done|]. intros n Hn. by apply Hfs, Hf'. }
  destruct (annotateServices_total schemas types (sortedKeys schemas) ∅) as [infos Ha].
  { intros S [o Ho]%sortedKeys_elem. destruct (Hreal _ _ Ho) as (s & -> & _).
    exists s. split; [done|]. intros t Hin K.
    destruct (Hobj S s t Ho Hin K) as (k & fields & Hl & _). eauto. }
  rewrite Ha. simpl. split; [done|]. split; [done|]. intros res [= <-]. simpl.
  apply annotateServices_fold in Ha as [-> _].
  assert (∀ S s, schemas !! S = Some (Some s) →
            servicePtrs schemas types S =
            concat ((λ t, if decide (t_Kind t = "OBJECT")
                          then (λ f, Some (t_Name t, f_Name f)) <$> t_Fields t
                          else []) <$> Types (Schema s))) as Hptrs.
  { intros S s HS. unfold servicePtrs, schemaPtrs. rewrite HS. simpl. f_equal.
    apply list_fmap_ext. intros i t Hi.
    assert (t ∈ Types (Schema s)) as Hin by (by eapply list_elem_of_lookup_2).
    destruct (decide (t_Kind t = "OBJECT")) as [K|K]; [|by apply typePtrs_not_object].
    destruct (Hobj S s t HS Hin K) as (k & fields & Hl & Hfs). by eapply typePtrs_object. }
  assert (∀ S, S ∈ sortedKeys schemas → ∃ s, schemas !! S = Some (Some s)) as Hsome.
  { intros S [o Ho]%sortedKeys_elem. destruct (Hreal _ _ Ho) as (s & -> & _). eauto. }
  split.
  - destruct (annotateAll_lookup (servicePtrs schemas types) (sortedKeys schemas) ∅ None)
      as [Hnil _].
    etrans; [apply Hnil|apply lookup_empty].
    apply filter_none. intros S0 HS0 Hin.
    destruct (Hsome S0 HS0) as [s HS]. rewrite (Hptrs S0 s HS) in Hin.
    apply elem_of_concat in Hin as (ptrs & Hin & (t & -> & _)%list_elem_of_fmap).
    destruct (decide (t_Kind t = "OBJECT")); [|by apply elem_of_nil in Hin].
    by apply list_elem_of_fmap in Hin as (f & ? & _).
  - intros S s t f HS Hin K Hf.
    destruct (annotateAll_lookup (servicePtrs schemas types) (sortedKeys schemas) ∅
                (Some (t_Name t, f_Name f))) as [_ Hcons].
    assert (Some (t_Name t, f_Name f) ∈ servicePtrs schemas types S) as Hown.
    { rewrite (Hptrs S s HS). apply elem_of_concat.
      exists ((λ f, Some (t_Name t, f_Name f)) <$> t_Fields t). split.
      - apply list_elem_of_fmap. by exists f.
      - apply list_elem_of_fmap. exists t. split; [|done]. by rewrite decide_True. }
    assert (S ∈ sortedKeys schemas) as HSk by (apply sortedKeys_elem; by eexists).
    destruct (filter_some (λ S', Some (t_Name t, f_Name f) ∈ servicePtrs schemas types S')
                (sortedKeys schemas) S HSk Hown) as [S0 Hhead].
    destruct (Hcons S0 Hhead) as (info & Hl & _ & Hss).
    exists info. split; [done|]. rewrite Hss. rewrite decide_True; [done|].
    by apply list_elem_of_filter.
Qed.


Lemma convertSchema_accepted_witness :
  let ping := [object "Query" [Field "ping" (Some (scalar "String")) []];
               IType "String" "SCALAR" [] [] [] []] in
  let pong := [object "Query" [Field "ping" (Some (scalar "String")) [];
                               Field "pong" (Some (NonNullOf (scalar "String"))) []];
               IType "String" "SCALAR" [] [] [] []] in
  let schemas : gmap string (option introspectionQueryResult) :=
    {[ "b" := schemaOf pong; "a" := schemaOf ping ]} in
  ∃ res info,
    convertSchema schemas = Ok res ∧
    sw_Fields res !! None = None ∧
    sw_Fields res !! Some ("Query", "ping") = Some info ∧ Services info !! "a" = Some true.
Proof.
  intros ping pong schemas.
  destruct (convertSchema_accepted schemas) as (_ & _ & Hok).
  { intros S o HS. unfold schemas in HS.
    destruct (decide (S = "b")) as [->|Hb].
    - rewrite lookup_insert_eq in HS. injection HS as <-.
      eexists _, _. split; [reflexivity|vm_compute; reflexivity].
    - rewrite lookup_insert_ne in HS by done.
      destruct (decide (S = "a")) as [->|Ha].
      + rewrite lookup_singleton_eq in HS. injection HS as <-.
        eexists _, _. split; [reflexivity|vm_compute; reflexivity].
      + by rewrite lookup_singleton_ne in HS. }
  assert (∃ res, convertSchema schemas = Ok res) as [res Hc]
    by (eexists; vm_compute; reflexivity).
  destruct (Hok res Hc) as [Hnil Hall].
  destruct (Hall "a" (QueryResult (ISchema ping))
              (object "Query" [Field "ping" (Some (scalar "String")) []])
              (Field "ping" (Some (scalar "String")) []))
    as (info & Hl & Hs).
  - vm_compute. reflexivity.
  - left.
  - reflexivity.
  - left.
  - exists res, info. split; [exact Hc|]. split; [exact Hnil|]. split; [exact Hl|exact Hs].
Defined.

End FederationSpec.

Module ReactiveSpec.
Import Reactive.

(** ** Reasoning in the monad *)

Lemma bind_Some {A B} (m : M A) (k : A → M B) s b s' :
  bind m k s = Some (b, s') ↔ ∃ a s1, m s = Some (a, s1) ∧ k a s1 = Some (b, s').
Proof.
  unfold bind. split.
  - destruct (m s) as [[a s1]|]; [|done]. eauto.
  - intros (a & s1 & -> & H). done.
Qed.

Lemma ret_Some {A} (a b : A) s s' : ret a s = Some (b, s') ↔ b = a ∧ s' = s.
Proof. unfold ret. split; [by intros [= -> ->]|by intros [-> ->]]. Qed.

Lemma modify_Some upd (u : unit) s s' : modify upd s = Some (u, s') ↔ s' = upd s.
Proof. unfold modify. destruct u. split; [by intros [= <-]|by intros ->]. Qed.

Lemma gets_Some {A} (proj : State → A) a s s' :
  gets proj s = Some (a, s') ↔ a = proj s ∧ s' = s.
Proof. unfold gets. split; [by intros [= <- <-]|by intros [-> ->]]. Qed.

Lemma getNode_Some n nd s s' :
  getNode n s = Some (nd, s') ↔ nodes s !! n = Some nd ∧ s' = s.
Proof.
  unfold getNode. destruct (nodes s !! n); split; try done.
  - by intros [= -> ->].
  - by intros [[= ->] ->].
  - by intros [? _].
Qed.

(** ** Counting the pending starts of [r.run] *)

Lemma taskTokens_app ts1 ts2 :
  taskTokens (ts1 ++ ts2) = (taskTokens ts1 + taskTokens ts2)%nat.
Proof. unfold taskTokens. by rewrite filter_app, length_app. Qed.

Lemma taskTokens_cons t ts :
  taskTokens (t :: ts) =
  ((if decide (t = GoCall RerunnerRun) then 1 else 0) + taskTokens ts)%nat.
Proof. unfold taskTokens. rewrite filter_cons. by destruct (decide _). Qed.

Lemma taskTokens_GoCall hs : taskTokens (GoCall <$> hs) = countRun hs.
Proof.
  unfold taskTokens, countRun. induction hs as [|h hs IH]; [done|].
  rewrite fmap_cons, !filter_cons.
  destruct (decide (h = RerunnerRun)) as [->|Hne].
  - rewrite decide_True by done. simpl. by rewrite IH.
  - rewrite decide_False by congruence. done.
Qed.

Lemma taskTokens_GoInvalidate ns : taskTokens (GoInvalidate <$> ns) = 0%nat.
Proof. unfold taskTokens. induction ns as [|n ns IH]; [done|]. by rewrite fmap_cons, filter_cons. Qed.

Lemma taskTokens_GoRelease ns : taskTokens (GoRelease <$> ns) = 0%nat.
Proof. unfold taskTokens. induction ns as [|n ns IH]; [done|]. by rewrite fmap_cons, filter_cons. Qed.

Lemma countRun_app hs1 hs2 : countRun (hs1 ++ hs2) = (countRun hs1 + countRun hs2)%nat.
Proof. unfold countRun. by rewrite filter_app, length_app. Qed.

Lemma heapTokens_insert_None m n nd :
  m !! n = None → heapTokens (<[n := nd]> m) = (nodeTokens nd + heapTokens m)%nat.
Proof.
  intros Hn. unfold heapTokens.
  apply (map_fold_insert_L (λ _ nd acc, nodeTokens nd + acc)%nat); [|done].
  intros. lia.
Qed.

Lemma heapTokens_insert_Some m n nd old :
  m !! n = Some old →
  (heapTokens (<[n := nd]> m) + nodeTokens old = heapTokens m + nodeTokens nd)%nat.
Proof.
  intros Hn.
  rewrite <- (insert_delete_eq m n nd).
  rewrite heapTokens_insert_None by apply lookup_delete_eq.
  rewrite <- (insert_delete_id m n old Hn) at 2.
  rewrite (heapTokens_insert_None (delete n m)) by apply lookup_delete_eq. lia.
Qed.

Lemma heapTokens_insert_le m n nd (d : nat) :
  (nodeTokens nd ≤ match m !! n with Some old => nodeTokens old | None => 0 end + d)%nat →
  (heapTokens (<[n := nd]> m) ≤ heapTokens m + d)%nat.
Proof.
  destruct (m !! n) as [old|] eqn:Hn; intros Hle.
  - pose proof (heapTokens_insert_Some m n nd old Hn). lia.
  - rewrite heapTokens_insert_None by done. lia.
Qed.

Lemma userCode_quiet {A} (g : M A) : userCode g ↔ quiet 0 g.
Proof.
  unfold userCode, quiet. split; intros H s a s' Hg;
    destruct (H s a s' Hg) as (? & ? & ?); repeat split; try done; lia.
Qed.

Lemma quiet_weaken {A} (d d' : nat) (g : M A) : (d ≤ d')%nat → quiet d g → quiet d' g.
Proof.
  intros Hle H s a s' Hg. destruct (H s a s' Hg) as (? & ? & ?).
  repeat split; try done; lia.
Qed.

Lemma quiet_bind {A B} (d1 d2 : nat) (m : M A) (k : A → M B) :
  quiet d1 m → (∀ a, quiet d2 (k a)) → quiet (d1 + d2) (bind m k).
Proof.
  intros Hm Hk s b s' (a & s1 & H1 & H2)%bind_Some.
  destruct (Hm _ _ _ H1) as (? & ? & ?). destruct (Hk a _ _ _ H2) as (? & ? & ?).
  repeat split; try congruence; lia.
Qed.

Lemma quiet_ret {A} (a : A) : quiet 0 (ret a).
Proof. intros s b s' [-> ->]%ret_Some. repeat split; try done; lia. Qed.

Lemma quiet_stuck {A} d : quiet d (@stuck A).
Proof. intros s a s' H. discriminate H. Qed.

Lemma quiet_spawnAll ts : quiet (taskTokens ts) (spawnAll ts).
Proof.
  intros s [] s' ->%modify_Some. unfold rerunTokens. simpl.
  rewrite taskTokens_app. repeat split; try done; lia.
Qed.

Lemma quiet_spawn t :
  quiet (if decide (t = GoCall RerunnerRun) then 1 else 0) (spawn t).
Proof.
  intros s [] s' ->%modify_Some. unfold rerunTokens. simpl.
  rewrite taskTokens_app, taskTokens_cons. change (taskTokens []) with 0%nat.
  destruct (decide _); repeat split; try done; lia.
Qed.

Lemma quiet_getNode n : quiet 0 (getNode n).
Proof. intros s a s' [_ ->]%getNode_Some. repeat split; try done; lia. Qed.

Lemma quiet_setNode n nd (d : nat) s s' (u : unit) :
  (nodeTokens nd ≤ match nodes s !! n with Some old => nodeTokens old | None => 0 end + d)%nat →
  setNode n nd s = Some (u, s') →
  (rerunTokens s' ≤ rerunTokens s + d)%nat ∧ rr s' = rr s ∧ trace s' = trace s ∧
  tasks s' = tasks s.
Proof.
  intros Hle ->%modify_Some. unfold rerunTokens. simpl.
  pose proof (heapTokens_insert_le (nodes s) n nd d Hle). repeat split; try done; lia.
Qed.

Lemma quiet_newNode nd : nodeTokens nd = 0%nat → quiet 0 (newNode nd).
Proof.
  intros Hnd s a s' [= <- <-]. unfold rerunTokens. simpl.
  assert (heapTokens (<[nextNode s := nd]> (nodes s)) ≤ heapTokens (nodes s) + 0)%nat.
  { apply heapTokens_insert_le. rewrite Hnd. lia. }
  repeat split; try done; lia.
Qed.

(** The node operations start no run of their own: a handler that fires
    moves from the node to the pending tasks. *)
Lemma quiet_addOut n target : quiet 0 (addOut n target).
Proof.
  intros s a s' H. unfold addOut in H.
  apply bind_Some in H as (nd & s1 & [Hnd ->]%getNode_Some & H).
  apply bind_Some in H as ([] & s2 & H2 & H).
  apply bind_Some in H as ([] & s3 & H3 & H).
  assert (rerunTokens s2 = rerunTokens s ∧ rr s2 = rr s ∧ trace s2 = trace s ∧ nodes s2 = nodes s)
    as (T2 & R2 & L2 & N2).
  { destruct (invalidated nd).
    - apply modify_Some in H2 as ->. unfold rerunTokens. simpl.
      rewrite taskTokens_app. change (taskTokens [_]) with 0%nat. repeat split; try done; lia.
    - by apply ret_Some in H2 as [_ ->]. }
  assert (rerunTokens s3 = rerunTokens s2 ∧ rr s3 = rr s2 ∧ trace s3 = trace s2 ∧ nodes s3 = nodes s2)
    as (T3 & R3 & L3 & N3).
  { destruct (released nd).
    - apply modify_Some in H3 as ->. unfold rerunTokens. simpl.
      rewrite taskTokens_app. change (taskTokens [_]) with 0%nat. repeat split; try done; lia.
    - by apply ret_Some in H3 as [_ ->]. }
  destruct (bool_decide _).
  - apply ret_Some in H as [_ ->]. repeat split; try congruence; lia.
  - eapply (quiet_setNode _ _ 0) in H as (? & ? & ? & ?).
    + repeat split; try congruence; lia.
    + rewrite N3, N2, Hnd. unfold nodeTokens. simpl. lia.
Qed.

Lemma quiet_invalidate n : quiet 0 (invalidate n).
Proof.
  intros s a s' H. unfold invalidate in H.
  apply bind_Some in H as (nd & s1 & [Hnd ->]%getNode_Some & H).
  destruct (invalidated nd).
  { apply ret_Some in H as [_ ->]. repeat split; try done; lia. }
  apply bind_Some in H as ([] & s2 & H2 & H).
  apply bind_Some in H as ([] & s3 & ->%modify_Some & ->%modify_Some).
  apply modify_Some in H2 as ->. unfold rerunTokens. simpl.
  rewrite !taskTokens_app, taskTokens_GoCall, taskTokens_GoInvalidate.
  pose proof (heapTokens_insert_Some (nodes s) n
                (Node (out nd) true (released nd) (releaseHandlers nd) []) nd Hnd) as Hh.
  unfold nodeTokens in Hh. simpl in Hh. change (countRun []) with 0%nat in Hh.
  repeat split; try done. lia.
Qed.

Lemma quiet_strobe n : quiet 0 (strobe n).
Proof.
  intros s a s' H. unfold strobe in H.
  apply bind_Some in H as (nd & s1 & [Hnd ->]%getNode_Some & ->%modify_Some).
  unfold rerunTokens. simpl. rewrite taskTokens_app, taskTokens_GoInvalidate.
  repeat split; try done. lia.
Qed.

Lemma quiet_release n : quiet 0 (release n).
Proof.
  intros s a s' H. unfold release in H.
  apply bind_Some in H as (nd & s1 & [Hnd ->]%getNode_Some & H).
  destruct (released nd).
  { apply ret_Some in H as [_ ->]. repeat split; try done; lia. }
  destruct (invalidated nd).
  - apply bind_Some in H as ([] & s2 & ->%modify_Some & H).
    apply bind_Some in H as ([] & s3 & ->%modify_Some & ->%modify_Some).
    unfold rerunTokens. simpl.
    rewrite !taskTokens_app, taskTokens_GoCall, taskTokens_GoRelease.
    pose proof (heapTokens_insert_Some (nodes s) n
                  (Node (out nd) true true [] (invalidateHandlers nd)) nd Hnd) as Hh.
    unfold nodeTokens in Hh. simpl in Hh. change (countRun []) with 0%nat in Hh.
    repeat split; try done. lia.
  - apply bind_Some in H as ([] & s2 & ->%modify_Some & ->%modify_Some).
    unfold rerunTokens. simpl. rewrite !taskTokens_app, taskTokens_GoRelease.
    pose proof (heapTokens_insert_Some (nodes s) n
                  (Node (out nd) false true (releaseHandlers nd) (invalidateHandlers nd)) nd Hnd) as Hh.
    unfold nodeTokens in Hh. simpl in Hh.
    repeat split; try done. lia.
Qed.

Lemma quiet_handleInvalidate n h :
  quiet (if decide (h = RerunnerRun) then 1 else 0) (handleInvalidate n h).
Proof.
  intros s a s' H. unfold handleInvalidate in H.
  apply bind_Some in H as (nd & s1 & [Hnd ->]%getNode_Some & H).
  destruct (invalidated nd).
  - apply quiet_spawn in H. by destruct h.
  - apply modify_Some in H as ->. unfold rerunTokens. simpl.
    pose proof (heapTokens_insert_Some (nodes s) n
                  (Node (out nd) false (released nd) (releaseHandlers nd)
                     (invalidateHandlers nd ++ [h])) nd Hnd) as Hh.
    unfold nodeTokens in Hh. simpl in Hh. rewrite countRun_app in Hh.
    change (countRun [h]) with (List.length (filter (λ h, h = RerunnerRun) [h])) in Hh.
    rewrite filter_cons, filter_nil in Hh.
    repeat split; try done. destruct (decide (h = RerunnerRun)); simpl in Hh; lia.
Qed.

(** ** One run of the executor *)

Lemma run_Some ctx f s r s' :
  run ctx f s = Some (r, s') →
  ∃ value err sf,
    f (Ctx (ctx_cache ctx) (Some (nextNode s)))
      (setNextNode (S (nextNode s)) (setNodes (<[nextNode s := emptyNode]> (nodes s)) s))
      = Some ((value, err), sf) ∧
    match err with
    | Some e => r = (None, Some e) ∧ s' = setTasks (tasks sf ++ [GoRelease (nextNode s)]) sf
    | None => r = (Some (Computation (nextNode s) value), None) ∧ s' = sf
    end.
Proof.
  unfold run. intros (c & s1 & [= <- <-] & H)%bind_Some.
  apply bind_Some in H as ([value err] & sf & Hf & H).
  exists value, err, sf. split; [done|].
  destruct err as [e|].
  - apply bind_Some in H as ([] & s2 & ->%modify_Some & [-> ->]%ret_Some). done.
  - apply ret_Some in H as [-> ->]. done.
Qed.

Lemma quiet_run ctx f : userFunc f → quiet 0 (run ctx f).
Proof.
  intros Hf s r s' (value & err & sf & Hcall & Hres)%run_Some.
  apply (proj1 (userCode_quiet _) (Hf _)) in Hcall as (Ht & Hr & Hl).
  assert (rerunTokens
            (setNextNode (S (nextNode s)) (setNodes (<[nextNode s := emptyNode]> (nodes s)) s))
          ≤ rerunTokens s)%nat as Hnew.
  { unfold rerunTokens. simpl.
    assert (heapTokens (<[nextNode s := emptyNode]> (nodes s)) ≤ heapTokens (nodes s) + 0)%nat.
    { apply heapTokens_insert_le. change (nodeTokens emptyNode) with 0%nat. lia. }
    lia. }
  simpl in *. destruct err as [e|]; destruct Hres as [-> ->].
  - unfold rerunTokens in *. simpl in *. rewrite taskTokens_app.
    change (taskTokens [_]) with 0%nat. repeat split; try done; lia.
  - repeat split; try done; lia.
Qed.

Lemma Rerunner_run_cases f w now s s' :
  userFunc f → Rerunner_run f w now s = Some (tt, s') →
  (trace s' = trace s ∧ rr s' = rr s ∧ rerunTokens s' = rerunTokens s ∧
   (w = CtxDone ∨ stop (rr s) = true))
  ∨
  (∃ err, trace s' = err :: trace s ∧ w = TimerFired ∧ stop (rr s) = false ∧
     cancelled (rr s') = cancelled (rr s) ∧ stop (rr s') = stop (rr s) ∧
     minRerunInterval (rr s') = minRerunInterval (rr s) ∧ lastRun (rr s') = now ∧
     match runEndOf err with
     | Skipped => False
     | Succeeded =>
         retryDelay (rr s') = minRerunInterval (rr s) ∧
         (∃ value, r_computation (rr s') = Some (Computation (nextNode s) value)) ∧
         (rerunTokens s' ≤ rerunTokens s + 1)%nat
     | Retried =>
         retryDelay (rr s') = cappedDouble (retryDelay (rr s)) ∧
         r_computation (rr s') = r_computation (rr s) ∧
         (rerunTokens s' ≤ rerunTokens s + 1)%nat
     | Failed _ =>
         retryDelay (rr s') = retryDelay (rr s) ∧
         r_computation (rr s') = r_computation (rr s) ∧
         (rerunTokens s' ≤ rerunTokens s)%nat ∧
         GoRelease (nextNode s) ∈ tasks s'
     end).
Proof.
  intros Hf H. unfold Rerunner_run in H. destruct w.
  { apply ret_Some in H as [_ ->]. left. auto. }
  apply bind_Some in H as (r & s1 & [-> ->]%gets_Some & H).
  destruct (stop (rr s)) eqn:Hstop.
  { apply ret_Some in H as [_ ->]. left. auto. }
  right.
  apply bind_Some in H as ([] & s1 & ->%modify_Some & H).
  apply bind_Some in H as ([computation err] & s2 & Hrun & H).
  pose proof (quiet_run _ _ Hf _ _ _ Hrun) as (Ht2 & Hr2 & Hl2).
  apply run_Some in Hrun as (value & err' & sf & Hcall & Hres).
  simpl in *.
  apply bind_Some in H as ([] & s3 & ->%modify_Some & H).
  apply bind_Some in H as ([] & s4 & ->%modify_Some & H).
  exists err.
  assert (rerunTokens s2 ≤ rerunTokens s)%nat as Ht2' by (unfold rerunTokens in *; simpl in *; lia).
  clear Ht2 Hcall.
  destruct err' as [e'|]; destruct Hres as [[= -> ->] ->].
  - simpl in Hr2, Hl2. destruct e' as [|msg]; simpl in H.
    + cbv [bind getRR gets setRetryDelay modify spawn] in H. injection H as <-.
      simpl. rewrite Hl2, Hr2. unfold cappedDouble. repeat split; try done.
      unfold rerunTokens in *. simpl in *. rewrite !taskTokens_app in *.
      change (taskTokens [GoCall RerunnerRun]) with 1%nat. lia.
    + apply ret_Some in H as [_ ->]. simpl. rewrite Hl2, Hr2.
      repeat split; try done; try (unfold rerunTokens in *; simpl in *; lia).
      apply elem_of_app. right. left.
  - simpl in H.
    apply bind_Some in H as (r & s5 & [-> ->]%gets_Some & H).
    apply bind_Some in H as ([] & s6 & Hold & H).
    apply bind_Some in H as ([] & s7 & ->%modify_Some & H).
    apply bind_Some in H as (r & s8 & [-> ->]%gets_Some & H).
    apply bind_Some in H as ([] & s9 & ->%modify_Some & H).
    apply quiet_handleInvalidate in H as (Ht & Hr & Hl).
    assert (rr s6 = MkRerunner (cancelled (rr s)) (minRerunInterval (rr s)) (retryDelay (rr s))
                      (r_computation (rr s6)) (stop (rr s)) now ∧
            trace s6 = None :: trace s ∧
            (rerunTokens s6 ≤ rerunTokens s)%nat) as (Hr6 & Hl6 & Ht6).
    { cbn in Hold. rewrite Hr2 in Hold. destruct (r_computation (rr s)) as [old|].
      - apply bind_Some in Hold as ([] & s10 & ->%modify_Some & ->%modify_Some).
        cbn. rewrite ?Hr2, ?Hl2. repeat split; try done.
        unfold rerunTokens in Ht2' |- *. cbn. rewrite taskTokens_app.
        change (taskTokens [_]) with 0%nat. lia.
      - apply ret_Some in Hold as [_ ->]. cbn. rewrite ?Hr2, ?Hl2. repeat split; try done. }
    cbn in Hr, Hl, Ht.
    rewrite Hr, Hl. cbn. rewrite Hr6, Hl6. cbn. rewrite Hstop.
    repeat split; try done.
    + by eexists.
    + rewrite decide_True in Ht by done.
      unfold rerunTokens in Ht, Ht6 |- *. cbn [tasks nodes setRR] in Ht. lia.
Qed.

(** ** Steps of the system *)

Lemma takeTask_tokens s pre t post :
  tasks s = pre ++ t :: post →
  (rerunTokens (setTasks (pre ++ post) s) +
   (if decide (t = GoCall RerunnerRun) then 1 else 0) = rerunTokens s)%nat.
Proof.
  intros Ht. unfold rerunTokens. cbn. rewrite Ht, !taskTokens_app, taskTokens_cons.
  destruct (decide _); lia.
Qed.

Lemma quiet_Stop_cancel s s' :
  Stop_cancel s = Some (tt, s') →
  rerunTokens s' = rerunTokens s ∧ trace s' = trace s ∧
  retryDelay (rr s') = retryDelay (rr s) ∧ minRerunInterval (rr s') = minRerunInterval (rr s).
Proof. intros ->%modify_Some. done. Qed.

Lemma quiet_Stop_locked s s' :
  Stop_locked s = Some (tt, s') →
  rerunTokens s' = rerunTokens s ∧ trace s' = trace s ∧
  retryDelay (rr s') = retryDelay (rr s) ∧ minRerunInterval (rr s') = minRerunInterval (rr s).
Proof.
  unfold Stop_locked. intros H.
  apply bind_Some in H as ([] & s1 & ->%modify_Some & H).
  apply bind_Some in H as (r & s2 & [-> ->]%gets_Some & H). cbn in H.
  destruct (r_computation (rr s)) as [c|].
  - apply bind_Some in H as ([] & s3 & ->%modify_Some & ->%modify_Some).
    unfold rerunTokens. cbn. rewrite taskTokens_app. change (taskTokens [_]) with 0%nat.
    repeat split; try done. lia.
  - apply ret_Some in H as [_ ->]. done.
Qed.

Lemma quiet_execTask_other f w now t :
  t ≠ GoCall RerunnerRun → quiet 0 (execTask f w now t).
Proof.
  intros Ht. destruct t as [[|id]|n|n|n]; simpl; [done|..].
  - apply quiet_ret.
  - apply quiet_release.
  - apply quiet_invalidate.
  - apply quiet_strobe.
Qed.

Lemma cons_neq {A} (x : A) (l : list A) : x :: l ≠ l.
Proof. intros H. apply (f_equal List.length) in H. simpl in H. lia. Qed.

(** A step that changes the trace is a run of [r.run] taken from the pending
    tasks, past its cancellation and stop checks. *)
Lemma step_trace_changed f s s' :
  userFunc f → step f s s' → trace s' ≠ trace s →
  ∃ pre post now,
    tasks s = pre ++ GoCall RerunnerRun :: post ∧
    Rerunner_run f TimerFired now (setTasks (pre ++ post) s) = Some (tt, s').
Proof.
  intros Hf Hstep Hne. destruct Hstep as [s pre t post w now s' Ht Hw Hex|s g s' Hg Hgs|s s' H|s s' H].
  - destruct (decide (t = GoCall RerunnerRun)) as [->|Hother].
    + simpl in Hex. destruct (Rerunner_run_cases _ _ _ _ _ Hf Hex) as [(Hl & _)|(err & Hl & -> & _)].
      * by destruct Hne.
      * by exists pre, post, now.
    + apply quiet_execTask_other in Hex as (_ & _ & Hl); [|done]. by destruct Hne.
  - apply Hg in Hgs as (_ & _ & Hl). by destruct Hne.
  - apply quiet_Stop_cancel in H as (_ & Hl & _). by destruct Hne.
  - apply quiet_Stop_locked in H as (_ & Hl & _). by destruct Hne.
Qed.

(** No step adds a pending start of [r.run]: a run consumes the one it was
    started from before it schedules the next. *)
Lemma step_tokens f s s' :
  userFunc f → step f s s' → (rerunTokens s' ≤ rerunTokens s)%nat.
Proof.
  intros Hf Hstep. destruct Hstep as [s pre t post w now s' Ht Hw Hex|s g s' Hg Hgs|s s' H|s s' H].
  - pose proof (takeTask_tokens _ _ _ _ Ht) as Htake.
    destruct (decide (t = GoCall RerunnerRun)) as [->|Hother].
    + simpl in Hex.
      destruct (Rerunner_run_cases _ _ _ _ _ Hf Hex) as [(_ & _ & Htok & _)|(err & _ & _ & _ & _ & _ & _ & _ & Hend)].
      * lia.
      * destruct err as [[|msg]|]; simpl in Hend; destruct Hend as (_ & _ & Htok); lia.
    + apply quiet_execTask_other in Hex as (Htok & _); [|done]. lia.
  - apply Hg in Hgs as (Htok & _). lia.
  - apply quiet_Stop_cancel in H as (-> & _). lia.
  - apply quiet_Stop_locked in H as (-> & _). lia.
Qed.


Lemma rtc_step_tokens f s s' :
  userFunc f → rtc (step f) s s' → (rerunTokens s' ≤ rerunTokens s)%nat.
Proof.
  intros Hf. induction 1 as [|s s1 s2 Hstep _ IH]; [lia|].
  pose proof (step_tokens _ _ _ Hf Hstep). lia.
Qed.


Lemma reachable_tokens f m s : userFunc f → reachable f m s → (rerunTokens s ≤ 1)%nat.
Proof.
  intros Hf Hr. apply (rtc_step_tokens _ _ _ Hf) in Hr.
  change (rerunTokens (NewRerunner m)) with 1%nat in Hr. done.
Qed.


Lemma userCode_Resource_Invalidate r : userCode (Resource_Invalidate r).
Proof. apply userCode_quiet. apply (quiet_spawn (GoInvalidate r)). Qed.

(** Modelled [release]: once it has run, the node is marked released. *)
Lemma release_marks_released n s s' :
  release n s = Some (tt, s') → ∃ nd, nodes s' !! n = Some nd ∧ released nd = true.
Proof.
  unfold release. intros H.
  apply bind_Some in H as (nd & s1 & [Hnd ->]%getNode_Some & H).
  destruct (released nd) eqn:Hrel.
  { apply ret_Some in H as [_ ->]. eauto. }
  destruct (invalidated nd).
  - apply bind_Some in H as ([] & s2 & ->%modify_Some & H).
    apply bind_Some in H as ([] & s3 & ->%modify_Some & ->%modify_Some).
    cbn. rewrite lookup_insert_eq. eauto.
  - apply bind_Some in H as ([] & s2 & ->%modify_Some & ->%modify_Some).
    cbn. rewrite lookup_insert_eq. eauto.
Qed.



(** ** The scenario of a failing second run *)

Lemma runTask_step f i w now s t s' :
  tasks s !! i = Some t →
  (w = CtxDone → cancelled (rr s) = true) →
  execTask f w now t (setTasks (take i (tasks s) ++ drop (S i) (tasks s)) s) = Some (tt, s') →
  step f s s'.
Proof.
  intros Ht Hw Hex. eapply step_task; [|exact Hw|exact Hex].
  symmetry. by apply take_drop_middle.
Qed.

Lemma userCode_NewResource : userCode NewResource.
Proof. apply userCode_quiet. by apply quiet_newNode. Qed.

Lemma quiet_AddDependency ctx r : quiet 0 (AddDependency ctx r).
Proof.
  unfold AddDependency. destruct (ctx_computation ctx) as [c|].
  - apply quiet_addOut.
  - apply (quiet_bind 0 0); [by apply quiet_newNode|]. intros n. apply quiet_addOut.
Qed.

Lemma quiet_gets {A} (proj : State → A) : quiet 0 (gets proj).
Proof. intros s a s' [_ ->]%gets_Some. repeat split; try done; lia. Qed.

Lemma quiet_setUser u : quiet 0 (modify (setUser u)).
Proof. intros s [] s' ->%modify_Some. repeat split; try done. unfold rerunTokens. cbn. lia. Qed.

Lemma dependThenFail_userFunc r : userFunc (dependThenFail r).
Proof.
  intros ctx. apply userCode_quiet. unfold dependThenFail.
  apply (quiet_bind 0 0); [apply quiet_gets|]. intros u.
  destruct (u =? 0)%Z; [|apply quiet_ret].
  apply (quiet_bind 0 0); [apply quiet_setUser|]. intros _.
  apply (quiet_bind 0 0); [apply quiet_AddDependency|]. intros _. apply quiet_ret.
Qed.

Lemma alwaysRetry_userFunc : userFunc alwaysRetry.
Proof. intros ctx. apply userCode_quiet, quiet_ret. Qed.

Lemma scenario_ready_reachable : reachable (dependThenFail 0) 10%Z scenario_ready.
Proof.
  unfold reachable, scenario_ready.
  eapply rtc_l.
  { eapply step_user with (g := (NewResource;; ret tt)%go).
    - apply userCode_quiet, (quiet_bind 0 0); [by apply quiet_newNode|]. intros _. apply quiet_ret.
    - vm_compute. reflexivity. }
  eapply rtc_l.
  { eapply (runTask_step _ 0 TimerFired 10%Z); [reflexivity|discriminate|vm_compute; reflexivity]. }
  eapply rtc_l.
  { eapply step_user with (g := Resource_Invalidate 0).
    - apply userCode_Resource_Invalidate.
    - vm_compute. reflexivity. }
  eapply rtc_l.
  { eapply (runTask_step _ 0 TimerFired 20%Z); [reflexivity|discriminate|vm_compute; reflexivity]. }
  eapply rtc_l.
  { eapply (runTask_step _ 0 TimerFired 20%Z); [reflexivity|discriminate|vm_compute; reflexivity]. }
  vm_compute. apply rtc_refl.
Qed.

Lemma scenario_failed_step : step (dependThenFail 0) scenario_ready scenario_failed.
Proof.
  eapply (runTask_step _ 0 TimerFired 30%Z); [reflexivity|discriminate|vm_compute; reflexivity].
Qed.

Lemma scenario_quiescent_step : step (dependThenFail 0) scenario_failed scenario_quiescent.
Proof.
  eapply (runTask_step _ 0 TimerFired 40%Z); [reflexivity|discriminate|vm_compute; reflexivity].
Qed.

(** The previously stored computation is another record than the current
    one.  In the scenario, after the second run has failed and every pending
    goroutine has run, the computation stored by the first run is still the
    executor's computation and its node is not released: this path leaves it
    to [Stop]. *)
Example failed_run_keeps_stored_computation :
  reachable (dependThenFail 0) 10%Z scenario_ready ∧
  step (dependThenFail 0) scenario_ready scenario_failed ∧
  trace scenario_failed = Some (OtherError "boom") :: trace scenario_ready ∧
  step (dependThenFail 0) scenario_failed scenario_quiescent ∧
  tasks scenario_quiescent = [] ∧
  r_computation (rr scenario_quiescent) = Some (Computation 1 (Some 1%Z)) ∧
  released <$> nodes scenario_quiescent !! 1 = Some false ∧
  nextNode scenario_ready = 2%nat ∧
  released <$> nodes scenario_quiescent !! 2 = Some true.
Proof.
  split; [apply scenario_ready_reachable|].
  split; [apply scenario_failed_step|].
  split; [by vm_compute|].
  split; [apply scenario_quiescent_step|].
  by vm_compute.
Qed.


(** ** Retry backoff *)

Lemma wrap64_small d : (- 2 ^ 62 ≤ d < 2 ^ 62)%Z → wrap64 (d * 2) = (2 * d)%Z.
Proof. intros Hd. unfold wrap64. rewrite Z.mod_small; lia. Qed.

Lemma cappedDouble_min d : cappedDouble d = Z.min (wrap64 (2 * d)) Minute.
Proof.
  unfold cappedDouble. rewrite (Z.mul_comm d 2).
  destruct (Z.ltb_spec Minute (wrap64 (2 * d))); lia.
Qed.

Lemma cappedDouble_le d : (cappedDouble d ≤ Minute)%Z.
Proof. rewrite cappedDouble_min. lia. Qed.

Lemma cappedDouble_small d :
  (- 2 ^ 62 ≤ d < 2 ^ 62)%Z → cappedDouble d = Z.min (2 * d) Minute.
Proof.
  intros Hd. rewrite cappedDouble_min. pose proof (wrap64_small d Hd) as H.
  rewrite (Z.mul_comm d 2) in H. by rewrite H.
Qed.

(** An executor created with a sensible interval never leaves the range in
    which doubling does not wrap. *)
Lemma reachable_retryDelay f m s :
  userFunc f → (0 ≤ m < 2 ^ 62)%Z → reachable f m s →
  minRerunInterval (rr s) = m ∧ (0 ≤ retryDelay (rr s) ≤ Z.max m Minute)%Z.
Proof.
  intros Hf Hm Hr. unfold reachable in Hr. revert s Hr.
  apply (rtc_ind_r (λ s, minRerunInterval (rr s) = m ∧
                         (0 ≤ retryDelay (rr s) ≤ Z.max m Minute)%Z)).
  { cbn. split; [done|]. lia. }
  intros s s' Hr Hstep [IHm IHd].
  destruct Hstep as [s pre t post w now s' Ht Hw Hex|s g s' Hg Hgs|s s' H|s s' H].
  - destruct (decide (t = GoCall RerunnerRun)) as [->|Hother].
    + simpl in Hex.
      destruct (Rerunner_run_cases _ _ _ _ _ Hf Hex)
        as [(_ & Hrr & _)|(err & _ & _ & _ & _ & _ & Hmin & _ & Hend)].
      * rewrite Hrr. done.
      * cbn in Hmin, Hend. rewrite Hmin. split; [done|].
        destruct err as [[|msg]|]; simpl in Hend.
        -- destruct Hend as (-> & _). rewrite cappedDouble_small by (unfold Minute in *; lia).
           unfold Minute in *. lia.
        -- destruct Hend as (-> & _). done.
        -- destruct Hend as (-> & _). lia.
    + apply quiet_execTask_other in Hex as (_ & Hrr & _); [|done]. by rewrite Hrr.
  - apply Hg in Hgs as (_ & Hrr & _). by rewrite Hrr.
  - apply quiet_Stop_cancel in H as (_ & _ & -> & ->). done.
  - apply quiet_Stop_locked in H as (_ & _ & -> & ->). done.
Qed.

(** C5, as the code has it.  A run that ends with the retry sentinel sets
    [retryDelay] to the minimum of 60 seconds and twice its previous value
    taken in wrapping 64-bit arithmetic, so it never exceeds 60 seconds; the
    doubling is exact when the previous value is within 2^62 nanoseconds of
    zero, which is always so for an executor created with an interval in
    that range.  A successful run resets [retryDelay] to
    [minRerunInterval]. *)
Theorem retryDelay_backoff f w now s s' :
  userFunc f → Rerunner_run f w now s = Some (tt, s') →
  (trace s' = Some RetrySentinelError :: trace s →
     retryDelay (rr s') = Z.min (wrap64 (2 * retryDelay (rr s))) Minute ∧
     (retryDelay (rr s') ≤ Minute)%Z ∧
     ((- 2 ^ 62 ≤ retryDelay (rr s) < 2 ^ 62)%Z →
      retryDelay (rr s') = Z.min (2 * retryDelay (rr s)) Minute) ∧
     (∀ m, (0 ≤ m < 2 ^ 62)%Z → reachable f m s →
      retryDelay (rr s') = Z.min (2 * retryDelay (rr s)) Minute)) ∧
  (trace s' = None :: trace s → retryDelay (rr s') = minRerunInterval (rr s)).
Proof.
  intros Hf Hrun.
  destruct (Rerunner_run_cases _ _ _ _ _ Hf Hrun)
    as [(Hl & _)|(err & Hl & _ & _ & _ & _ & _ & _ & Hend)].
  { split; intros Ht; rewrite Hl in Ht; symmetry in Ht; by apply cons_neq in Ht. }
  split; intros Ht; rewrite Hl in Ht; injection Ht as ->; simpl in Hend.
  - destruct Hend as (Hd & _). rewrite Hd.
    split; [apply cappedDouble_min|]. split; [apply cappedDouble_le|].
    split; [apply cappedDouble_small|].
    intros m Hm Hr. apply cappedDouble_small.
    destruct (reachable_retryDelay _ _ _ Hf Hm Hr) as [_ Hb]. unfold Minute in Hb. lia.
  - by destruct Hend as (Hd & _).
Qed.

(** C5 as stated fails: from a delay of 2^62 nanoseconds the doubled value
    wraps to -2^63, which is below 60 seconds and is kept. *)
Lemma retryDelay_backoff_counterexample :
  let s := NewRerunner (2 ^ 62)%Z in
  let s' := runTask alwaysRetry 0 TimerFired 0%Z s in
  step alwaysRetry s s' ∧
  trace s' = Some RetrySentinelError :: trace s ∧
  retryDelay (rr s') = (- 2 ^ 63)%Z ∧
  retryDelay (rr s') ≠ Z.min (2 * retryDelay (rr s)) Minute.
Proof.
  split.
  { eapply (runTask_step _ 0 TimerFired 0%Z); [reflexivity|discriminate|vm_compute; reflexivity]. }
  by vm_compute.
Qed.

Lemma retryDelay_backoff_witness :
  let s := setTasks [] (NewRerunner 10000000%Z) in
  let s1 := runUser (Rerunner_run alwaysRetry TimerFired 0%Z) s in
  let s2 := runUser (Rerunner_run alwaysRetry TimerFired 0%Z) (setTasks [] s1) in
  retryDelay (rr s1) = 20000000%Z ∧ retryDelay (rr s2) = 40000000%Z ∧
  (retryDelay (rr s2) ≤ Minute)%Z ∧
  retryDelay (rr s2) = Z.min (2 * retryDelay (rr s1)) Minute.
Proof.
  intros s s1 s2. split; [by vm_compute|]. split; [by vm_compute|].
  assert (Rerunner_run alwaysRetry TimerFired 0%Z (setTasks [] s1) = Some (tt, s2)) as Hrun
    by (vm_compute; reflexivity).
  destruct (retryDelay_backoff alwaysRetry TimerFired 0%Z (setTasks [] s1) s2
              alwaysRetry_userFunc Hrun) as [Hretry _].
  destruct Hretry as (_ & Hle & Hsmall & _); [vm_compute; reflexivity|].
  split; [exact Hle|]. apply Hsmall. vm_compute. split; [discriminate|reflexivity].
Defined.

(** ** Errors of sub-computations are not cached *)






(** The same on the concrete state: the error comes back, the cache stays
    empty, and a second call with a function that succeeds runs it and
    caches its value. *)
Example Cache_error_then_success :
  let s := runUser NewResource (NewRerunner 10%Z) in
  let ctx := Ctx true (Some 0) in
  let s1 := runUser (Cache ctx "k" failing) s in
  fst <$> Cache ctx "k" failing s = Some (None, Some (OtherError "no data")) ∧
  computations (theCache s1) = ∅ ∧
  out <$> nodes s1 !! 1 = Some [] ∧
  fst <$> Cache ctx "k" (λ _, ret (Some 7%Z, None)) s1 = Some (Some 7%Z, None) ∧
  computations (theCache (runUser (Cache ctx "k" (λ _, ret (Some 7%Z, None))) s1)) !! "k"
    = Some (Computation 2 (Some 7%Z)).
Proof. vm_compute. done. Qed.


(** ** Stopping the executor *)

Lemma Stop_cancel_Some s (u : unit) s' :
  Stop_cancel s = Some (u, s') →
  stop (rr s') = stop (rr s) ∧ r_computation (rr s') = r_computation (rr s) ∧
  cancelled (rr s') = true ∧ trace s' = trace s ∧ tasks s' = tasks s.
Proof. intros [= <- <-]. done. Qed.

Lemma Stop_locked_Some s (u : unit) s' :
  Stop_locked s = Some (u, s') →
  stop (rr s') = true ∧ r_computation (rr s') = None ∧
  cancelled (rr s') = cancelled (rr s) ∧ trace s' = trace s ∧
  (∀ c, r_computation (rr s) = Some c → GoRelease (c_node c) ∈ tasks s').
Proof.
  unfold Stop_locked. cbv [bind setStop modify getRR gets setComputation spawn ret]. simpl.
  destruct (r_computation (rr s)) as [c|]; intros [= <- <-]; simpl; repeat split; try done.
  intros c' [= <-]. apply elem_of_app. right. left.
Qed.

Lemma stopped_step f s s' :
  userFunc f → stopped s → step f s s' → stopped s' ∧ trace s' = trace s.
Proof.
  intros Hf [Hstop Hcomp] Hstep. unfold stopped.
  destruct Hstep as [s pre t post w now s' Ht Hw Hexec|s g s' Hg Hrun|s s' Hc|s s' Hl].
  - destruct (decide (t = GoCall RerunnerRun)) as [->|Hne].
    + simpl in Hexec.
      destruct (Rerunner_run_cases _ _ _ _ _ Hf Hexec) as [(Htr & Hrr & _)|(err & _ & _ & Hns & _)].
      * rewrite Hrr. done.
      * simpl in Hns. congruence.
    + destruct (quiet_execTask_other f w now t Hne _ _ _ Hexec) as (_ & Hrr & Htr).
      rewrite Hrr, Htr. done.
  - destruct (Hg _ _ _ Hrun) as (_ & Hrr & Htr). by rewrite Hrr.
  - apply Stop_cancel_Some in Hc as (-> & -> & _ & -> & _). done.
  - apply Stop_locked_Some in Hl as (-> & -> & _ & -> & _). done.
Qed.

Lemma stopped_rtc f s s' :
  userFunc f → stopped s → rtc (step f) s s' → stopped s' ∧ trace s' = trace s.
Proof.
  intros Hf Hs Hr. induction Hr as [s|s s1 s2 Hstep _ IH]; [done|].
  destruct (stopped_step _ _ _ Hf Hs Hstep) as [Hs1 Ht1].
  destruct (IH Hs1) as [Hs2 Ht2]. split; [done|congruence].
Qed.

(** X21. After [Stop].  Once [Stop] has returned, the context is
    cancelled, the stop flag is set, the executor holds no computation and
    the release of the one it held is scheduled.  From then on the
    computation function is never run again, whatever goroutines are still
    pending and whatever is invalidated later, and the executor stays
    stopped; a second [Stop] that returns leaves the state as it is. *)
Theorem Stop_stops_runs f s s1 :
  userFunc f → Stop s = Some (tt, s1) →
  stop (rr s1) = true ∧ cancelled (rr s1) = true ∧ r_computation (rr s1) = None ∧
  (∀ c, r_computation (rr s) = Some c → GoRelease (c_node c) ∈ tasks s1) ∧
  (∀ s2, Stop s1 = Some (tt, s2) → s2 = s1) ∧
  (∀ s2, rtc (step f) s1 s2 → trace s2 = trace s ∧ stopped s2).
Proof.
  intros Hf HS.
  unfold Stop in HS. apply bind_Some in HS as ([] & s0 & Hc & Hl).
  pose proof (Stop_cancel_Some _ _ _ Hc) as (Hc1 & Hc2 & Hc3 & Hc4 & Hc5).
  pose proof (Stop_locked_Some _ _ _ Hl) as (Hl1 & Hl2 & Hl3 & Hl4 & Hl5).
  split; [done|]. split; [congruence|]. split; [done|]. split.
  { intros c Hcomp. apply Hl5. congruence. }
  split.
  - clear -Hl1 Hl2 Hl3 Hc3. rewrite Hc3 in Hl3. intros s2.
    destruct s1 as [ns nn ts ch [cn mi rd rc st lr] us tr]. simpl in *. subst.
    by intros [= <-].
  - intros s2 Hr. destruct (stopped_rtc f s1 s2 Hf ltac:(done) Hr) as [Hs2 Ht2].
    split; [congruence|done].
Qed.

Lemma Stop_stops_runs_witness :
  let f := dependThenFail 0 in
  let s := runTask f 0 TimerFired 10%Z (runUser NewResource (NewRerunner 10%Z)) in
  let s1 := runUser Stop s in
  r_computation (rr s) = Some (Computation 1 (Some 1%Z)) ∧
  stop (rr s1) = true ∧ cancelled (rr s1) = true ∧ r_computation (rr s1) = None ∧
  GoRelease 1 ∈ tasks s1 ∧
  (∀ s2, rtc (step f) s1 s2 → trace s2 = trace s ∧ stopped s2).
Proof.
  intros f s s1.
  assert (Stop s = Some (tt, s1)) as HS by (vm_compute; reflexivity).
  assert (r_computation (rr s) = Some (Computation 1 (Some 1%Z))) as Hcomp
    by (vm_compute; reflexivity).
  destruct (Stop_stops_runs f s s1 (dependThenFail_userFunc 0) HS)
    as (Hstop & Hcancel & Hnone & Hrel & _ & Hafter).
  split; [exact Hcomp|]. split; [exact Hstop|]. split; [exact Hcancel|].
  split; [exact Hnone|]. split; [exact (Hrel _ Hcomp)|exact Hafter].
Defined.

(** ** One run at a time *)

(** X22. At any time at most one start of [Rerunner.run] is pending,
    counting the goroutines not yet run and the invalidation handlers not
    yet fired; and when the computation function is run, the run that
    starts it was the only one pending. *)
Theorem one_pending_run f m s :
  userFunc f → reachable f m s →
  (rerunTokens s ≤ 1)%nat ∧
  ∀ s', step f s s' → trace s' ≠ trace s →
    taskTokens (tasks s) = 1%nat ∧ heapTokens (nodes s) = 0%nat ∧
    (rerunTokens s' ≤ 1)%nat.
Proof.
  intros Hf Hr. pose proof (reachable_tokens f m s Hf Hr) as Hle. split; [done|].
  intros s' Hstep Htr.
  destruct (step_trace_changed f s s' Hf Hstep Htr) as (pre & post & now & Ht & _).
  pose proof (step_tokens f s s' Hf Hstep) as Hle'.
  unfold rerunTokens in *. rewrite Ht, taskTokens_app, taskTokens_cons in *.
  rewrite decide_True in * by done. lia.
Qed.

Lemma one_pending_run_witness :
  (rerunTokens (NewRerunner 10%Z) ≤ 1)%nat ∧
  ∀ s', step alwaysRetry (NewRerunner 10%Z) s' → trace s' ≠ trace (NewRerunner 10%Z) →
    taskTokens (tasks (NewRerunner 10%Z)) = 1%nat ∧
    heapTokens (nodes (NewRerunner 10%Z)) = 0%nat ∧ (rerunTokens s' ≤ 1)%nat.
Proof.
  apply (one_pending_run alwaysRetry 10%Z (NewRerunner 10%Z) alwaysRetry_userFunc).
  apply rtc_refl.
Defined.


(** ** What a run leaves behind *)

Lemma handleInvalidate_Some n h s (u : unit) s' :
  handleInvalidate n h s = Some (u, s') →
  rr s' = rr s ∧ trace s' = trace s ∧
  ((tasks s' = tasks s ++ [GoCall h]) ∨
   (tasks s' = tasks s ∧ ∃ nd, nodes s' !! n = Some nd ∧ h ∈ invalidateHandlers nd)).
Proof.
  unfold handleInvalidate. intros (nd & s1 & [Hn ->]%getNode_Some & H)%bind_Some.
  destruct (invalidated nd).
  - injection H as <- <-. split; [done|]. split; [done|]. by left.
  - injection H as <- <-. split; [done|]. split; [done|]. right. split; [done|].
    eexists. simpl. rewrite lookup_insert_eq. split; [done|]. simpl.
    apply elem_of_app. right. left.
Qed.

(** X23. What a call of [Rerunner.run] does.  When the context is done or
    the executor is stopped it changes nothing.  Otherwise it runs the
    computation function once.  After a success the new computation is the
    executor's computation, the release of the previous one is scheduled,
    and the next run is either registered as invalidation handler of the
    new computation or, if that is invalidated already, scheduled at once.
    After the retry sentinel the executor keeps its computation, the
    release of the failed computation is scheduled and so is the next
    run. *)
Theorem Rerunner_run_outcomes f now s :
  userFunc f →
  Rerunner_run f CtxDone now s = Some (tt, s) ∧
  (stop (rr s) = true → Rerunner_run f TimerFired now s = Some (tt, s)) ∧
  ∀ s', stop (rr s) = false → Rerunner_run f TimerFired now s = Some (tt, s') →
    ∃ err, trace s' = err :: trace s ∧ lastRun (rr s') = now ∧
      match err with
      | None =>
          (∃ value, r_computation (rr s') = Some (Computation (nextNode s) value)) ∧
          (∀ old, r_computation (rr s) = Some old → GoRelease (c_node old) ∈ tasks s') ∧
          (GoCall RerunnerRun ∈ tasks s' ∨
           ∃ nd, nodes s' !! nextNode s = Some nd ∧ RerunnerRun ∈ invalidateHandlers nd)
      | Some RetrySentinelError =>
          r_computation (rr s') = r_computation (rr s) ∧
          GoRelease (nextNode s) ∈ tasks s' ∧ GoCall RerunnerRun ∈ tasks s'
      | Some (OtherError _) =>
          r_computation (rr s') = r_computation (rr s) ∧
          GoRelease (nextNode s) ∈ tasks s' ∧ retryDelay (rr s') = retryDelay (rr s)
      end.
Proof.
  intros Hf. split; [done|]. split.
  { intros Hstop. unfold Rerunner_run. cbv [bind getRR gets]. by rewrite Hstop. }
  intros s' Hstop H. unfold Rerunner_run in H.
  apply bind_Some in H as (r & s1 & [-> ->]%gets_Some & H). rewrite Hstop in H.
  apply bind_Some in H as ([] & s1 & ->%modify_Some & H).
  apply bind_Some in H as ([computation err] & s2 & Hrun & H).
  pose proof (quiet_run _ _ Hf _ _ _ Hrun) as (_ & Hr2 & Hl2).
  apply run_Some in Hrun as (value & err' & sf & Hcall & Hres).
  simpl in *.
  apply bind_Some in H as ([] & s3 & ->%modify_Some & H).
  apply bind_Some in H as ([] & s4 & ->%modify_Some & H).
  exists err. clear Hcall.
  destruct err' as [e'|]; destruct Hres as [[= -> ->] ->].
  - simpl in Hr2, Hl2. destruct e' as [|msg]; simpl in H.
    + cbv [bind getRR gets setRetryDelay modify spawn] in H. injection H as <-.
      simpl. rewrite Hl2, Hr2. repeat split; try done.
      * apply elem_of_app. left. apply elem_of_app. right. left.
      * apply elem_of_app. right. left.
    + apply ret_Some in H as [_ ->]. simpl. rewrite Hl2, Hr2. repeat split; try done.
      apply elem_of_app. right. left.
  - simpl in H.
    apply bind_Some in H as (r & s5 & [-> ->]%gets_Some & H).
    apply bind_Some in H as ([] & s6 & Hold & H).
    apply bind_Some in H as ([] & s7 & ->%modify_Some & H).
    apply bind_Some in H as (r & s8 & [-> ->]%gets_Some & H).
    apply bind_Some in H as ([] & s9 & ->%modify_Some & H).
    apply handleInvalidate_Some in H as (Hr & Hl & Ht).
    assert (trace s6 = None :: trace s ∧ lastRun (rr s6) = now ∧
            (∀ old, r_computation (rr s) = Some old → GoRelease (c_node old) ∈ tasks s6))
      as (Hl6 & Hn6 & Ht6).
    { cbn in Hold. rewrite Hr2 in Hold. destruct (r_computation (rr s)) as [old|].
      - apply bind_Some in Hold as ([] & s10 & ->%modify_Some & ->%modify_Some).
        cbn. rewrite ?Hl2. repeat split; try done.
        intros old' [= <-]. apply elem_of_app. right. left.
      - apply ret_Some in Hold as [_ ->]. cbn. rewrite ?Hl2. repeat split; done. }
    cbn in Hr, Hl, Ht. rewrite Hr, Hl. cbn. rewrite Hl6. repeat split; try done.
    + by eexists.
    + intros old Hold'. destruct Ht as [->|[-> _]]; [apply elem_of_app; left|]; by apply Ht6.
    + destruct Ht as [->|[_ Hnd]]; [left; apply elem_of_app; right; left|by right].
Qed.

Lemma Rerunner_run_outcomes_witness :
  Rerunner_run alwaysRetry CtxDone 5%Z (NewRerunner 10%Z) = Some (tt, NewRerunner 10%Z) ∧
  ∃ err, trace (runUser (Rerunner_run alwaysRetry TimerFired 5%Z) (NewRerunner 10%Z)) =
           err :: trace (NewRerunner 10%Z) ∧ err = Some RetrySentinelError.
Proof.
  destruct (Rerunner_run_outcomes alwaysRetry 5%Z (NewRerunner 10%Z) alwaysRetry_userFunc)
    as (Hdone & _ & Hrun).
  split; [exact Hdone|].
  destruct (Hrun (runUser (Rerunner_run alwaysRetry TimerFired 5%Z) (NewRerunner 10%Z))
              eq_refl ltac:(vm_compute; reflexivity)) as (err & Htr & _).
  exists err. split; [exact Htr|].
  vm_compute in Htr. by injection Htr as <-.
Defined.


(** ** The keyed lock table and the cache *)

Lemma setCache_same s : setCache (MkCache (locker (theCache s)) (computations (theCache s))) s = s.
Proof. by destruct s as [? ? ? [] ? ? ?]. Qed.




(** ** Cache hits *)

Lemma addOut_Some n target nd s :
  nodes s !! n = Some nd →
  ∃ s', addOut n target s = Some (tt, s') ∧
    theCache s' = theCache s ∧ rr s' = rr s ∧ trace s' = trace s ∧ nextNode s' = nextNode s ∧
    hasEdge s' n target ∧
    (invalidated nd = true → GoInvalidate target ∈ tasks s') ∧
    (∀ k, is_Some (nodes s !! k) → is_Some (nodes s' !! k)).
Proof.
  intros Hn. unfold addOut, bind, getNode. rewrite Hn.
  unfold spawn, modify, ret, setNode.
  assert (∀ t ts, t ∈ (ts ++ [t]) ++ [GoRelease target]) as Hin2.
  { intros t ts. apply elem_of_app. left. apply elem_of_app. right. left. }
  assert (∀ (t : task) ts, t ∈ ts ++ [t]) as Hin1.
  { intros t ts. apply elem_of_app. right. left. }
  assert (∀ nd' (m : gmap nodeId node) k, is_Some (m !! k) → is_Some (<[n := nd']> m !! k)) as Hkeep.
  { intros nd' m k Hk. destruct (decide (k = n)) as [->|Hne];
      [rewrite lookup_insert_eq; by eexists | by rewrite lookup_insert_ne]. }
  assert (∀ nd' (m : gmap nodeId node), target ∈ out nd' →
            ∃ x, <[n := nd']> m !! n = Some x ∧ target ∈ out x) as Hedge.
  { intros nd' m Hin. exists nd'. by rewrite lookup_insert_eq. }
  destruct (invalidated nd) eqn:Hi, (released nd) eqn:Hr; simpl;
    destruct (bool_decide_reflect (target ∈ out nd)) as [Hin|Hin]; simpl;
    eexists; (split; [reflexivity|]); simpl;
    (split; [done|]); (split; [done|]); (split; [done|]); (split; [done|]);
    (split; [first [by exists nd | apply Hedge; simpl; apply elem_of_app; right; left]|]);
    (split; [first [done | intros _; first [apply Hin2 | apply Hin1]]|]);
    first [done | intros k; apply Hkeep].
Qed.

(** On a hit with the key free, [Cache] takes the lock, adds the edge and
    unlocks; its function plays no part. *)
Lemma Cache_hit_eq cur key s child s1 :
  computations (theCache s) !! key = Some child →
  locker (theCache s) !! key = None →
  addOut (c_node child) cur
    (setCache (MkCache (<[key := MkLock 1 true]> (locker (theCache s)))
                       (computations (theCache s))) s) = Some (tt, s1) →
  theCache s1 = MkCache (<[key := MkLock 1 true]> (locker (theCache s)))
                        (computations (theCache s)) →
  ∀ g, Cache (Ctx true (Some cur)) key g s =
       Some ((c_value child, None),
             setCache (MkCache (locker (theCache s)) (computations (theCache s))) s1).
Proof.
  intros Hhit Hfree Hadd Hc g.
  assert (Cache (Ctx true (Some cur)) key g s =
          (addOut (c_node child) cur;; locker_Unlock key;; ret (c_value child, None))
            (setCache (MkCache (<[key := MkLock 1 true]> (locker (theCache s)))
                               (computations (theCache s))) s)) as ->.
  { unfold Cache, Cache_locked, locker_Lock, cache_get, getLocker, getComputations,
      gets, setLocker, modify, bind, ret. cbn. rewrite Hfree. cbn. rewrite Hhit.
    by destruct (addOut _ _ _) as [[[] s2]|]. }
  unfold bind at 1. rewrite Hadd.
  cbv [bind locker_Unlock getLocker gets setLocker modify ret]. rewrite Hc.
  cbn. rewrite lookup_insert_eq. cbn. rewrite delete_insert_eq, delete_id by done.
  change (1 - 1 =? 0)%Z with true. cbv beta iota. rewrite Hc. reflexivity.
Qed.

(** X25. A cache hit.  Inside a re-run, when the key has an entry and is
    not locked, [Cache] returns the cached value with a nil error and does
    not call its function: the outcome is the same for every function.
    The cache, the lock table and the executor are as before, the cached
    computation has an edge to the current one, and when the cached
    computation is invalidated already the invalidation of the current one
    is scheduled. *)
Theorem Cache_hit cur key f s child nd :
  computations (theCache s) !! key = Some child →
  locker (theCache s) !! key = None →
  nodes s !! c_node child = Some nd →
  ∃ s', Cache (Ctx true (Some cur)) key f s = Some ((c_value child, None), s') ∧
    theCache s' = theCache s ∧ rr s' = rr s ∧ trace s' = trace s ∧
    hasEdge s' (c_node child) cur ∧
    (invalidated nd = true → GoInvalidate cur ∈ tasks s') ∧
    (∀ g, Cache (Ctx true (Some cur)) key g s = Cache (Ctx true (Some cur)) key f s).
Proof.
  intros Hhit Hfree Hnd.
  destruct (addOut_Some (c_node child) cur nd
              (setCache (MkCache (<[key := MkLock 1 true]> (locker (theCache s)))
                                 (computations (theCache s))) s) Hnd)
    as (s1 & Hadd & Hc & Hr & Ht & _ & Hedge & Hinv & _).
  pose proof (Cache_hit_eq cur key s child s1 Hhit Hfree Hadd Hc) as Heq.
  exists (setCache (MkCache (locker (theCache s)) (computations (theCache s))) s1).
  split; [apply Heq|]. split; [cbn; by destruct (theCache s)|].
  split; [exact Hr|]. split; [exact Ht|]. split; [exact Hedge|]. split; [exact Hinv|].
  intros g. by rewrite !Heq.
Qed.



Lemma Cache_hit_witness :
  let s := runUser (Cache (Ctx true (Some 0)) "k" (constant (Some 7%Z)))
             (runUser NewResource (NewRerunner 10%Z)) in
  ∃ s', Cache (Ctx true (Some 0)) "k" failing s = Some ((Some 7%Z, None), s') ∧
    theCache s' = theCache s ∧ hasEdge s' 1 0.
Proof.
  intros s.
  destruct (Cache_hit 0 "k" failing s (Computation 1 (Some 7%Z)) (Node [0] false false [] []))
    as (s' & Hres & Hcache & _ & _ & Hedge & _).
  - reflexivity.
  - reflexivity.
  - reflexivity.
  - by exists s'.
Defined.

(** ** A nested call with the same key *)

(** X27. [Cache] is not reentrant in its key.  Inside a re-run, on a miss,
    a function that itself calls [Cache] with the same key never returns:
    the key is locked by the outer call until its function has returned,
    and the inner call waits for that lock. *)
Theorem Cache_same_key_blocks cur key g s :
  computations (theCache s) !! key = None →
  Cache (Ctx true (Some cur)) key (λ ctx, Cache ctx key g) s = None.
Proof.
  intros Hmiss.
  unfold Cache, Cache_locked, run, locker_Lock, cache_get, newNode, getLocker,
    getComputations, gets, setLocker, modify, bind, ret, stuck. cbn.
  destruct (held (default _ _)); [done|]. cbn. rewrite Hmiss. cbn.
  rewrite lookup_insert_eq. reflexivity.
Qed.

Lemma Cache_same_key_blocks_witness :
  Cache (Ctx true (Some 0)) "k" (λ ctx, Cache ctx "k" (constant (Some 7%Z)))
    (runUser NewResource (NewRerunner 10%Z)) = None ∧
  fst <$> Cache (Ctx true (Some 0)) "k" (λ ctx, Cache ctx "j" (constant (Some 7%Z)))
    (runUser NewResource (NewRerunner 10%Z)) = Some (Some 7%Z, None).
Proof.
  split; [|vm_compute; reflexivity].
  apply (Cache_same_key_blocks 0 "k" (constant (Some 7%Z))). reflexivity.
Defined.


(** ** The cache at the start of a run *)




End ReactiveSpec.
